(** * A tkinter calculator: the evaluator and its callbacks

    Shallow embedding of [calculator.py].  The program keeps one mutable
    display buffer, turns its text into a syntax tree with Python's
    [ast.parse], walks a whitelist of node classes in [_eval] and writes the
    formatted result back.

    The file is laid out as follows.
    - [Float]: Python's [float] (IEEE 754 binary64, round to nearest even).
    - [Text]: decimal text of integers and floats ([str(int)], [str(float)])
      and the value of a numeric literal.
    - [Ast]: the classes of [ast] nodes the evaluator can meet.
    - [Grammar]: the tokens and the expression grammar of [ast.parse]
      in [eval] mode, over the characters the calculator deals with.
    - [Calculator]: the methods of the class, in a state and exception monad.
    - the statements about them: the evaluator on trees, rounding, decimal
      text and its reading back, and the specification ([Claims]);
    - [Keys], [Buttons]: the editing keys and the button table;
      [Failures]: what the evaluator and the callbacks can raise;
      [Results], [Signs], [Integers]: what the display shows. *)

From Stdlib Require Import ZArith List String Ascii Bool Lia Znumtheory.
From Stdlib Require Import DecimalString DecimalZ DecimalN DecimalPos.
Import ListNotations.

Set Warnings "-register-all".

Local Open Scope Z_scope.

(* ================================================================== *)
(** * Python floats *)
(* ================================================================== *)

Module Float.

(** A finite binary64 number is an integer multiple of [2^-1074], the least
    positive subnormal.  A finite float is kept as its sign and its magnitude
    counted in that unit, which lets every operation be written as the exact
    rational result followed by one rounding. *)
Inductive float : Type :=
| Finite (negative : bool) (mag : Z)
| Inf (negative : bool)
| NaN.

(** [2^1074]: the number [1.0] in units. *)
Definition one_unit : Z := 2 ^ 1074.

(** [2^1024] in units: magnitudes from here on overflow. *)
Definition huge : Z := 2 ^ 2098.

(** Below [2^53] units consecutive doubles are one unit apart; a magnitude
    with [53 + j] bits lies among doubles [2^j] units apart. *)
Definition ulp_shift (q : Z) : Z := Z.max 0 (Z.log2 q - 52).

(** The magnitudes that are doubles (before the overflow threshold). *)
Definition representable (k : Z) : Prop :=
  0 <= k /\ k mod 2 ^ ulp_shift k = 0.

Definition representableb (k : Z) : bool :=
  (0 <=? k) && (k mod 2 ^ ulp_shift k =? 0).

(** Well-formed floats: what the operations below produce. *)
Definition wf (x : float) : Prop :=
  match x with
  | Finite _ k => representable k /\ k < huge
  | _ => True
  end.

(** [n / d] rounded to an integer, ties to the even neighbour. *)
Definition round_half_even (n d : Z) : Z :=
  let q := n / d in
  let r := n mod d in
  if 2 * r <? d then q
  else if d <? 2 * r then q + 1
  else if Z.even q then q else q + 1.

(** The double nearest to [n / d] units ([0 <= n], [0 < d]), ties to even,
    with the exponent range unbounded above. *)
Definition round_units (n d : Z) : Z :=
  let j := ulp_shift (n / d) in
  round_half_even n (d * 2 ^ j) * 2 ^ j.

(** Rounding with overflow to infinity. *)
Definition of_ratio (negative : bool) (n d : Z) : float :=
  let k := round_units n d in
  if k <? huge then Finite negative k else Inf negative.

Definition zero : float := Finite false 0.

Definition is_zero (x : float) : bool :=
  match x with
  | Finite _ k => k =? 0
  | _ => false
  end.

Definition is_finite (x : float) : bool :=
  match x with
  | Finite _ _ => true
  | _ => false
  end.

(** [operator.neg]. *)
Definition neg (x : float) : float :=
  match x with
  | Finite s k => Finite (negb s) k
  | Inf s => Inf (negb s)
  | NaN => NaN
  end.

(** [operator.pos]. *)
Definition pos (x : float) : float := x.

Definition signed (s : bool) (k : Z) : Z := if s then - k else k.

(** [operator.add] on floats. *)
Definition add (x y : float) : float :=
  match x, y with
  | NaN, _ | _, NaN => NaN
  | Inf s1, Inf s2 => if Bool.eqb s1 s2 then Inf s1 else NaN
  | Inf s, Finite _ _ | Finite _ _, Inf s => Inf s
  | Finite s1 k1, Finite s2 k2 =>
      let z := signed s1 k1 + signed s2 k2 in
      if z =? 0 then Finite (s1 && s2) 0
      else of_ratio (z <? 0) (Z.abs z) 1
  end.

(** [operator.sub] on floats. *)
Definition sub (x y : float) : float := add x (neg y).

(** [operator.mul] on floats. *)
Definition mul (x y : float) : float :=
  match x, y with
  | NaN, _ | _, NaN => NaN
  | Inf s1, Inf s2 => Inf (xorb s1 s2)
  | Inf s1, Finite s2 k | Finite s2 k, Inf s1 =>
      if k =? 0 then NaN else Inf (xorb s1 s2)
  | Finite s1 k1, Finite s2 k2 => of_ratio (xorb s1 s2) (k1 * k2) one_unit
  end.

(** IEEE division; Python only reaches it with a divisor that is not zero. *)
Definition div (x y : float) : float :=
  match x, y with
  | NaN, _ | _, NaN => NaN
  | Inf _, Inf _ => NaN
  | Inf s1, Finite s2 _ => Inf (xorb s1 s2)
  | Finite s1 _, Inf s2 => Finite (xorb s1 s2) 0
  | Finite s1 k1, Finite s2 k2 =>
      if k2 =? 0 then (if k1 =? 0 then NaN else Inf (xorb s1 s2))
      else of_ratio (xorb s1 s2) (k1 * one_unit) k2
  end.

(** [operator.truediv] on floats: [None] stands for [ZeroDivisionError],
    raised whenever the divisor compares equal to zero. *)
Definition truediv (x y : float) : option float :=
  if is_zero y then None else Some (div x y).

(** [float.is_integer]. *)
Definition is_integer (x : float) : bool :=
  match x with
  | Finite _ k => k mod one_unit =? 0
  | _ => false
  end.

(** [int(x)] for a finite [x]: truncation toward zero. *)
Definition to_int (x : float) : Z :=
  match x with
  | Finite s k => signed s (k / one_unit)
  | _ => 0
  end.

(** [float(n)] for an [int]: [None] stands for [OverflowError]. *)
Definition of_int (n : Z) : option float :=
  let k := round_units (Z.abs n * one_unit) 1 in
  if k <? huge then Some (Finite (n <? 0) k) else None.

(** The value of the decimal numeral [n * 10^e] ([0 <= n]) as a float
    literal: correctly rounded, infinite when too large. *)
Definition of_decimal (n e : Z) : float :=
  if 0 <=? e then of_ratio false (n * 10 ^ e * one_unit) 1
  else of_ratio false (n * one_unit) (10 ^ (- e)).

(** Small integers as floats. *)
Definition of_small (n : Z) : float := Finite (n <? 0) (Z.abs n * one_unit).

Definition eqb (x y : float) : bool :=
  match x, y with
  | Finite s1 k1, Finite s2 k2 => Bool.eqb s1 s2 && (k1 =? k2)
  | Inf s1, Inf s2 => Bool.eqb s1 s2
  | NaN, NaN => true
  | _, _ => false
  end.

End Float.

(* ================================================================== *)
(** * Decimal text *)
(* ================================================================== *)

Module Text.
Import Float.

Local Open Scope char_scope.
Local Open Scope Z_scope.

Definition is_digit (c : ascii) : bool :=
  (48 <=? N_of_ascii c)%N && (N_of_ascii c <=? 57)%N.

Definition digit_value (c : ascii) : Z := Z.of_N (N_of_ascii c) - 48.

(** A run of decimal digits read most significant first. *)
Definition digits_value_from (acc : Z) (ds : list ascii) : Z :=
  fold_left (fun a c => 10 * a + digit_value c) ds acc.

Definition digits_value (ds : list ascii) : Z := digits_value_from 0 ds.

Fixpoint uint_chars (u : Decimal.uint) : list ascii :=
  match u with
  | Decimal.Nil => []
  | Decimal.D0 u => "0" :: uint_chars u
  | Decimal.D1 u => "1" :: uint_chars u
  | Decimal.D2 u => "2" :: uint_chars u
  | Decimal.D3 u => "3" :: uint_chars u
  | Decimal.D4 u => "4" :: uint_chars u
  | Decimal.D5 u => "5" :: uint_chars u
  | Decimal.D6 u => "6" :: uint_chars u
  | Decimal.D7 u => "7" :: uint_chars u
  | Decimal.D8 u => "8" :: uint_chars u
  | Decimal.D9 u => "9" :: uint_chars u
  end.

(** The decimal digits of a natural number, no leading zero; ["0"] for 0. *)
Definition digits_of (n : Z) : list ascii := uint_chars (N.to_uint (Z.to_N n)).

(** [str(n)] for an [int]. *)
Definition str_int (n : Z) : list ascii :=
  if n <? 0 then "-" :: digits_of (- n) else digits_of n.

(** ** [str(x)] for a [float]

    Python prints the shortest decimal numeral that reads back as the same
    double, and of the numerals of that length the one nearest to the double.
    A numeral with few digits is a multiple of a large power of ten, so the
    search walks the grids [10^q] from a coarse one down and stops at the
    first grid on which a neighbour of the double reads back as it. *)

(** [k] units divided by [10^q], as a ratio. *)
Definition on_grid (k q : Z) : Z * Z :=
  if 0 <=? q then (k, one_unit * 10 ^ q) else (k * 10 ^ (- q), one_unit).

Definition round_trips (k d q : Z) : bool :=
  Float.eqb (of_decimal d q) (Finite false k).

Fixpoint shortest (fuel : nat) (k q : Z) : Z * Z :=
  match fuel with
  | O => (k * 5 ^ 1074, -1074)
  | S fuel' =>
      let (n, d) := on_grid k q in
      let lo := n / d in
      let r := n mod d in
      let hi := lo + 1 in
      let ok_lo := round_trips k lo q in
      let ok_hi := round_trips k hi q in
      if ok_lo && ok_hi then
        (if 2 * r <? d then (lo, q)
         else if d <? 2 * r then (hi, q)
         else if Z.even lo then (lo, q) else (hi, q))
      else if ok_lo then (lo, q)
      else if ok_hi then (hi, q)
      else shortest fuel' k (q - 1)
  end.

(** A grid exponent [q] with [k] units below [10^q]: from the bit length,
    with [2^3 < 10] above one and [10^3 < 2^10] below. *)
Definition upper_exp (k : Z) : Z :=
  let b := Z.log2 k - 1073 in
  if 0 <=? b then (b + 2) / 3 else - (3 * ((- b) / 10)).

(** The shortest numeral [(d, q)], meaning [d * 10^q], of the double of
    magnitude [k > 0]. *)
Definition shortest_decimal (k : Z) : Z * Z :=
  let q0 := upper_exp k in
  shortest (Z.to_nat (q0 + 1074)) k q0.

Fixpoint drop_zeros (ds : list ascii) : list ascii :=
  match ds with
  | "0" :: ds' => drop_zeros ds'
  | _ => ds
  end.

Definition strip_trailing_zeros (ds : list ascii) : list ascii :=
  rev (drop_zeros (rev ds)).

(** The significant digits of the numeral and the position of its decimal
    point: the value is [0.d1d2...dn * 10^decpt]. *)
Definition repr_digits (k : Z) : list ascii * Z :=
  let (d, q) := shortest_decimal k in
  let all := digits_of d in
  let ds := strip_trailing_zeros all in
  (ds, Z.of_nat (List.length all) + q).

Definition zeros (n : Z) : list ascii := repeat "0" (Z.to_nat n).

(** The exponent of the scientific form: a sign and at least two digits. *)
Definition exponent_text (e : Z) : list ascii :=
  let ds := digits_of (Z.abs e) in
  (if e <? 0 then "-" else "+") ::
  (if Z.of_nat (List.length ds) <? 2 then "0" :: ds else ds).

(** [repr] lays the digits out in scientific form when the decimal point
    falls more than 16 places right or 4 or more places left of them. *)
Definition layout (ds : list ascii) (decpt : Z) : list ascii :=
  let n := Z.of_nat (List.length ds) in
  if (decpt <=? -4) || (16 <? decpt) then
    match ds with
    | [] => []
    | d :: rest =>
        d :: (match rest with [] => [] | _ => "." :: rest end)
          ++ "e" :: exponent_text (decpt - 1)
    end
  else if decpt <=? 0 then
    "0" :: "." :: zeros (- decpt) ++ ds
  else if decpt <? n then
    firstn (Z.to_nat decpt) ds ++ "." :: skipn (Z.to_nat decpt) ds
  else
    ds ++ zeros (decpt - n) ++ [".";"0"].

(** [str(x)] (which is [repr(x)]) for a [float]. *)
Definition str_float (x : float) : list ascii :=
  match x with
  | NaN => ["n";"a";"n"]
  | Inf s => (if s then ["-"] else []) ++ ["i";"n";"f"]
  | Finite s k =>
      (if s then ["-"] else []) ++
      (if k =? 0 then ["0";".";"0"]
       else let (ds, decpt) := repr_digits k in layout ds decpt)
  end.

End Text.

(* ================================================================== *)
(** * Syntax trees *)
(* ================================================================== *)

Module Ast.

(** The values an [ast.Constant] can carry. *)
Inductive constant : Type :=
| CInt (n : Z)
| CFloat (x : Float.float)
| CComplex (imag : Float.float)
| CStr (s : string)
| CBytes (s : string)
| CBool (b : bool)
| CNone
| CEllipsis.

Inductive unaryop : Type := Invert | Not | UAdd | USub.

Inductive operator : Type :=
| Add | Sub | Mult | MatMult | Div | Mod | Pow
| LShift | RShift | BitOr | BitXor | BitAnd | FloorDiv.

(** The node classes [_eval] tells apart, those the grammar below can build,
    and one constructor for every other class of [ast] node ([BoolOp],
    [Compare], [IfExp], ...), which [_eval] treats alike. *)
Inductive node : Type :=
| Expression (body : node)
| Constant (value : constant)
| UnaryOp (op : unaryop) (operand : node)
| BinOp (left : node) (op : operator) (right : node)
| Name (id : string)
| Attribute (value : node) (attr : string)
| Call (func : node) (args : list node) (keywords : list node)
| Starred (value : node)
| Tuple (elts : list node)
| OtherNode (class : string).

End Ast.

(* ================================================================== *)
(** * The grammar of [ast.parse(text, mode="eval")] *)
(* ================================================================== *)

(** Python's tokenizer and expression grammar, restricted to the characters
    of the calculator's keys ([0]-[9], [.], [+ - * /]), parentheses, the
    space and the letter [e] (the exponent mark of a float literal, which
    [str] of a float can print).  Over these characters the tokens are
    numbers, names, [+ - * / ** // ( ) .] and [...], and the grammar is
    that of Python's [sum] with calls and attribute references.  Any other
    character is reported as a syntax error; implementation limits of
    CPython (nesting depth, literal size) are not modelled. *)
Module Grammar.
Import Ast Text.

Local Open Scope char_scope.
Local Open Scope Z_scope.

Inductive token : Type :=
| NUMBER (value : constant)
| NAME (id : string)
| PLUS | MINUS | STAR | SLASH | DOUBLESTAR | DOUBLESLASH
| LPAR | RPAR | DOT | ELLIPSIS.

Fixpoint span_digits (cs : list ascii) : list ascii * list ascii :=
  match cs with
  | c :: cs' =>
      if is_digit c then let (ds, rest) := span_digits cs' in (c :: ds, rest)
      else ([], cs)
  | [] => ([], [])
  end.

Definition is_name_char (c : ascii) : bool :=
  Ascii.eqb c "e" || is_digit c.

Fixpoint span_name (cs : list ascii) : list ascii * list ascii :=
  match cs with
  | c :: cs' =>
      if is_name_char c then let (ds, rest) := span_name cs' in (c :: ds, rest)
      else ([], cs)
  | [] => ([], [])
  end.

Definition starts_with_digit (cs : list ascii) : bool :=
  match cs with
  | c :: _ => is_digit c
  | [] => false
  end.

Definition starts_with_name_char (cs : list ascii) : bool :=
  match cs with
  | c :: _ => is_name_char c
  | [] => false
  end.

(** The exponent of a float literal, if one follows the mantissa:
    [e], an optional sign and at least one digit.  [None] is the
    tokenizer's "invalid decimal literal". *)
Definition lex_exponent (cs : list ascii)
  : option (option Z * list ascii) :=
  match cs with
  | "e" :: "+" :: r =>
      if starts_with_digit r
      then let (ds, r') := span_digits r in Some (Some (digits_value ds), r')
      else None
  | "e" :: "-" :: r =>
      if starts_with_digit r
      then let (ds, r') := span_digits r in Some (Some (- digits_value ds), r')
      else None
  | "e" :: r =>
      if starts_with_digit r
      then let (ds, r') := span_digits r in Some (Some (digits_value ds), r')
      else None
  | _ => Some (None, cs)
  end.

(** A decimal integer literal is a nonzero digit followed by digits, or
    zeros only. *)
Definition valid_decinteger (ds : list ascii) : bool :=
  match ds with
  | "0" :: _ => digits_value ds =? 0
  | _ => true
  end.

(** A number literal at the head of [cs], which starts with a digit or with
    a point followed by a digit.  A literal may not run into a name. *)
Definition lex_number (cs : list ascii) : option (constant * list ascii) :=
  let (ip, r1) := span_digits cs in
  match r1 with
  | "." :: r2 =>
      let (fp, r3) := span_digits r2 in
      match lex_exponent r3 with
      | Some (e, r4) =>
          if starts_with_name_char r4 then None
          else
            let ex := match e with Some x => x | None => 0 end in
            Some (CFloat (Float.of_decimal (digits_value (ip ++ fp))
                            (ex - Z.of_nat (List.length fp))), r4)
      | None => None
      end
  | _ =>
      match lex_exponent r1 with
      | Some (Some ex, r4) =>
          if starts_with_name_char r4 then None
          else Some (CFloat (Float.of_decimal (digits_value ip) ex), r4)
      | Some (None, r4) =>
          if valid_decinteger ip then Some (CInt (digits_value ip), r4)
          else None
      | None => None
      end
  end.

Inductive lex_step_result : Type :=
| Token (t : token) (rest : list ascii)
| Blank (rest : list ascii)
| EndOfInput
| BadToken.

(** One step of the tokenizer. *)
Definition lex_step (cs : list ascii) : lex_step_result :=
  match cs with
  | [] => EndOfInput
  | " " :: r => Blank r
  | "+" :: r => Token PLUS r
  | "-" :: r => Token MINUS r
  | "*" :: "*" :: r => Token DOUBLESTAR r
  | "*" :: r => Token STAR r
  | "/" :: "/" :: r => Token DOUBLESLASH r
  | "/" :: r => Token SLASH r
  | "(" :: r => Token LPAR r
  | ")" :: r => Token RPAR r
  | "." :: r =>
      if starts_with_digit r then
        match lex_number cs with
        | Some (c, r') => Token (NUMBER c) r'
        | None => BadToken
        end
      else
        match r with
        | "." :: "." :: r' => Token ELLIPSIS r'
        | _ => Token DOT r
        end
  | c :: r =>
      if is_digit c then
        match lex_number cs with
        | Some (c, r') => Token (NUMBER c) r'
        | None => BadToken
        end
      else if is_name_char c then
        let (id, r') := span_name cs in
        Token (NAME (string_of_list_ascii id)) r'
      else BadToken
  end.

(** The token stream, or [None] when the tokenizer rejects the text.  Every
    step consumes a character, so fuel beyond the length of the text is
    never used up. *)
Fixpoint lex_all (fuel : nat) (cs : list ascii) : option (list token) :=
  match fuel with
  | O => None
  | S fuel' =>
      match lex_step cs with
      | EndOfInput => Some []
      | Blank r => lex_all fuel' r
      | Token t r =>
          match lex_all fuel' r with
          | Some ts => Some (t :: ts)
          | None => None
          end
      | BadToken => None
      end
  end.

(** A first line that starts with a blank is an [IndentationError], a
    subclass of [SyntaxError]. *)
Definition tokenize (cs : list ascii) : option (list token) :=
  match cs with
  | " " :: _ => None
  | _ => lex_all (S (List.length cs)) cs
  end.

(** ** The expression grammar

    [sum: sum ('+'|'-') term | term]
    [term: term ('*'|'/'|'//') factor | factor]
    [factor: ('+'|'-') factor | power]
    [power: primary '**' factor | primary]
    [primary: primary '.' NAME | primary '(' [argument] ')' | atom]
    [atom: NAME | NUMBER | '...' | '(' ')' | '(' sum ')']

    Each parser returns the tree and the tokens left over, [None] on a
    syntax error. *)
Definition parsed : Type := option (node * list token).

Fixpoint parse_sum (fuel : nat) (ts : list token) : parsed :=
  match fuel with
  | O => None
  | S f =>
      match parse_term f ts with
      | Some (l, rest) => parse_sum_rest f l rest
      | None => None
      end
  end
with parse_sum_rest (fuel : nat) (l : node) (ts : list token) : parsed :=
  match fuel with
  | O => None
  | S f =>
      match ts with
      | PLUS :: ts' =>
          match parse_term f ts' with
          | Some (r, rest) => parse_sum_rest f (BinOp l Add r) rest
          | None => None
          end
      | MINUS :: ts' =>
          match parse_term f ts' with
          | Some (r, rest) => parse_sum_rest f (BinOp l Sub r) rest
          | None => None
          end
      | _ => Some (l, ts)
      end
  end
with parse_term (fuel : nat) (ts : list token) : parsed :=
  match fuel with
  | O => None
  | S f =>
      match parse_factor f ts with
      | Some (l, rest) => parse_term_rest f l rest
      | None => None
      end
  end
with parse_term_rest (fuel : nat) (l : node) (ts : list token) : parsed :=
  match fuel with
  | O => None
  | S f =>
      match ts with
      | STAR :: ts' =>
          match parse_factor f ts' with
          | Some (r, rest) => parse_term_rest f (BinOp l Mult r) rest
          | None => None
          end
      | SLASH :: ts' =>
          match parse_factor f ts' with
          | Some (r, rest) => parse_term_rest f (BinOp l Div r) rest
          | None => None
          end
      | DOUBLESLASH :: ts' =>
          match parse_factor f ts' with
          | Some (r, rest) => parse_term_rest f (BinOp l FloorDiv r) rest
          | None => None
          end
      | _ => Some (l, ts)
      end
  end
with parse_factor (fuel : nat) (ts : list token) : parsed :=
  match fuel with
  | O => None
  | S f =>
      match ts with
      | PLUS :: ts' =>
          match parse_factor f ts' with
          | Some (e, rest) => Some (UnaryOp UAdd e, rest)
          | None => None
          end
      | MINUS :: ts' =>
          match parse_factor f ts' with
          | Some (e, rest) => Some (UnaryOp USub e, rest)
          | None => None
          end
      | _ =>
          match parse_atom f ts with
          | Some (a, rest) =>
              match parse_trailers f a rest with
              | Some (b, DOUBLESTAR :: rest') =>
                  match parse_factor f rest' with
                  | Some (e, rest'') => Some (BinOp b Pow e, rest'')
                  | None => None
                  end
              | other => other
              end
          | None => None
          end
      end
  end
with parse_trailers (fuel : nat) (a : node) (ts : list token) : parsed :=
  match fuel with
  | O => None
  | S f =>
      match ts with
      | DOT :: NAME id :: rest => parse_trailers f (Attribute a id) rest
      | DOT :: _ => None
      | LPAR :: RPAR :: rest => parse_trailers f (Call a [] []) rest
      | LPAR :: STAR :: ts' =>
          match parse_sum f ts' with
          | Some (e, RPAR :: rest) =>
              parse_trailers f (Call a [Starred e] []) rest
          | _ => None
          end
      | LPAR :: DOUBLESTAR :: ts' =>
          match parse_sum f ts' with
          | Some (e, RPAR :: rest) => parse_trailers f (Call a [] [e]) rest
          | _ => None
          end
      | LPAR :: ts' =>
          match parse_sum f ts' with
          | Some (e, RPAR :: rest) => parse_trailers f (Call a [e] []) rest
          | _ => None
          end
      | _ => Some (a, ts)
      end
  end
with parse_atom (fuel : nat) (ts : list token) : parsed :=
  match fuel with
  | O => None
  | S f =>
      match ts with
      | NUMBER c :: rest => Some (Constant c, rest)
      | NAME id :: rest => Some (Name id, rest)
      | ELLIPSIS :: rest => Some (Constant CEllipsis, rest)
      | LPAR :: RPAR :: rest => Some (Tuple [], rest)
      | LPAR :: ts' =>
          match parse_sum f ts' with
          | Some (e, RPAR :: rest) => Some (e, rest)
          | _ => None
          end
      | _ => None
      end
  end.

(** Fuel for a token list: a chain of calls spends at most seven units
    between two tokens. *)
Definition fuel_for (ts : list token) : nat := 8 * List.length ts + 8.

(** The characters this grammar covers: those of the keys, parentheses,
    the space and the exponent mark.  On a text of these characters
    [parse_eval] below is [ast.parse]; on other texts ([True], [1_000],
    [0x10], a NUL character) it is not, and the statements that depend on
    a text being rejected are made for [keyed] texts. *)
Definition key_character (c : ascii) : bool :=
  is_digit c ||
  existsb (Ascii.eqb c) ["."; "e"; "+"; "-"; "*"; "/"; "("; ")"; " "].

Definition keyed (text : string) : bool :=
  forallb key_character (list_ascii_of_string text).

(** [ast.parse(text, mode="eval")]: the [Expression] node of the text, or
    [None] for [SyntaxError]. *)
Definition parse_eval (text : string) : option node :=
  match tokenize (list_ascii_of_string text) with
  | Some ts =>
      match parse_sum (fuel_for ts) ts with
      | Some (e, []) => Some (Expression e)
      | _ => None
      end
  | None => None
  end.

End Grammar.

(* ================================================================== *)
(** * The calculator *)
(* ================================================================== *)

Module Calculator.
Import Float Ast.

Local Open Scope string_scope.
Local Open Scope Z_scope.

(** The exception classes the program can meet. *)
Inductive exception : Type :=
| ValueError (msg : string)
| SyntaxError
| ZeroDivisionError
| OverflowError (msg : string)
| KeyError.

(** What the methods of [Calculator] read and write: the text variable
    behind the display, and the error dialogs [messagebox.showerror] has
    put up, latest first, each with its title and message. *)
Record window : Type := Window {
  display_var : string;
  alerts : list (string * string)
}.

Inductive outcome (A : Type) : Type :=
| Returned (a : A)
| Raised (e : exception).

Arguments Returned {A} a.
Arguments Raised {A} e.

(** Computations that read and write the window and may raise. *)
Definition M (A : Type) : Type := window -> outcome A * window.

Definition ret {A : Type} (a : A) : M A := fun w => (Returned a, w).

Definition bind {A B : Type} (m : M A) (k : A -> M B) : M B :=
  fun w =>
    match m w with
    | (Returned a, w') => k a w'
    | (Raised e, w') => (Raised e, w')
    end.

Definition raise {A : Type} (e : exception) : M A := fun w => (Raised e, w).

(** [try: body / except ...: handler]; the handler is [None] for an
    exception no [except] clause matches. *)
Definition try_except {A : Type} (body : M A)
  (handler : exception -> option (M A)) : M A :=
  fun w =>
    match body w with
    | (Returned a, w') => (Returned a, w')
    | (Raised e, w') =>
        match handler e with
        | Some h => h w'
        | None => (Raised e, w')
        end
    end.

Notation "x <- m ;; k" := (bind m (fun x => k))
  (at level 61, m at next level, right associativity).

(** [self.display_var.get()] and [self.display_var.set(text)]. *)
Definition display_var_get : M string := fun w => (Returned (display_var w), w).

Definition display_var_set (text : string) : M unit :=
  fun w => (Returned tt, Window text (alerts w)).

(** [messagebox.showerror(title, message)]. *)
Definition messagebox_showerror (title message : string) : M unit :=
  fun w => (Returned tt, Window (display_var w) ((title, message) :: alerts w)).

(** [ast.parse(source, mode="eval")] on a text of key characters
    ([Grammar.keyed]), where [SyntaxError] is all it raises. *)
Definition ast_parse (source : string) : M node :=
  match Grammar.parse_eval source with
  | Some tree => ret tree
  | None => raise SyntaxError
  end.

(** [float(value)] on the value of a constant that is an [int] (which
    includes [bool]) or a [float]. *)
Definition float_of (value : constant) : M float :=
  match value with
  | CInt n =>
      match Float.of_int n with
      | Some x => ret x
      | None => raise (OverflowError "int too large to convert to float")
      end
  | CBool b => ret (Float.of_small (if b then 1 else 0))
  | CFloat x => ret x
  | _ => raise (ValueError "Only numbers allowed")
  end.

(** [isinstance(node.value, (int, float))]. *)
Definition is_int_or_float (value : constant) : bool :=
  match value with
  | CInt _ | CBool _ | CFloat _ => true
  | _ => false
  end.

(** The dictionaries [op_map] of [_eval], keyed by operator class. *)
Definition unary_op_map (op : unaryop) : option (float -> float) :=
  match op with
  | UAdd => Some Float.pos
  | USub => Some Float.neg
  | _ => None
  end.

Definition py_truediv (x y : float) : M float :=
  match Float.truediv x y with
  | Some z => ret z
  | None => raise ZeroDivisionError
  end.

Definition binary_op_map (op : operator) : option (float -> float -> M float) :=
  match op with
  | Add => Some (fun x y => ret (Float.add x y))
  | Sub => Some (fun x y => ret (Float.sub x y))
  | Mult => Some (fun x y => ret (Float.mul x y))
  | Div => Some py_truediv
  | _ => None
  end.

(** [isinstance(node.op, (ast.UAdd, ast.USub))]. *)
Definition is_sign (op : unaryop) : bool :=
  match op with
  | UAdd | USub => true
  | _ => false
  end.

(** [isinstance(node.op, (ast.Add, ast.Sub, ast.Mult, ast.Div))]. *)
Definition is_arith (op : operator) : bool :=
  match op with
  | Add | Sub | Mult | Div => true
  | _ => false
  end.

(** The inner function [_eval] of [_safe_evaluate]. *)
Fixpoint _eval (node : node) : M float :=
  match node with
  | Expression body => _eval body
  | Constant value =>
      if is_int_or_float value then float_of value
      else raise (ValueError "Only numbers allowed")
  | UnaryOp op operand =>
      if is_sign op then
        x <- _eval operand ;;
        match unary_op_map op with
        | Some f => ret (f x)
        | None => raise KeyError
        end
      else raise (ValueError "Invalid expression")
  | BinOp lhs op rhs =>
      if is_arith op then
        l <- _eval lhs ;;
        r <- _eval rhs ;;
        try_except
          (match binary_op_map op with
           | Some f => f l r
           | None => raise KeyError
           end)
          (fun error =>
             match error with
             | ZeroDivisionError =>
                 Some (raise (ValueError "Cannot divide by zero"))
             | _ => None
             end)
      else raise (ValueError "Invalid expression")
  | _ => raise (ValueError "Invalid expression")
  end.

Definition _safe_evaluate (expression : string) : M float :=
  tree <- try_except (ast_parse expression)
            (fun error =>
               match error with
               | SyntaxError => Some (raise (ValueError "Invalid expression"))
               | _ => None
               end) ;;
  _eval tree.

Definition _format_number (value : float) : string :=
  if Float.is_integer value
  then string_of_list_ascii (Text.str_int (Float.to_int value))
  else string_of_list_ascii (Text.str_float value).

(** The body shared by the three evaluating callbacks: the [try] around
    [_safe_evaluate], whose [except ValueError] shows the message and
    returns. *)
Definition evaluate_or_alert (text : string) : M (option float) :=
  try_except
    (value <- _safe_evaluate text ;; ret (Some value))
    (fun error =>
       match error with
       | ValueError msg =>
           Some (_ <- messagebox_showerror "Error" msg ;; ret None)
       | _ => None
       end).

Definition _append (char : string) : M unit :=
  current <- display_var_get ;;
  display_var_set (current ++ char).

Definition _clear : M unit := display_var_set "".

(** [current[:-1]]. *)
Fixpoint drop_last (s : string) : string :=
  match s with
  | EmptyString => EmptyString
  | String c EmptyString => EmptyString
  | String c rest => String c (drop_last rest)
  end.

Definition is_empty (s : string) : bool :=
  match s with
  | EmptyString => true
  | _ => false
  end.

Definition _backspace : M unit :=
  current <- display_var_get ;;
  if is_empty current then ret tt
  else display_var_set (drop_last current).

Definition _negate : M unit :=
  current <- display_var_get ;;
  if is_empty current then ret tt
  else
    r <- evaluate_or_alert current ;;
    match r with
    | None => ret tt
    | Some value => display_var_set (_format_number (Float.neg value))
    end.

Definition _percent : M unit :=
  current <- display_var_get ;;
  if is_empty current then ret tt
  else
    r <- evaluate_or_alert current ;;
    match r with
    | None => ret tt
    | Some value =>
        hundredth <- py_truediv value (Float.of_small 100) ;;
        display_var_set (_format_number hundredth)
    end.

Definition _calculate : M unit :=
  expression <- display_var_get ;;
  if is_empty expression then ret tt
  else
    r <- evaluate_or_alert expression ;;
    match r with
    | None => ret tt
    | Some result => display_var_set (_format_number result)
    end.

End Calculator.

(* ================================================================== *)
(** * The specification's vocabulary *)
(* ================================================================== *)

(** Definitions that follow the words of the specification, to be compared
    with the program: its grammar, its expression trees with their
    arithmetic meaning, and the two ways an evaluation meets a failure. *)
Module Spec.
Import Float Ast Calculator.

Local Open Scope char_scope.
Local Open Scope string_scope.
Local Open Scope Z_scope.

(** ** The grammar of section 4.1

    [expr := term (('+'|'-') term)*], [term := factor (('*'|'/') factor)*],
    [factor := ('+'|'-')? number], a number being digits with at most one
    decimal point, with blanks allowed before and after.  The language is
    regular; [grammar_step] is its automaton. *)
Inductive grammar_state : Type :=
| AtFactor      (* a sign or a number must follow *)
| AfterSign     (* a number must follow *)
| InInteger     (* in the digits before the point *)
| AfterPoint    (* after a leading point: a digit must follow *)
| InFraction    (* in the digits after the point *)
| Trailing      (* in the blanks after the expression *)
| Rejected.

Definition is_operator_char (c : ascii) : bool :=
  Ascii.eqb c "+" || Ascii.eqb c "-" || Ascii.eqb c "*" || Ascii.eqb c "/".

Definition grammar_step (st : grammar_state) (c : ascii) : grammar_state :=
  match st with
  | AtFactor =>
      if Ascii.eqb c "+" || Ascii.eqb c "-" then AfterSign
      else if Text.is_digit c then InInteger
      else if Ascii.eqb c "." then AfterPoint
      else Rejected
  | AfterSign =>
      if Text.is_digit c then InInteger
      else if Ascii.eqb c "." then AfterPoint
      else Rejected
  | InInteger =>
      if Text.is_digit c then InInteger
      else if Ascii.eqb c "." then InFraction
      else if is_operator_char c then AtFactor
      else if Ascii.eqb c " " then Trailing
      else Rejected
  | AfterPoint => if Text.is_digit c then InFraction else Rejected
  | InFraction =>
      if Text.is_digit c then InFraction
      else if is_operator_char c then AtFactor
      else if Ascii.eqb c " " then Trailing
      else Rejected
  | Trailing => if Ascii.eqb c " " then Trailing else Rejected
  | Rejected => Rejected
  end.

Fixpoint skip_blanks (cs : list ascii) : list ascii :=
  match cs with
  | " "%char :: cs' => skip_blanks cs'
  | _ => cs
  end.

(** The texts of the specification's grammar. *)
Definition in_grammar (text : string) : bool :=
  match fold_left grammar_step (skip_blanks (list_ascii_of_string text)) AtFactor with
  | InInteger | InFraction | Trailing => true
  | _ => false
  end.

(** ** Expression trees and their arithmetic

    The node variants of section 3: numeric literal, unary sign, binary
    operation; and the meaning section 4.1 gives them: negate, add,
    subtract, multiply, divide on doubles, division by zero failing. *)
Inductive arith : Type :=
| Num (x : float)
| Plus (a : arith)
| Minus (a : arith)
| Sum (a b : arith)
| Difference (a b : arith)
| Product (a b : arith)
| Quotient (a b : arith).

Definition division_by_zero : exception :=
  ValueError "Cannot divide by zero".

Definition invalid_expression : exception :=
  ValueError "Invalid expression".

Definition both (f : float -> float -> outcome float)
  (x y : outcome float) : outcome float :=
  match x, y with
  | Returned a, Returned b => f a b
  | Raised e, _ => Raised e
  | Returned _, Raised e => Raised e
  end.

Fixpoint meaning (a : arith) : outcome float :=
  match a with
  | Num x => Returned x
  | Plus a => meaning a
  | Minus a =>
      match meaning a with
      | Returned x => Returned (Float.neg x)
      | Raised e => Raised e
      end
  | Sum a b => both (fun x y => Returned (Float.add x y)) (meaning a) (meaning b)
  | Difference a b =>
      both (fun x y => Returned (Float.sub x y)) (meaning a) (meaning b)
  | Product a b =>
      both (fun x y => Returned (Float.mul x y)) (meaning a) (meaning b)
  | Quotient a b =>
      both (fun x y => if Float.is_zero y then Raised division_by_zero
                       else Returned (Float.div x y))
           (meaning a) (meaning b)
  end.

(** The syntax tree of an expression tree. *)
Fixpoint tree_of (a : arith) : node :=
  match a with
  | Num x => Constant (CFloat x)
  | Plus a => UnaryOp UAdd (tree_of a)
  | Minus a => UnaryOp USub (tree_of a)
  | Sum a b => BinOp (tree_of a) Add (tree_of b)
  | Difference a b => BinOp (tree_of a) Sub (tree_of b)
  | Product a b => BinOp (tree_of a) Mult (tree_of b)
  | Quotient a b => BinOp (tree_of a) Div (tree_of b)
  end.

(** ** Where an evaluation fails

    [_eval] visits the operands left to right and stops at the first
    failure.  [divides_by_zero w t]: the first failure met in [t] is a
    division whose divisor evaluated to zero. *)
Inductive divides_by_zero (w : window) : node -> Prop :=
| dz_here lhs rhs x y :
    _eval lhs w = (Returned x, w) ->
    _eval rhs w = (Returned y, w) ->
    Float.is_zero y = true ->
    divides_by_zero w (BinOp lhs Div rhs)
| dz_body body :
    divides_by_zero w body -> divides_by_zero w (Expression body)
| dz_operand op operand :
    is_sign op = true ->
    divides_by_zero w operand -> divides_by_zero w (UnaryOp op operand)
| dz_left lhs op rhs :
    is_arith op = true ->
    divides_by_zero w lhs -> divides_by_zero w (BinOp lhs op rhs)
| dz_right lhs op rhs x :
    is_arith op = true ->
    _eval lhs w = (Returned x, w) ->
    divides_by_zero w rhs -> divides_by_zero w (BinOp lhs op rhs).

(** The node classes and operators [_eval] lets through, at the root. *)
Definition allowed_root (t : node) : bool :=
  match t with
  | Expression _ => true
  | Constant value => is_int_or_float value
  | UnaryOp op _ => is_sign op
  | BinOp _ op _ => is_arith op
  | _ => false
  end.

(** [meets_unsupported w t]: the first failure met in [t] is a node outside
    the whitelist. *)
Inductive meets_unsupported (w : window) : node -> Prop :=
| mu_here t : allowed_root t = false -> meets_unsupported w t
| mu_body body :
    meets_unsupported w body -> meets_unsupported w (Expression body)
| mu_operand op operand :
    is_sign op = true ->
    meets_unsupported w operand -> meets_unsupported w (UnaryOp op operand)
| mu_left lhs op rhs :
    is_arith op = true ->
    meets_unsupported w lhs -> meets_unsupported w (BinOp lhs op rhs)
| mu_right lhs op rhs x :
    is_arith op = true ->
    _eval lhs w = (Returned x, w) ->
    meets_unsupported w rhs -> meets_unsupported w (BinOp lhs op rhs).

(** Every node of the tree is on the whitelist. *)
Fixpoint supported (t : node) : bool :=
  match t with
  | Expression body => supported body
  | Constant value => is_int_or_float value
  | UnaryOp op operand => is_sign op && supported operand
  | BinOp lhs op rhs => is_arith op && supported lhs && supported rhs
  | _ => false
  end.

(** The text of an integer literal too large for a double: [1] followed by
    309 zeros. *)
Definition ten_to_the_309 : string :=
  String "1" (string_of_list_ascii (repeat "0"%char 309)).

(** A product that overflows: [1] followed by 308 zeros, times ten. *)
Definition overflowing_product : string :=
  String "1" (string_of_list_ascii (repeat "0"%char 308 ++ ["*"; "1"; "0"]%char)).

(** The double nearest to one third, in units of [2^-1074]. *)
Definition one_third_units : Z :=
  Eval vm_compute in
    match Float.div (Float.of_small 1) (Float.of_small 3) with
    | Float.Finite _ k => k
    | _ => 0
    end.

(** A window showing [text] with no dialog up. *)
Definition showing (text : string) : window := Window text [].

End Spec.

(* ================================================================== *)
(** * The evaluator on trees *)
(* ================================================================== *)

Module EvalFacts.
Import Float Ast Calculator.

Local Open Scope string_scope.
Local Open Scope Z_scope.

Ltac run_monad :=
  unfold bind, ret, raise, try_except, display_var_get, display_var_set,
    messagebox_showerror in *; simpl in *.

(** [float_of] neither reads nor writes the window. *)
Lemma float_of_frame (value : constant) :
  exists r, forall w, float_of value w = (r, w).
Proof.
  destruct value; simpl; try (eexists; intros; reflexivity).
  destruct (Float.of_int n); eexists; intros; reflexivity.
Qed.

(** [_eval] neither reads nor writes the window: its outcome is a function
    of the tree alone. *)
Lemma eval_frame (tree : node) :
  exists r, forall w, _eval tree w = (r, w).
Proof.
  induction tree; simpl;
    try (eexists; intros; unfold raise; reflexivity).
  - exact IHtree.
  - destruct (is_int_or_float value).
    + apply float_of_frame.
    + eexists; intros; reflexivity.
  - destruct IHtree as [r Hr].
    destruct op; simpl; try (eexists; intros; reflexivity);
      destruct r; eexists; intros w; unfold bind; rewrite Hr; reflexivity.
  - destruct IHtree1 as [r1 H1], IHtree2 as [r2 H2].
    destruct (is_arith op) eqn:Hop; [| eexists; intros; reflexivity].
    destruct r1 as [x|e1];
      [| eexists; intros w; unfold bind; rewrite H1; reflexivity].
    destruct r2 as [y|e2];
      [| eexists; intros w; unfold bind; rewrite H1, H2; reflexivity].
    destruct op; try discriminate Hop; simpl.
    + eexists; intros w; unfold bind, try_except; rewrite H1, H2; reflexivity.
    + eexists; intros w; unfold bind, try_except; rewrite H1, H2; reflexivity.
    + eexists; intros w; unfold bind, try_except; rewrite H1, H2; reflexivity.
    + destruct (Float.truediv x y) eqn:Hd; eexists; intros w;
        unfold bind, try_except, py_truediv; rewrite H1, H2, Hd; reflexivity.
Qed.

Lemma eval_window (tree : node) (w : window) : snd (_eval tree w) = w.
Proof. destruct (eval_frame tree) as [r Hr]. rewrite Hr. reflexivity. Qed.

Lemma eval_any_window (tree : node) (w w' : window) r :
  _eval tree w = (r, w) -> _eval tree w' = (r, w').
Proof.
  destruct (eval_frame tree) as [r' Hr]. rewrite !Hr. congruence.
Qed.

(** The same for [_safe_evaluate]. *)
Lemma safe_evaluate_frame (expression : string) :
  exists r, forall w, _safe_evaluate expression w = (r, w).
Proof.
  unfold _safe_evaluate, ast_parse.
  destruct (Grammar.parse_eval expression) as [tree|].
  - destruct (eval_frame tree) as [r Hr]. exists r. intros w.
    unfold bind, try_except, ret. apply Hr.
  - eexists. intros w. reflexivity.
Qed.

(** Unfolding of [_safe_evaluate] on a text that parses. *)
Lemma safe_evaluate_parsed (expression : string) (tree : node) (w : window) :
  Grammar.parse_eval expression = Some tree ->
  _safe_evaluate expression w = _eval tree w.
Proof.
  intros H. unfold _safe_evaluate, ast_parse. rewrite H.
  unfold bind, try_except, ret. reflexivity.
Qed.

Lemma safe_evaluate_syntax_error (expression : string) (w : window) :
  Grammar.parse_eval expression = None ->
  _safe_evaluate expression w = (Raised (ValueError "Invalid expression"), w).
Proof.
  intros H. unfold _safe_evaluate, ast_parse. rewrite H. reflexivity.
Qed.

(** Evaluation of the two compound nodes, once the operands are known. *)
Lemma eval_unary (op : unaryop) (operand : node) (w : window) (x : float) :
  _eval operand w = (Returned x, w) ->
  _eval (UnaryOp op operand) w =
    match op with
    | UAdd => (Returned x, w)
    | USub => (Returned (Float.neg x), w)
    | _ => (Raised (ValueError "Invalid expression"), w)
    end.
Proof.
  intros H. destruct op; simpl; unfold bind, ret, raise; try rewrite H;
    reflexivity.
Qed.

Lemma eval_unary_raise (op : unaryop) (operand : node) (w : window) e :
  is_sign op = true ->
  _eval operand w = (Raised e, w) ->
  _eval (UnaryOp op operand) w = (Raised e, w).
Proof.
  intros Hop H. simpl. rewrite Hop. unfold bind. rewrite H. reflexivity.
Qed.

Lemma eval_binary (lhs rhs : node) (op : operator) (w : window) (x y : float) :
  _eval lhs w = (Returned x, w) ->
  _eval rhs w = (Returned y, w) ->
  _eval (BinOp lhs op rhs) w =
    match op with
    | Add => (Returned (Float.add x y), w)
    | Sub => (Returned (Float.sub x y), w)
    | Mult => (Returned (Float.mul x y), w)
    | Div =>
        if Float.is_zero y
        then (Raised (ValueError "Cannot divide by zero"), w)
        else (Returned (Float.div x y), w)
    | _ => (Raised (ValueError "Invalid expression"), w)
    end.
Proof.
  intros H1 H2.
  destruct op; simpl; unfold bind, try_except, ret, raise, py_truediv;
    try rewrite H1; try rewrite H2; try reflexivity.
  unfold Float.truediv. destruct (Float.is_zero y); reflexivity.
Qed.

Lemma eval_binary_raise_left (lhs rhs : node) (op : operator) (w : window) e :
  is_arith op = true ->
  _eval lhs w = (Raised e, w) ->
  _eval (BinOp lhs op rhs) w = (Raised e, w).
Proof.
  intros Hop H. simpl. rewrite Hop. unfold bind. rewrite H. reflexivity.
Qed.

Lemma eval_binary_raise_right (lhs rhs : node) (op : operator) (w : window)
  (x : float) e :
  is_arith op = true ->
  _eval lhs w = (Returned x, w) ->
  _eval rhs w = (Raised e, w) ->
  _eval (BinOp lhs op rhs) w = (Raised e, w).
Proof.
  intros Hop H1 H2. simpl. rewrite Hop. unfold bind. rewrite H1, H2.
  reflexivity.
Qed.

End EvalFacts.

(* ================================================================== *)
(** * Rounding *)
(* ================================================================== *)

Module FloatFacts.
Import Float.

Lemma one_unit_pos : 0 < one_unit.
Proof. unfold one_unit. apply Z.pow_pos_nonneg; lia. Qed.

Lemma ulp_shift_nonneg (q : Z) : 0 <= ulp_shift q.
Proof. unfold ulp_shift. lia. Qed.

Lemma pow2_pos (j : Z) : 0 <= j -> 0 < 2 ^ j.
Proof. intros. apply Z.pow_pos_nonneg; lia. Qed.

(** Division with remainder, in the form the rounding lemmas use. *)
Lemma div_mod_bounds (n d : Z) :
  0 < d -> n = d * (n / d) + n mod d /\ 0 <= n mod d < d.
Proof.
  intros Hd. split.
  - apply Z.div_mod. lia.
  - apply Z.mod_pos_bound. exact Hd.
Qed.

Lemma round_half_even_exact (m d : Z) :
  0 < d -> round_half_even (m * d) d = m.
Proof.
  intros Hd. unfold round_half_even.
  rewrite Z.div_mul by lia. rewrite Z.mod_mul by lia.
  destruct (2 * 0 <? d) eqn:E; [reflexivity |].
  apply Z.ltb_ge in E. lia.
Qed.

Lemma round_half_even_scale (n d c : Z) :
  0 < d -> 0 < c -> round_half_even (n * c) (d * c) = round_half_even n d.
Proof.
  intros Hd Hc. unfold round_half_even.
  rewrite Z.div_mul_cancel_r by lia.
  rewrite Z.mul_mod_distr_r by lia.
  assert (E1 : (2 * (n mod d * c) <? d * c) = (2 * (n mod d) <? d)).
  { destruct (2 * (n mod d) <? d) eqn:E.
    - apply Z.ltb_lt in E. apply Z.ltb_lt. nia.
    - apply Z.ltb_ge in E. apply Z.ltb_ge. nia. }
  assert (E2 : (d * c <? 2 * (n mod d * c)) = (d <? 2 * (n mod d))).
  { destruct (d <? 2 * (n mod d)) eqn:E.
    - apply Z.ltb_lt in E. apply Z.ltb_lt. nia.
    - apply Z.ltb_ge in E. apply Z.ltb_ge. nia. }
  rewrite E1, E2. reflexivity.
Qed.

(** The rounded quotient lies between the floor and the floor plus one. *)
Lemma round_half_even_bounds (n d : Z) :
  0 < d -> n / d <= round_half_even n d <= n / d + 1.
Proof.
  intros Hd. unfold round_half_even.
  destruct (2 * (n mod d) <? d); [lia |].
  destruct (d <? 2 * (n mod d)); [lia |].
  destruct (Z.even (n / d)); lia.
Qed.

(** It does not pass an integer that bounds the quotient. *)
Lemma round_half_even_le (n d g : Z) :
  0 < d -> n <= g * d -> round_half_even n d <= g.
Proof.
  intros Hd Hg. unfold round_half_even.
  destruct (div_mod_bounds n d Hd) as [Hn Hr].
  assert (Hq : n / d <= g) by nia.
  destruct (2 * (n mod d) <? d) eqn:E1; [lia |].
  apply Z.ltb_ge in E1.
  assert (n / d < g) by nia.
  destruct (d <? 2 * (n mod d)); [lia |].
  destruct (Z.even (n / d)); lia.
Qed.

Lemma round_half_even_ge (n d g : Z) :
  0 < d -> g * d <= n -> g <= round_half_even n d.
Proof.
  intros Hd Hg.
  destruct (div_mod_bounds n d Hd) as [Hn Hr].
  assert (Hq : g <= n / d) by nia.
  pose proof (round_half_even_bounds n d Hd). lia.
Qed.

(** Rounding to an integer is monotone in the quotient. *)
Lemma round_half_even_mono (n1 d1 n2 d2 : Z) :
  0 < d1 -> 0 < d2 -> n1 * d2 <= n2 * d1 ->
  round_half_even n1 d1 <= round_half_even n2 d2.
Proof.
  intros H1 H2 Hle.
  destruct (div_mod_bounds n1 d1 H1) as [Hn1 Hr1].
  destruct (div_mod_bounds n2 d2 H2) as [Hn2 Hr2].
  assert (Hq : n1 / d1 <= n2 / d2).
  { apply Z.div_le_lower_bound; [lia |].
    apply Z.lt_succ_r. unfold Z.succ.
    assert (d2 * (n1 / d1) * d1 < (n2 / d2 + 1) * d2 * d1) by nia.
    nia. }
  destruct (Z.eq_dec (n1 / d1) (n2 / d2)) as [Heq | Hne].
  - unfold round_half_even. rewrite <- Heq.
    set (q := n1 / d1) in *. set (r1 := n1 mod d1) in *.
    set (r2 := n2 mod d2) in *.
    assert (Hfrac : r1 * d2 <= r2 * d1) by nia.
    destruct (2 * r1 <? d1) eqn:A1.
    + destruct (2 * r2 <? d2); [lia |].
      destruct (d2 <? 2 * r2); [lia |].
      destruct (Z.even q); lia.
    + apply Z.ltb_ge in A1.
      destruct (d1 <? 2 * r1) eqn:B1.
      * apply Z.ltb_lt in B1.
        assert (d2 < 2 * r2) by nia.
        destruct (2 * r2 <? d2) eqn:A2; [apply Z.ltb_lt in A2; lia |].
        destruct (d2 <? 2 * r2) eqn:B2; [lia | apply Z.ltb_ge in B2; lia].
      * apply Z.ltb_ge in B1.
        assert (d2 <= 2 * r2) by nia.
        destruct (2 * r2 <? d2) eqn:A2; [apply Z.ltb_lt in A2; lia |].
        destruct (d2 <? 2 * r2); [destruct (Z.even q); lia |].
        destruct (Z.even q); lia.
  - pose proof (round_half_even_bounds n1 d1 H1).
    pose proof (round_half_even_bounds n2 d2 H2). lia.
Qed.

Lemma pow2_split (a b : Z) : 0 <= a <= b -> 2 ^ b = 2 ^ (b - a) * 2 ^ a.
Proof. intros H. rewrite <- Z.pow_add_r by lia. f_equal. lia. Qed.

Lemma pow2_le (a b : Z) : 0 <= a <= b -> 2 ^ a <= 2 ^ b.
Proof. intros H. apply Z.pow_le_mono_r; lia. Qed.

Lemma multiple_of_pow2 (m j s : Z) : 0 <= s <= j -> (m * 2 ^ j) mod 2 ^ s = 0.
Proof.
  intros H. rewrite (pow2_split s j H), Z.mul_assoc.
  apply Z.mod_mul. pose proof (pow2_pos s). lia.
Qed.

(** A magnitude lies below the power of two its shift points at. *)
Lemma below_shifted_pow2 (q : Z) : 0 <= q -> q < 2 ^ (53 + ulp_shift q).
Proof.
  intros Hq. unfold ulp_shift.
  destruct (Z.eq_dec q 0) as [-> | Hne].
  - apply Z.pow_pos_nonneg; lia.
  - assert (Hpos : 0 < q) by lia.
    destruct (Z.log2_spec q Hpos) as [_ Hhi].
    eapply Z.lt_le_trans; [exact Hhi |].
    apply Z.pow_le_mono_r; lia.
Qed.

Lemma above_shifted_pow2 (q : Z) :
  0 < ulp_shift q -> 2 ^ (52 + ulp_shift q) <= q.
Proof.
  unfold ulp_shift. intros Hj.
  assert (Hpos : 0 < q).
  { destruct (Z.lt_trichotomy q 0) as [H | [H | H]]; [| | exact H].
    - rewrite Z.log2_nonpos in Hj by lia. lia.
    - subst. simpl in Hj. lia. }
  destruct (Z.log2_spec q Hpos) as [Hlo _].
  replace (52 + Z.max 0 (Z.log2 q - 52)) with (Z.log2 q) by lia. exact Hlo.
Qed.

Lemma ulp_shift_mono (p q : Z) : p <= q -> ulp_shift p <= ulp_shift q.
Proof.
  intros H. unfold ulp_shift. pose proof (Z.log2_le_mono p q H). lia.
Qed.

(** The rounded mantissa has at most 53 bits, or is [2^53]. *)
Lemma rounded_mantissa_bounds (n d : Z) :
  0 <= n -> 0 < d ->
  0 <= round_half_even n (d * 2 ^ ulp_shift (n / d)) <= 2 ^ 53.
Proof.
  intros Hn Hd. set (j := ulp_shift (n / d)).
  assert (Hj : 0 <= j) by apply ulp_shift_nonneg.
  assert (Hp : 0 < 2 ^ j) by now apply pow2_pos.
  assert (HD : 0 < d * 2 ^ j) by nia.
  split.
  - apply (round_half_even_ge n (d * 2 ^ j) 0 HD). lia.
  - apply (round_half_even_le n (d * 2 ^ j) (2 ^ 53) HD).
    assert (Hq : 0 <= n / d) by (apply Z.div_pos; lia).
    pose proof (below_shifted_pow2 (n / d) Hq) as Hb. fold j in Hb.
    rewrite Z.pow_add_r in Hb by lia.
    destruct (div_mod_bounds n d Hd) as [He Hr]. nia.
Qed.

(** Rounding gives a double. *)
Lemma round_units_representable (n d : Z) :
  0 <= n -> 0 < d -> representable (round_units n d).
Proof.
  intros Hn Hd. unfold round_units.
  pose proof (rounded_mantissa_bounds n d Hn Hd) as Hm.
  set (j := ulp_shift (n / d)) in *.
  set (m := round_half_even n (d * 2 ^ j)) in *.
  assert (Hj : 0 <= j) by apply ulp_shift_nonneg.
  assert (Hp : 0 < 2 ^ j) by now apply pow2_pos.
  split; [nia |].
  destruct (Z.eq_dec m 0) as [-> | Hne]; [apply Zmod_0_l |].
  assert (Hpos : 0 < m) by lia.
  unfold ulp_shift at 1.
  rewrite Z.log2_mul_pow2 by lia.
  destruct (Z.eq_dec m (2 ^ 53)) as [-> | Hlt].
  - rewrite Z.log2_pow2 by lia.
    replace (Z.max 0 (j + 53 - 52)) with (j + 1) by lia.
    replace (2 ^ 53 * 2 ^ j) with (2 ^ 52 * 2 ^ (j + 1))
      by (rewrite (Z.pow_add_r 2 j 1) by lia; change (2 ^ 53) with (2 ^ 52 * 2 ^ 1); ring).
    apply multiple_of_pow2. lia.
  - assert (Hl : Z.log2 m < 53) by (apply Z.log2_lt_pow2; lia).
    apply multiple_of_pow2. pose proof (Z.log2_nonneg m). lia.
Qed.

(** Rounding leaves a double as it is. *)
Lemma round_units_exact (k d : Z) :
  representable k -> 0 < d -> round_units (k * d) d = k.
Proof.
  intros [Hk Hmod] Hd. unfold round_units.
  rewrite Z.div_mul by lia.
  set (j := ulp_shift k) in *.
  assert (Hj : 0 <= j) by apply ulp_shift_nonneg.
  assert (Hp : 0 < 2 ^ j) by now apply pow2_pos.
  assert (Hk' : k = k / 2 ^ j * 2 ^ j).
  { pose proof (Z.div_mod k (2 ^ j)). lia. }
  replace (k * d) with (k / 2 ^ j * (d * 2 ^ j)) by (rewrite Hk' at 2; ring).
  rewrite round_half_even_exact by nia. lia.
Qed.

(** Rounding sees the quotient only. *)
Lemma round_units_scale (n d c : Z) :
  0 < d -> 0 < c -> round_units (n * c) (d * c) = round_units n d.
Proof.
  intros Hd Hc. unfold round_units.
  rewrite Z.div_mul_cancel_r by lia.
  set (j := ulp_shift (n / d)).
  assert (Hp : 0 < 2 ^ j) by (apply pow2_pos; apply ulp_shift_nonneg).
  replace (d * c * 2 ^ j) with (d * 2 ^ j * c) by ring.
  rewrite round_half_even_scale by nia. reflexivity.
Qed.

(** Rounding is monotone. *)
Lemma round_units_mono (n1 d1 n2 d2 : Z) :
  0 <= n1 -> 0 < d1 -> 0 < d2 -> n1 * d2 <= n2 * d1 ->
  round_units n1 d1 <= round_units n2 d2.
Proof.
  intros Hn1 Hd1 Hd2 Hle.
  assert (Hn2 : 0 <= n2) by nia.
  destruct (div_mod_bounds n1 d1 Hd1) as [He1 Hr1].
  destruct (div_mod_bounds n2 d2 Hd2) as [He2 Hr2].
  assert (Hq : n1 / d1 <= n2 / d2).
  { apply Z.div_le_lower_bound; [lia |].
    assert (d2 * (n1 / d1) * d1 < (n2 / d2 + 1) * d2 * d1) by nia. nia. }
  pose proof (ulp_shift_mono _ _ Hq) as Hj.
  pose proof (rounded_mantissa_bounds n1 d1 Hn1 Hd1) as Hm1.
  pose proof (rounded_mantissa_bounds n2 d2 Hn2 Hd2) as Hm2.
  unfold round_units.
  set (j1 := ulp_shift (n1 / d1)) in *. set (j2 := ulp_shift (n2 / d2)) in *.
  assert (Hj1 : 0 <= j1) by apply ulp_shift_nonneg.
  assert (Hp1 : 0 < 2 ^ j1) by now apply pow2_pos.
  assert (Hp2 : 0 < 2 ^ j2) by (apply pow2_pos; lia).
  destruct (Z.eq_dec j1 j2) as [Heq | Hne].
  - rewrite <- Heq in *.
    apply Z.mul_le_mono_nonneg_r; [lia |].
    apply round_half_even_mono; nia.
  - assert (Hlt : j1 + 1 <= j2) by lia.
    assert (Hge : 2 ^ 52 <= round_half_even n2 (d2 * 2 ^ j2)).
    { apply round_half_even_ge; [nia |].
      assert (Hpos2 : 0 < j2) by lia.
      pose proof (above_shifted_pow2 (n2 / d2) Hpos2) as Ha. fold j2 in Ha.
      rewrite Z.pow_add_r in Ha by lia. nia. }
    assert (Hpw : 2 ^ j2 = 2 ^ (j2 - (j1 + 1)) * (2 * 2 ^ j1)).
    { rewrite (pow2_split (j1 + 1) j2) by lia.
      rewrite (Z.pow_add_r 2 j1 1) by lia. change (2 ^ 1) with 2. ring. }
    assert (Hpp : 0 < 2 ^ (j2 - (j1 + 1))) by (apply pow2_pos; lia).
    change (2 ^ 53) with (2 * 2 ^ 52) in Hm1.
    set (m1 := round_half_even n1 (d1 * 2 ^ j1)) in *.
    set (m2 := round_half_even n2 (d2 * 2 ^ j2)) in *.
    rewrite Hpw.
    assert (m1 * 2 ^ j1 <= 2 ^ 52 * (2 * 2 ^ j1)) by nia.
    assert (2 ^ 52 * (2 * 2 ^ j1) <= m2 * (2 * 2 ^ j1)) by nia.
    assert (m2 * (2 * 2 ^ j1) <= m2 * (2 ^ (j2 - (j1 + 1)) * (2 * 2 ^ j1))) by nia.
    lia.
Qed.

Lemma round_units_zero (d : Z) : 0 < d -> round_units 0 d = 0.
Proof.
  intros Hd. change 0 with (0 * d) at 1. apply round_units_exact; [| exact Hd].
  split; [lia | apply Zmod_0_l].
Qed.

End FloatFacts.

(* ================================================================== *)
(** * Decimal numerals and doubles *)
(* ================================================================== *)

Module NumeralFacts.
Import Float FloatFacts Text.

Lemma float_eqb_eq (x y : float) : Float.eqb x y = true -> x = y.
Proof.
  destruct x as [s1 k1 | s1 |], y as [s2 k2 | s2 |]; simpl; try discriminate.
  - intros H. apply andb_true_iff in H. destruct H as [Hs Hk].
    apply Bool.eqb_prop in Hs. apply Z.eqb_eq in Hk. congruence.
  - intros H. apply Bool.eqb_prop in H. congruence.
  - reflexivity.
Qed.

Lemma of_ratio_wf (s : bool) (n d : Z) :
  0 <= n -> 0 < d -> wf (of_ratio s n d).
Proof.
  intros Hn Hd. unfold of_ratio.
  destruct (round_units n d <? huge) eqn:E; simpl; [| exact I].
  split; [now apply round_units_representable | now apply Z.ltb_lt].
Qed.

Lemma of_ratio_exact (s : bool) (k d : Z) :
  representable k -> k < huge -> 0 < d -> of_ratio s (k * d) d = Finite s k.
Proof.
  intros Hk Hh Hd. unfold of_ratio. rewrite round_units_exact by assumption.
  apply Z.ltb_lt in Hh. rewrite Hh. reflexivity.
Qed.

Lemma of_ratio_scale (s : bool) (n d c : Z) :
  0 < d -> 0 < c -> of_ratio s (n * c) (d * c) = of_ratio s n d.
Proof.
  intros Hd Hc. unfold of_ratio. rewrite round_units_scale by assumption.
  reflexivity.
Qed.

Lemma pow10_pos (e : Z) : 0 <= e -> 0 < 10 ^ e.
Proof. intros. apply Z.pow_pos_nonneg; lia. Qed.

Lemma of_decimal_wf (n e : Z) : 0 <= n -> wf (of_decimal n e).
Proof.
  intros Hn. unfold of_decimal.
  pose proof one_unit_pos.
  destruct (0 <=? e) eqn:E.
  - apply Z.leb_le in E. pose proof (pow10_pos e E).
    apply of_ratio_wf; nia.
  - apply Z.leb_gt in E. apply of_ratio_wf; [nia |]. apply pow10_pos. lia.
Qed.

(** Trailing zeros of the digits move into the exponent. *)
Lemma of_decimal_shift (n e z : Z) :
  0 <= z -> of_decimal (n * 10 ^ z) e = of_decimal n (e + z).
Proof.
  intros Hz. unfold of_decimal.
  pose proof one_unit_pos as Hu.
  pose proof (pow10_pos z Hz) as Hpz.
  destruct (0 <=? e) eqn:E1.
  - apply Z.leb_le in E1.
    assert (E2 : (0 <=? e + z) = true) by (apply Z.leb_le; lia).
    rewrite E2. rewrite (Z.pow_add_r 10 e z) by lia.
    f_equal. ring.
  - apply Z.leb_gt in E1.
    destruct (0 <=? e + z) eqn:E2.
    + apply Z.leb_le in E2.
      replace z with ((e + z) + (- e)) at 1 by lia.
      rewrite (Z.pow_add_r 10 (e + z) (- e)) by lia.
      pose proof (pow10_pos (- e) ltac:(lia)).
      replace (n * (10 ^ (e + z) * 10 ^ (- e)) * one_unit)
        with (n * 10 ^ (e + z) * one_unit * 10 ^ (- e)) by ring.
      replace (10 ^ (- e)) with (1 * 10 ^ (- e)) at 2 by ring.
      apply of_ratio_scale; lia.
    + apply Z.leb_gt in E2.
      replace (- e) with (- (e + z) + z) by lia.
      rewrite (Z.pow_add_r 10 (- (e + z)) z) by lia.
      pose proof (pow10_pos (- (e + z)) ltac:(lia)).
      replace (n * 10 ^ z * one_unit) with (n * one_unit * 10 ^ z) by ring.
      apply of_ratio_scale; lia.
Qed.

Lemma of_decimal_zero (e : Z) : of_decimal 0 e = Finite false 0.
Proof.
  unfold of_decimal, of_ratio. pose proof one_unit_pos.
  destruct (0 <=? e) eqn:E.
  - replace (0 * 10 ^ e * one_unit) with 0 by ring.
    rewrite round_units_zero by lia. reflexivity.
  - apply Z.leb_gt in E. replace (0 * one_unit) with 0 by ring.
    rewrite round_units_zero by (apply pow10_pos; lia). reflexivity.
Qed.

Lemma ten_pow_1074 : 10 ^ 1074 = 5 ^ 1074 * one_unit.
Proof. unfold one_unit. rewrite <- Z.pow_mul_l. reflexivity. Qed.

(** The exact decimal expansion of a double reads back as the double. *)
Lemma exact_expansion_round_trips (k : Z) :
  representable k -> k < huge ->
  of_decimal (k * 5 ^ 1074) (-1074) = Finite false k.
Proof.
  intros Hk Hh. unfold of_decimal.
  change (0 <=? -1074) with false. cbv iota.
  change (- -1074) with 1074.
  replace (k * 5 ^ 1074 * one_unit) with (k * 10 ^ 1074)
    by (rewrite ten_pow_1074; ring).
  apply of_ratio_exact; try assumption. apply pow10_pos. lia.
Qed.

Lemma shortest_step (fuel : nat) (k q : Z) :
  shortest (S fuel) k q =
    let (n, d) := on_grid k q in
    if round_trips k (n / d) q && round_trips k (n / d + 1) q then
      (if 2 * (n mod d) <? d then (n / d, q)
       else if d <? 2 * (n mod d) then (n / d + 1, q)
       else if Z.even (n / d) then (n / d, q) else (n / d + 1, q))
    else if round_trips k (n / d) q then (n / d, q)
    else if round_trips k (n / d + 1) q then (n / d + 1, q)
    else shortest fuel k (q - 1).
Proof. reflexivity. Qed.

(** Whatever the search returns reads back as the double. *)
Lemma shortest_round_trips (k : Z) :
  representable k -> k < huge ->
  forall fuel q, of_decimal (fst (shortest fuel k q)) (snd (shortest fuel k q))
                 = Finite false k.
Proof.
  intros Hk Hh. induction fuel as [| fuel IH]; intros q.
  - cbn [shortest fst snd]. now apply exact_expansion_round_trips.
  - rewrite shortest_step. destruct (on_grid k q) as [n d].
    destruct (round_trips k (n / d) q) eqn:Elo;
      destruct (round_trips k (n / d + 1) q) eqn:Ehi; cbn [andb fst snd].
    + destruct (2 * (n mod d) <? d); [apply float_eqb_eq; exact Elo |].
      destruct (d <? 2 * (n mod d)); [apply float_eqb_eq; exact Ehi |].
      destruct (Z.even (n / d)); apply float_eqb_eq; assumption.
    + apply float_eqb_eq; exact Elo.
    + apply float_eqb_eq; exact Ehi.
    + apply IH.
Qed.

Lemma on_grid_pos (k q : Z) :
  0 <= k -> 0 <= fst (on_grid k q) /\ 0 < snd (on_grid k q).
Proof.
  intros Hk. unfold on_grid. pose proof one_unit_pos.
  destruct (0 <=? q) eqn:E; cbn [fst snd].
  - apply Z.leb_le in E. pose proof (pow10_pos q E). split; [lia | nia].
  - apply Z.leb_gt in E. pose proof (pow10_pos (- q) ltac:(lia)).
    split; [nia | lia].
Qed.

(** The digits the search returns are those of a positive number. *)
Lemma shortest_positive (k : Z) :
  0 < k -> forall fuel q, 0 < fst (shortest fuel k q).
Proof.
  intros Hk. induction fuel as [| fuel IH]; intros q.
  - cbn [shortest fst]. assert (0 < 5 ^ 1074) by (apply Z.pow_pos_nonneg; lia). nia.
  - rewrite shortest_step. destruct (on_grid_pos k q ltac:(lia)) as [Hn Hd].
    destruct (on_grid k q) as [n d]. cbn [fst snd] in Hn, Hd.
    assert (Hq : 0 <= n / d) by (apply Z.div_pos; lia).
    assert (Hlo : round_trips k (n / d) q = true -> 0 < n / d).
    { intros H. destruct (Z.eq_dec (n / d) 0) as [E | E]; [| lia].
      rewrite E in H. unfold round_trips in H. rewrite of_decimal_zero in H.
      cbn [Float.eqb Bool.eqb andb] in H. apply Z.eqb_eq in H. lia. }
    destruct (round_trips k (n / d) q) eqn:Elo;
      destruct (round_trips k (n / d + 1) q) eqn:Ehi; cbn [andb fst].
    + specialize (Hlo eq_refl).
      destruct (2 * (n mod d) <? d); [exact Hlo |].
      destruct (d <? 2 * (n mod d)); [cbn [fst]; lia |].
      destruct (Z.even (n / d)); cbn [fst]; lia.
    + exact (Hlo eq_refl).
    + lia.
    + apply IH.
Qed.

(** [float(int(x))] gives back an integral [x]. *)
Lemma of_int_to_int (s : bool) (k : Z) :
  representable k -> k < huge -> k mod one_unit = 0 -> 0 < k ->
  of_int (to_int (Finite s k)) = Some (Finite s k).
Proof.
  intros Hk Hh Hint Hpos. pose proof one_unit_pos as Hu.
  assert (Hkd : k = k / one_unit * one_unit).
  { pose proof (Z.div_mod k one_unit). lia. }
  assert (Hq : 0 < k / one_unit) by nia.
  unfold of_int, to_int, signed.
  assert (Habs : Z.abs (if s then - (k / one_unit) else k / one_unit) * one_unit = k).
  { destruct s; [rewrite Z.abs_opp |]; rewrite Z.abs_eq by lia; lia. }
  assert (Hr : round_units k 1 = k).
  { rewrite <- (Z.mul_1_r k) at 1. apply round_units_exact; [assumption | lia]. }
  rewrite Habs, Hr.
  apply Z.ltb_lt in Hh. rewrite Hh. f_equal. f_equal.
  destruct s; [apply Z.ltb_lt | apply Z.ltb_ge]; lia.
Qed.

End NumeralFacts.

(* ================================================================== *)
(** * Digits *)
(* ================================================================== *)

Module TextFacts.
Import Float FloatFacts NumeralFacts Text.

Local Open Scope char_scope.
Local Open Scope Z_scope.

Definition all_digits (ds : list ascii) : Prop :=
  Forall (fun c => is_digit c = true) ds.

(** The ten digit characters. *)
Lemma digit_cases (c : ascii) :
  is_digit c = true ->
  In c ["0"; "1"; "2"; "3"; "4"; "5"; "6"; "7"; "8"; "9"].
Proof.
  destruct c as [[] [] [] [] [] [] [] []]; intros H;
    try discriminate H; simpl; tauto.
Qed.

Lemma digit_value_bounds (c : ascii) :
  is_digit c = true -> 0 <= digit_value c <= 9.
Proof.
  unfold is_digit, digit_value. intros H.
  apply andb_true_iff in H. destruct H as [H1 H2].
  apply N.leb_le in H1. apply N.leb_le in H2. lia.
Qed.

Lemma digits_value_from_app (acc : Z) (a b : list ascii) :
  digits_value_from acc (a ++ b) = digits_value_from (digits_value_from acc a) b.
Proof. unfold digits_value_from. apply fold_left_app. Qed.

Lemma digits_value_from_cons (acc : Z) (c : ascii) (ds : list ascii) :
  digits_value_from acc (c :: ds) = digits_value_from (10 * acc + digit_value c) ds.
Proof. reflexivity. Qed.

(** Horner's rule, from an accumulator. *)
Lemma digits_value_from_acc (acc : Z) (ds : list ascii) :
  digits_value_from acc ds =
    acc * 10 ^ Z.of_nat (List.length ds) + digits_value ds.
Proof.
  unfold digits_value. revert acc.
  induction ds as [| c ds IH]; intros acc.
  - cbn [List.length digits_value_from fold_left]. change (10 ^ Z.of_nat 0) with 1. lia.
  - rewrite !digits_value_from_cons. rewrite IH, (IH (10 * 0 + digit_value c)).
    cbn [List.length]. rewrite Nat2Z.inj_succ, Z.pow_succ_r by lia. ring.
Qed.

Lemma digits_value_app (a b : list ascii) :
  digits_value (a ++ b) =
    digits_value a * 10 ^ Z.of_nat (List.length b) + digits_value b.
Proof.
  unfold digits_value at 1. rewrite digits_value_from_app.
  apply digits_value_from_acc.
Qed.

Lemma digits_value_nonneg (ds : list ascii) :
  all_digits ds -> 0 <= digits_value ds.
Proof.
  intros H. unfold digits_value.
  assert (G : forall acc, 0 <= acc -> 0 <= digits_value_from acc ds).
  { induction H as [| c ds Hc _ IH]; intros acc Hacc.
    - exact Hacc.
    - rewrite digits_value_from_cons. apply IH.
      pose proof (digit_value_bounds c Hc). lia. }
  apply G. lia.
Qed.

Lemma zeros_all_digits (n : nat) : all_digits (repeat "0" n).
Proof. induction n; constructor; [reflexivity | assumption]. Qed.

Lemma zeros_value (n : nat) : digits_value (repeat "0" n) = 0.
Proof.
  induction n as [| n IH]; [reflexivity |].
  cbn [repeat]. unfold digits_value in *. rewrite digits_value_from_cons.
  exact IH.
Qed.

Lemma leading_zeros_value (n : nat) (ds : list ascii) :
  digits_value (repeat "0" n ++ ds) = digits_value ds.
Proof. rewrite digits_value_app, zeros_value. lia. Qed.

Lemma trailing_zeros_value (n : nat) (ds : list ascii) :
  digits_value (ds ++ repeat "0" n) = digits_value ds * 10 ^ Z.of_nat n.
Proof. rewrite digits_value_app, zeros_value, repeat_length. lia. Qed.

(** ** The digits of a number *)

Lemma uint_chars_all_digits (u : Decimal.uint) : all_digits (uint_chars u).
Proof. induction u; constructor; try reflexivity; assumption. Qed.

Lemma of_uint_acc_value (u : Decimal.uint) (acc : positive) :
  Z.pos (Pos.of_uint_acc u acc) = digits_value_from (Z.pos acc) (uint_chars u).
Proof.
  revert acc. induction u; intros acc; cbn [Pos.of_uint_acc uint_chars];
    [reflexivity | ..];
    rewrite digits_value_from_cons, IHu; f_equal;
    rewrite ?Pos2Z.inj_add, ?Pos2Z.inj_mul;
    match goal with
    | |- context [digit_value ?c] =>
        let v := eval vm_compute in (digit_value c) in
        change (digit_value c) with v
    end; lia.
Qed.

Lemma of_uint_value (u : Decimal.uint) :
  Z.of_N (Pos.of_uint u) = digits_value (uint_chars u).
Proof.
  unfold digits_value.
  induction u; cbn [Pos.of_uint uint_chars]; [reflexivity | ..];
    rewrite digits_value_from_cons;
    [exact IHu | ..];
    cbn [Z.of_N]; rewrite of_uint_acc_value; reflexivity.
Qed.

Lemma digits_of_all_digits (n : Z) : all_digits (digits_of n).
Proof. apply uint_chars_all_digits. Qed.

Lemma digits_of_value (n : Z) : 0 <= n -> digits_value (digits_of n) = n.
Proof.
  intros Hn. unfold digits_of. rewrite <- of_uint_value.
  change (Pos.of_uint (N.to_uint (Z.to_N n))) with (N.of_uint (N.to_uint (Z.to_N n))).
  rewrite DecimalN.Unsigned.of_to. lia.
Qed.

Lemma digits_of_nonempty (n : Z) : digits_of n <> [].
Proof.
  unfold digits_of. destruct (Z.to_N n) as [| p]; [discriminate |].
  cbn [N.to_uint]. pose proof (DecimalPos.Unsigned.to_uint_nonnil p) as H.
  destruct (Pos.to_uint p); [contradiction | ..]; discriminate.
Qed.

(** A positive number has no leading zero. *)
Lemma digits_of_head (n : Z) :
  0 < n -> exists c rest, digits_of n = c :: rest /\ c <> "0".
Proof.
  intros Hn. unfold digits_of.
  destruct (Z.to_N n) as [| p] eqn:E; [lia |].
  pose proof (DecimalN.Unsigned.to_of (N.to_uint (N.pos p))) as H.
  rewrite DecimalN.Unsigned.of_to in H.
  pose proof (DecimalPos.Unsigned.to_uint_nonzero p) as Hz.
  cbn [N.to_uint] in *.
  destruct (Pos.to_uint p) as [| u | u | u | u | u | u | u | u | u | u];
    cbn [uint_chars]; try (eexists; eexists; split; [reflexivity | discriminate]).
  - discriminate H.
  - exfalso. unfold Decimal.unorm in H. cbn [Decimal.nzhead] in H.
    destruct (Decimal.nzhead u) eqn:Eu; try discriminate H.
    + apply Hz. exact H.
    + pose proof (DecimalFacts.nzhead_nonzero u u0) as Hnz. congruence.
Qed.

End TextFacts.

(* ================================================================== *)
(** * The digits of a float *)
(* ================================================================== *)

Module ReprFacts.
Import Float FloatFacts NumeralFacts Text TextFacts.

Local Open Scope char_scope.
Local Open Scope Z_scope.

Lemma drop_zeros_split (l : list ascii) :
  exists z, l = repeat "0" z ++ drop_zeros l.
Proof.
  induction l as [| c l [z IH]]; [exists 0%nat; reflexivity |].
  destruct (ascii_dec c "0") as [-> | Hne].
  - exists (S z). cbn [drop_zeros repeat app]. now f_equal.
  - exists 0%nat. cbn [repeat app].
    destruct c as [[] [] [] [] [] [] [] []]; try reflexivity.
    now contradiction Hne.
Qed.

Lemma repeat_rev {A} (a : A) (n : nat) : rev (repeat a n) = repeat a n.
Proof.
  induction n as [| n IH]; [reflexivity |].
  cbn [repeat rev]. rewrite IH. symmetry. apply repeat_cons.
Qed.

(** Stripping removes a run of zeros at the end and nothing else. *)
Lemma strip_split (ds : list ascii) :
  exists z, ds = strip_trailing_zeros ds ++ repeat "0" z.
Proof.
  unfold strip_trailing_zeros.
  destruct (drop_zeros_split (rev ds)) as [z Hz]. exists z.
  rewrite <- (rev_involutive ds) at 1. rewrite Hz at 1.
  rewrite rev_app_distr, repeat_rev. reflexivity.
Qed.

Lemma strip_all_digits (ds : list ascii) :
  all_digits ds -> all_digits (strip_trailing_zeros ds).
Proof.
  intros H. destruct (strip_split ds) as [z Hz]. rewrite Hz in H.
  unfold all_digits in *. apply Forall_app in H. tauto.
Qed.

(** What [repr_digits] returns: digits, at least one, which read with the
    decimal point at [decpt] give back the double. *)
Lemma repr_digits_spec (k : Z) :
  representable k -> 0 < k -> k < huge ->
  all_digits (fst (repr_digits k)) /\
  fst (repr_digits k) <> [] /\
  of_decimal (digits_value (fst (repr_digits k)))
    (snd (repr_digits k) - Z.of_nat (List.length (fst (repr_digits k))))
  = Finite false k.
Proof.
  intros Hk Hpos Hh. unfold repr_digits, shortest_decimal.
  set (fuel := Z.to_nat (upper_exp k + 1074)). set (q0 := upper_exp k).
  pose proof (shortest_round_trips k Hk Hh fuel q0) as Hrt.
  pose proof (shortest_positive k Hpos fuel q0) as Hd.
  destruct (shortest fuel k q0) as [d q]. cbn [fst snd] in *.
  destruct (strip_split (digits_of d)) as [z Hz].
  set (ds := strip_trailing_zeros (digits_of d)) in *.
  assert (Hval : d = digits_value ds * 10 ^ Z.of_nat z).
  { rewrite <- (digits_of_value d) at 1 by lia. rewrite Hz.
    apply trailing_zeros_value. }
  assert (Hlen : Z.of_nat (List.length (digits_of d))
                 = Z.of_nat (List.length ds) + Z.of_nat z).
  { rewrite Hz at 1. rewrite length_app, repeat_length. lia. }
  split; [apply strip_all_digits, digits_of_all_digits |].
  split.
  - intros Hnil. rewrite Hnil in Hval. change (digits_value []) with 0 in Hval. lia.
  - rewrite Hlen.
    replace (Z.of_nat (List.length ds) + Z.of_nat z + q - Z.of_nat (List.length ds))
      with (q + Z.of_nat z) by lia.
    rewrite <- of_decimal_shift by lia. rewrite <- Hval. exact Hrt.
Qed.

End ReprFacts.

(* ================================================================== *)
(** * Number literals *)
(* ================================================================== *)

Module LexFacts.
Import Float FloatFacts NumeralFacts Text TextFacts ReprFacts Ast Grammar.

Local Open Scope char_scope.
Local Open Scope Z_scope.

Lemma span_digits_app (ds rest : list ascii) :
  all_digits ds -> starts_with_digit rest = false ->
  span_digits (ds ++ rest) = (ds, rest).
Proof.
  intros Hds Hrest. induction Hds as [| c ds Hc _ IH].
  - destruct rest as [| c rest]; [reflexivity |].
    cbn [app span_digits]. cbn [starts_with_digit] in Hrest.
    rewrite Hrest. reflexivity.
  - cbn [app span_digits]. rewrite Hc, IH. reflexivity.
Qed.

Lemma span_digits_all (ds : list ascii) :
  all_digits ds -> span_digits ds = (ds, []).
Proof.
  intros H. rewrite <- (app_nil_r ds) at 1. now apply span_digits_app.
Qed.

Lemma starts_with_digit_app (ds rest : list ascii) :
  all_digits ds -> ds <> [] -> starts_with_digit (ds ++ rest) = true.
Proof.
  intros H Hne. destruct H as [| c ds Hc _]; [contradiction |]. exact Hc.
Qed.

(** The digits of the exponent, padded to two. *)
Lemma exponent_digits (e : Z) :
  exists ds, all_digits ds /\ ds <> [] /\ digits_value ds = Z.abs e /\
    exponent_text e = (if e <? 0 then "-" else "+") :: ds.
Proof.
  unfold exponent_text.
  pose proof (digits_of_all_digits (Z.abs e)) as Hall.
  pose proof (digits_of_nonempty (Z.abs e)) as Hne.
  pose proof (digits_of_value (Z.abs e) (Z.abs_nonneg e)) as Hval.
  destruct (Z.of_nat (List.length (digits_of (Z.abs e))) <? 2).
  - exists ("0" :: digits_of (Z.abs e)). repeat split.
    + constructor; [reflexivity | exact Hall].
    + discriminate.
    + change ("0" :: digits_of (Z.abs e)) with (repeat "0" 1 ++ digits_of (Z.abs e)).
      rewrite leading_zeros_value. exact Hval.
  - exists (digits_of (Z.abs e)). repeat split; assumption.
Qed.

(** The tokenizer reads the exponent [repr] writes. *)
Lemma lex_exponent_text (e : Z) :
  lex_exponent ("e" :: exponent_text e) = Some (Some e, []).
Proof.
  destruct (exponent_digits e) as [ds [Hall [Hne [Hval Htext]]]].
  rewrite Htext.
  pose proof (starts_with_digit_app ds [] Hall Hne) as Hs.
  rewrite app_nil_r in Hs.
  destruct (e <? 0) eqn:E; cbn [lex_exponent]; rewrite Hs, (span_digits_all ds Hall), Hval.
  - apply Z.ltb_lt in E. do 3 f_equal. lia.
  - apply Z.ltb_ge in E. do 3 f_equal. lia.
Qed.

Lemma lex_number_point (ip fp r3 : list ascii) :
  all_digits ip -> all_digits fp -> starts_with_digit r3 = false ->
  lex_number (ip ++ "." :: fp ++ r3) =
    match lex_exponent r3 with
    | Some (e, r4) =>
        if starts_with_name_char r4 then None
        else
          Some (CFloat (Float.of_decimal (digits_value (ip ++ fp))
                  ((match e with Some x => x | None => 0 end)
                   - Z.of_nat (List.length fp))), r4)
    | None => None
    end.
Proof.
  intros Hip Hfp Hr3. unfold lex_number.
  rewrite (span_digits_app ip ("." :: fp ++ r3) Hip eq_refl).
  cbv beta iota. rewrite (span_digits_app fp r3 Hfp Hr3).
  destruct (lex_exponent r3) as [[e r4] |]; reflexivity.
Qed.

Lemma lex_number_fixed (ip fp : list ascii) :
  all_digits ip -> all_digits fp ->
  lex_number (ip ++ "." :: fp) =
    Some (CFloat (Float.of_decimal (digits_value (ip ++ fp))
                    (0 - Z.of_nat (List.length fp))), []).
Proof.
  intros Hip Hfp. rewrite <- (app_nil_r fp) at 1.
  rewrite (lex_number_point ip fp [] Hip Hfp eq_refl). reflexivity.
Qed.

Lemma lex_number_exponent (ip : list ascii) (x : Z) :
  all_digits ip ->
  lex_number (ip ++ "e" :: exponent_text x) =
    Some (CFloat (Float.of_decimal (digits_value ip) x), []).
Proof.
  intros Hip. unfold lex_number.
  rewrite (span_digits_app ip ("e" :: exponent_text x) Hip eq_refl).
  cbv beta iota. rewrite lex_exponent_text. reflexivity.
Qed.

Lemma lex_number_integer (ip : list ascii) :
  all_digits ip -> ip <> [] ->
  lex_number ip =
    if valid_decinteger ip then Some (CInt (digits_value ip), []) else None.
Proof.
  intros Hip Hne. unfold lex_number. rewrite (span_digits_all ip Hip).
  reflexivity.
Qed.


Lemma all_digits_cons (c : ascii) (ds : list ascii) :
  all_digits (c :: ds) -> is_digit c = true /\ all_digits ds.
Proof. intros H. inversion H. tauto. Qed.

Lemma all_digits_app (a b : list ascii) :
  all_digits a -> all_digits b -> all_digits (a ++ b).
Proof. intros Ha Hb. apply Forall_app. tauto. Qed.

Lemma all_digits_firstn (n : nat) (ds : list ascii) :
  all_digits ds -> all_digits (firstn n ds).
Proof.
  intros H. rewrite <- (firstn_skipn n ds) in H. apply Forall_app in H. tauto.
Qed.

Lemma all_digits_skipn (n : nat) (ds : list ascii) :
  all_digits ds -> all_digits (skipn n ds).
Proof.
  intros H. rewrite <- (firstn_skipn n ds) in H. apply Forall_app in H. tauto.
Qed.

Ltac same_exponent :=
  match goal with
  | |- Some (CFloat (of_decimal _ ?e1), _) = Some (CFloat (of_decimal _ ?e2), _) =>
      replace e1 with e2 by lia; reflexivity
  end.

(** The tokenizer reads every layout of [repr] as the float literal with
    the same digits and the same decimal point. *)
Lemma lex_number_layout (ds : list ascii) (decpt : Z) :
  all_digits ds -> ds <> [] ->
  lex_number (layout ds decpt) =
    Some (CFloat (Float.of_decimal (digits_value ds)
                    (decpt - Z.of_nat (List.length ds))), []).
Proof.
  intros Hall Hne. unfold layout.
  destruct ((decpt <=? -4) || (16 <? decpt)) eqn:Eexp.
  - destruct ds as [| d rest]; [contradiction |].
    destruct (all_digits_cons _ _ Hall) as [Hd Hrest].
    assert (H1 : all_digits [d]) by (constructor; [exact Hd | constructor]).
    destruct rest as [| c rest].
    + change (lex_number ([d] ++ "e" :: exponent_text (decpt - 1)) =
              Some (CFloat (of_decimal (digits_value [d]) (decpt - 1)), [])).
      now apply lex_number_exponent.
    + change (lex_number ([d] ++ "." :: (c :: rest) ++ "e" :: exponent_text (decpt - 1)) =
              Some (CFloat (of_decimal (digits_value ([d] ++ c :: rest))
                              (decpt - Z.of_nat (S (List.length (c :: rest))))), [])).
      rewrite (lex_number_point [d] (c :: rest)
                 ("e" :: exponent_text (decpt - 1)) H1 Hrest eq_refl).
      rewrite lex_exponent_text. cbn [starts_with_name_char].
      same_exponent.
  - destruct (decpt <=? 0) eqn:E0.
    + apply Z.leb_le in E0. unfold zeros.
      set (z := Z.to_nat (- decpt)).
      change ("0" :: "." :: repeat "0" z ++ ds)
        with (["0"] ++ "." :: (repeat "0" z ++ ds)).
      rewrite (lex_number_fixed ["0"] (repeat "0" z ++ ds));
        [| constructor; [reflexivity | constructor]
         | apply all_digits_app; [apply zeros_all_digits | exact Hall]].
      change (["0"] ++ repeat "0" z ++ ds) with (repeat "0" (S z) ++ ds).
      rewrite leading_zeros_value, length_app, repeat_length.
      subst z. same_exponent.
    + apply Z.leb_gt in E0.
      destruct (decpt <? Z.of_nat (List.length ds)) eqn:E1.
      * apply Z.ltb_lt in E1. set (m := Z.to_nat decpt).
        rewrite (lex_number_fixed (firstn m ds) (skipn m ds));
          [| now apply all_digits_firstn | now apply all_digits_skipn].
        rewrite firstn_skipn, length_skipn.
        subst m. same_exponent.
      * apply Z.ltb_ge in E1. unfold zeros.
        set (z := Z.to_nat (decpt - Z.of_nat (List.length ds))).
        change (ds ++ repeat "0" z ++ ["."; "0"])
          with (ds ++ repeat "0" z ++ "." :: ["0"]).
        rewrite app_assoc.
        rewrite (lex_number_fixed (ds ++ repeat "0" z) ["0"]);
          [| apply all_digits_app; [exact Hall | apply zeros_all_digits]
           | constructor; [reflexivity | constructor]].
        cbn [List.length].
        rewrite <- app_assoc.
        change (repeat "0" z ++ ["0"]) with (repeat "0" z ++ repeat "0" 1).
        rewrite <- repeat_app, trailing_zeros_value.
        rewrite of_decimal_shift by lia.
        subst z. same_exponent.
Qed.

(** [str] of a positive double reads back, as a float literal, as that
    double. *)
Lemma lex_number_str_float (k : Z) :
  representable k -> 0 < k -> k < huge ->
  lex_number (str_float (Finite false k)) = Some (CFloat (Finite false k), []).
Proof.
  intros Hk Hpos Hh. unfold str_float.
  assert (E : (k =? 0) = false) by (apply Z.eqb_neq; lia).
  rewrite E. cbn [app].
  destruct (repr_digits_spec k Hk Hpos Hh) as [Hall [Hne Hval]].
  destruct (repr_digits k) as [ds decpt]. cbn [fst snd] in *.
  rewrite (lex_number_layout ds decpt Hall Hne), Hval. reflexivity.
Qed.

End LexFacts.

(* ================================================================== *)
(** * Reading back what was formatted *)
(* ================================================================== *)

Module ReadBack.
Import Float FloatFacts NumeralFacts Text TextFacts ReprFacts Ast Grammar
  LexFacts Calculator EvalFacts.

Local Open Scope char_scope.
Local Open Scope Z_scope.

Lemma lex_step_digit (c : ascii) (r : list ascii) :
  is_digit c = true ->
  lex_step (c :: r) =
    match lex_number (c :: r) with
    | Some (v, r') => Token (NUMBER v) r'
    | None => BadToken
    end.
Proof.
  intros H. apply digit_cases in H. cbn [In] in H.
  repeat (destruct H as [<- | H]; [reflexivity |]). contradiction.
Qed.

(** A text that is one number literal is one [NUMBER] token. *)
Lemma tokenize_number (c : ascii) (r : list ascii) (v : constant) :
  is_digit c = true ->
  lex_number (c :: r) = Some (v, []) ->
  tokenize (c :: r) = Some [NUMBER v].
Proof.
  intros Hc Hlex.
  assert (Ht : tokenize (c :: r) = lex_all (S (List.length (c :: r))) (c :: r)).
  { apply digit_cases in Hc. cbn [In] in Hc.
    repeat (destruct Hc as [<- | Hc]; [reflexivity |]). contradiction. }
  rewrite Ht. cbn [List.length lex_all].
  rewrite (lex_step_digit c r Hc), Hlex. reflexivity.
Qed.

(** The same after a minus sign. *)
Lemma tokenize_minus_number (c : ascii) (r : list ascii) (v : constant) :
  is_digit c = true ->
  lex_number (c :: r) = Some (v, []) ->
  tokenize ("-" :: c :: r) = Some [MINUS; NUMBER v].
Proof.
  intros Hc Hlex. unfold tokenize. cbn [List.length lex_all].
  change (lex_step ("-" :: c :: r)) with (Token MINUS (c :: r)). cbv iota.
  rewrite (lex_step_digit c r Hc), Hlex. reflexivity.
Qed.

Lemma parse_eval_number (cs : list ascii) (v : constant) :
  tokenize cs = Some [NUMBER v] ->
  parse_eval (string_of_list_ascii cs) = Some (Expression (Constant v)).
Proof.
  intros H. unfold parse_eval.
  rewrite list_ascii_of_string_of_list_ascii, H. reflexivity.
Qed.

Lemma parse_eval_minus_number (cs : list ascii) (v : constant) :
  tokenize cs = Some [MINUS; NUMBER v] ->
  parse_eval (string_of_list_ascii cs) =
    Some (Expression (UnaryOp USub (Constant v))).
Proof.
  intros H. unfold parse_eval.
  rewrite list_ascii_of_string_of_list_ascii, H. reflexivity.
Qed.

(** Every layout starts with a digit. *)
Lemma layout_head (ds : list ascii) (decpt : Z) :
  all_digits ds -> ds <> [] ->
  exists c r, layout ds decpt = c :: r /\ is_digit c = true.
Proof.
  intros Hall Hne. destruct ds as [| d rest]; [contradiction |].
  destruct (all_digits_cons _ _ Hall) as [Hd _].
  unfold layout. destruct ((decpt <=? -4) || (16 <? decpt)).
  - eexists; eexists; split; [reflexivity | exact Hd].
  - destruct (decpt <=? 0) eqn:E0.
    + eexists; eexists; split; [reflexivity | reflexivity].
    + apply Z.leb_gt in E0.
      destruct (decpt <? Z.of_nat (List.length (d :: rest))).
      * destruct (Z.to_nat decpt) as [| m] eqn:Em; [lia |].
        cbn [firstn app]. eexists; eexists; split; [reflexivity | exact Hd].
      * cbn [app]. eexists; eexists; split; [reflexivity | exact Hd].
Qed.


Lemma str_float_head (k : Z) :
  representable k -> 0 < k -> k < huge ->
  exists c r, str_float (Finite false k) = c :: r /\ is_digit c = true.
Proof.
  intros Hk Hpos Hh. unfold str_float.
  assert (E : (k =? 0) = false) by (apply Z.eqb_neq; lia).
  rewrite E. cbn [app].
  destruct (repr_digits_spec k Hk Hpos Hh) as [Hall [Hne _]].
  destruct (repr_digits k) as [ds decpt]. cbn [fst snd] in *.
  now apply layout_head.
Qed.

Lemma str_float_negative (k : Z) :
  str_float (Finite true k) = "-" :: str_float (Finite false k).
Proof. reflexivity. Qed.

Lemma valid_decinteger_head (c : ascii) (rest : list ascii) :
  c <> "0" -> valid_decinteger (c :: rest) = true.
Proof.
  intros H. destruct c as [[] [] [] [] [] [] [] []]; try reflexivity.
  now contradiction H.
Qed.

(** The digits of a positive integer are one [NUMBER] token. *)
Lemma tokenize_digits_of (n : Z) :
  0 < n -> tokenize (digits_of n) = Some [NUMBER (CInt n)].
Proof.
  intros Hn.
  destruct (digits_of_head n Hn) as [c [rest [Hd Hc]]].
  pose proof (digits_of_all_digits n) as Hall.
  pose proof (digits_of_value n ltac:(lia)) as Hval.
  pose proof (lex_number_integer (digits_of n) Hall (digits_of_nonempty n)) as Hlex.
  rewrite Hd in *. rewrite (valid_decinteger_head c rest Hc), Hval in Hlex.
  destruct (all_digits_cons _ _ Hall) as [Hdc _].
  now apply tokenize_number.
Qed.

Lemma tokenize_minus_digits_of (n : Z) :
  0 < n -> tokenize ("-" :: digits_of n) = Some [MINUS; NUMBER (CInt n)].
Proof.
  intros Hn.
  destruct (digits_of_head n Hn) as [c [rest [Hd Hc]]].
  pose proof (digits_of_all_digits n) as Hall.
  pose proof (digits_of_value n ltac:(lia)) as Hval.
  pose proof (lex_number_integer (digits_of n) Hall (digits_of_nonempty n)) as Hlex.
  rewrite Hd in *. rewrite (valid_decinteger_head c rest Hc), Hval in Hlex.
  destruct (all_digits_cons _ _ Hall) as [Hdc _].
  now apply tokenize_minus_number.
Qed.

Lemma evaluate_number (cs : list ascii) (v : constant) (x : float) (w : window) :
  tokenize cs = Some [NUMBER v] ->
  float_of v w = (Returned x, w) -> is_int_or_float v = true ->
  _safe_evaluate (string_of_list_ascii cs) w = (Returned x, w).
Proof.
  intros Ht Hv Hn.
  rewrite (safe_evaluate_parsed _ _ _ (parse_eval_number cs v Ht)).
  cbn [_eval]. rewrite Hn. exact Hv.
Qed.

Lemma evaluate_minus_number (cs : list ascii) (v : constant) (x : float)
  (w : window) :
  tokenize cs = Some [MINUS; NUMBER v] ->
  float_of v w = (Returned x, w) -> is_int_or_float v = true ->
  _safe_evaluate (string_of_list_ascii cs) w = (Returned (Float.neg x), w).
Proof.
  intros Ht Hv Hn.
  rewrite (safe_evaluate_parsed _ _ _ (parse_eval_minus_number cs v Ht)).
  apply (eval_unary USub). cbn [_eval]. rewrite Hn. exact Hv.
Qed.

Lemma float_of_int_exact (n : Z) (x : float) (w : window) :
  Float.of_int n = Some x -> float_of (CInt n) w = (Returned x, w).
Proof. intros H. cbn [float_of]. rewrite H. reflexivity. Qed.

(** Evaluating the text [_format_number] gives for a finite double gives
    the double back; the one exception is negative zero, shown as ["0"]. *)
Lemma format_reads_back (v : float) (w : window) :
  Float.wf v -> Float.is_finite v = true -> v <> Finite true 0 ->
  _safe_evaluate (_format_number v) w = (Returned v, w).
Proof.
  intros Hwf Hfin Hnz. destruct v as [s k | |]; try discriminate Hfin.
  destruct Hwf as [Hk Hh]. pose proof one_unit_pos as Hu.
  assert (Hk0 : 0 <= k) by apply Hk.
  unfold _format_number. destruct (is_integer (Finite s k)) eqn:Hint.
  - cbn [is_integer] in Hint. apply Z.eqb_eq in Hint.
    destruct (Z.eq_dec k 0) as [-> | Hne].
    + destruct s; [congruence |].
      cbn [to_int signed]. rewrite Z.div_0_l by lia.
      apply (evaluate_number ["0"] (CInt 0) (Finite false 0));
        [reflexivity | | reflexivity].
      apply float_of_int_exact. unfold of_int.
      change (Z.abs 0 * one_unit) with 0. rewrite round_units_zero by lia.
      reflexivity.
    + assert (Hpos : 0 < k) by lia.
      assert (Hq : 0 < k / one_unit).
      { pose proof (Z.div_mod k one_unit). nia. }
      pose proof (of_int_to_int false k Hk Hh Hint Hpos) as Hback.
      cbn [to_int signed] in Hback.
      destruct s; cbn [to_int signed]; unfold str_int.
      * assert (E : (- (k / one_unit) <? 0) = true) by (apply Z.ltb_lt; lia).
        rewrite E, Z.opp_involutive.
        apply (evaluate_minus_number _ (CInt (k / one_unit)) (Finite false k));
          [now apply tokenize_minus_digits_of
          | now apply float_of_int_exact | reflexivity].
      * assert (E : (k / one_unit <? 0) = false) by (apply Z.ltb_ge; lia).
        rewrite E.
        apply (evaluate_number _ (CInt (k / one_unit)) (Finite false k));
          [now apply tokenize_digits_of
          | now apply float_of_int_exact | reflexivity].
  - cbn [is_integer] in Hint. apply Z.eqb_neq in Hint.
    assert (Hpos : 0 < k).
    { destruct (Z.eq_dec k 0) as [-> | ]; [| lia].
      rewrite Zmod_0_l in Hint. congruence. }
    destruct (str_float_head k Hk Hpos Hh) as [c [r [Hhead Hc]]].
    pose proof (lex_number_str_float k Hk Hpos Hh) as Hlex.
    destruct s.
    + rewrite str_float_negative.
      apply (evaluate_minus_number _ (CFloat (Finite false k)) (Finite false k));
        [| reflexivity | reflexivity].
      rewrite Hhead in *. now apply tokenize_minus_number.
    + apply (evaluate_number _ (CFloat (Finite false k)) (Finite false k));
        [| reflexivity | reflexivity].
      rewrite Hhead in *. now apply tokenize_number.
Qed.

End ReadBack.

(* ================================================================== *)
(** * Doubles all the way *)
(* ================================================================== *)

Module Doubles.
Import Float FloatFacts NumeralFacts Text TextFacts ReprFacts Ast Grammar
  LexFacts Calculator EvalFacts.

Local Open Scope char_scope.
Local Open Scope Z_scope.

(** Every float the program computes with is a double: a finite one has a
    representable magnitude below the overflow threshold. *)
Definition constant_wf (c : constant) : Prop :=
  match c with
  | CFloat x => Float.wf x
  | _ => True
  end.

Fixpoint node_wf (t : node) : Prop :=
  match t with
  | Expression body => node_wf body
  | Constant value => constant_wf value
  | UnaryOp _ operand => node_wf operand
  | BinOp lhs _ rhs => node_wf lhs /\ node_wf rhs
  | _ => True
  end.

Definition token_wf (t : token) : Prop :=
  match t with
  | NUMBER c => constant_wf c
  | _ => True
  end.

Lemma wf_zero (s : bool) : Float.wf (Finite s 0).
Proof.
  split; [split; [lia | apply Zmod_0_l] |].
  unfold huge. apply Z.pow_pos_nonneg; lia.
Qed.

Lemma wf_neg (x : float) : Float.wf x -> Float.wf (Float.neg x).
Proof. destruct x; simpl; tauto. Qed.

Lemma wf_add (x y : float) : Float.wf x -> Float.wf y -> Float.wf (Float.add x y).
Proof.
  destruct x as [s1 k1 | s1 |], y as [s2 k2 | s2 |]; intros Hx Hy;
    cbn [Float.add]; try exact I.
  - destruct (signed s1 k1 + signed s2 k2 =? 0); [apply wf_zero |].
    apply of_ratio_wf; lia.
  - destruct (Bool.eqb s1 s2); exact I.
Qed.

Lemma wf_sub (x y : float) : Float.wf x -> Float.wf y -> Float.wf (Float.sub x y).
Proof. intros Hx Hy. apply wf_add; [exact Hx | now apply wf_neg]. Qed.

Lemma wf_mul (x y : float) : Float.wf x -> Float.wf y -> Float.wf (Float.mul x y).
Proof.
  destruct x as [s1 k1 | s1 |], y as [s2 k2 | s2 |]; intros Hx Hy;
    cbn [Float.mul]; try exact I.
  - destruct Hx as [[Hx _] _], Hy as [[Hy _] _].
    apply of_ratio_wf; [nia | apply one_unit_pos].
  - destruct (k1 =? 0); exact I.
  - destruct (k2 =? 0); exact I.
Qed.

Lemma wf_div (x y : float) : Float.wf x -> Float.wf y -> Float.wf (Float.div x y).
Proof.
  destruct x as [s1 k1 | s1 |], y as [s2 k2 | s2 |]; intros Hx Hy;
    cbn [Float.div]; try exact I.
  - destruct Hx as [[Hx _] _], Hy as [[Hy _] _]. pose proof one_unit_pos.
    destruct (k2 =? 0) eqn:E; [destruct (k1 =? 0); exact I |].
    apply Z.eqb_neq in E. apply of_ratio_wf; nia.
  - apply wf_zero.
Qed.

Lemma wf_of_int (n : Z) (x : float) : Float.of_int n = Some x -> Float.wf x.
Proof.
  unfold of_int. pose proof one_unit_pos as Hu.
  destruct (round_units (Z.abs n * one_unit) 1 <? huge) eqn:E; [| discriminate].
  intros H. injection H as <-. split; [| now apply Z.ltb_lt].
  apply round_units_representable; nia.
Qed.

Lemma wf_of_small_bool (b : bool) : Float.wf (Float.of_small (if b then 1 else 0)).
Proof.
  destruct b; [| apply wf_zero].
  split; [split |]; vm_compute; congruence.
Qed.

(** [_eval] returns doubles on trees whose constants are doubles. *)
Lemma eval_wf (t : node) (w w' : window) (v : float) :
  node_wf t -> _eval t w = (Returned v, w') -> Float.wf v.
Proof.
  revert v w w'. induction t; intros v w w' Hwf Hev; cbn [_eval] in Hev;
    try discriminate Hev.
  - now apply (IHt v w w').
  - destruct value; cbn in Hev; try discriminate Hev.
    + destruct (Float.of_int n) eqn:E; [| discriminate Hev].
      injection Hev as <- _. now apply (wf_of_int n).
    + injection Hev as <- _. exact Hwf.
    + injection Hev as <- _. apply wf_of_small_bool.
  - destruct (is_sign op) eqn:Hop; [| discriminate Hev].
    unfold bind in Hev.
    destruct (_eval t w) as [[x | e] w1] eqn:Et; [| discriminate Hev].
    specialize (IHt x w w1 Hwf Et).
    destruct op; try discriminate Hop; cbn in Hev; injection Hev as <- _.
    + exact IHt.
    + now apply wf_neg.
  - destruct Hwf as [Hl Hr].
    destruct (is_arith op) eqn:Hop; [| discriminate Hev].
    unfold bind in Hev.
    destruct (_eval t1 w) as [[x | e] w1] eqn:E1; [| discriminate Hev].
    destruct (_eval t2 w1) as [[y | e] w2] eqn:E2; [| discriminate Hev].
    specialize (IHt1 x w w1 Hl E1). specialize (IHt2 y w1 w2 Hr E2).
    destruct op; try discriminate Hop; cbn in Hev.
    + injection Hev as <- _. now apply wf_add.
    + injection Hev as <- _. now apply wf_sub.
    + injection Hev as <- _. now apply wf_mul.
    + unfold try_except, py_truediv, Float.truediv in Hev.
      destruct (Float.is_zero y); cbn in Hev; [discriminate Hev |].
      injection Hev as <- _. now apply wf_div.
Qed.


(** ** The tokens and the tree of a text hold doubles *)

Lemma span_digits_fst (cs : list ascii) : all_digits (fst (span_digits cs)).
Proof.
  induction cs as [| c cs IH]; cbn [span_digits]; [constructor |].
  destruct (is_digit c) eqn:E; [| constructor].
  destruct (span_digits cs) as [ds rest]. cbn [fst] in *.
  constructor; assumption.
Qed.

Ltac break_in H :=
  repeat match type of H with
         | context [match ?x with _ => _ end] =>
             first [is_var x; destruct x | destruct x eqn:?]
         end.

Lemma wf_literal (ds : list ascii) (e : Z) :
  all_digits ds -> Float.wf (Float.of_decimal (digits_value ds) e).
Proof. intros H. apply of_decimal_wf. now apply digits_value_nonneg. Qed.

Lemma lex_number_wf (cs : list ascii) (c : constant) (r : list ascii) :
  lex_number cs = Some (c, r) -> constant_wf c.
Proof.
  unfold lex_number. pose proof (span_digits_fst cs) as Hip.
  destruct (span_digits cs) as [ip r1]. cbn [fst] in Hip.
  intros H.
  assert (Hfp : forall r2, all_digits (fst (span_digits r2)))
    by exact span_digits_fst.
  destruct r1 as [| c1 r2];
    [| specialize (Hfp r2); destruct c1 as [[] [] [] [] [] [] [] []]];
    cbv beta iota zeta in H; break_in H; try discriminate H;
    injection H as <- _; try exact I; apply wf_literal;
    first [ assumption | cbn [fst] in Hfp; now apply all_digits_app ].
Qed.

Lemma lex_step_wf (cs : list ascii) (t : token) (r : list ascii) :
  lex_step cs = Token t r -> token_wf t.
Proof.
  unfold lex_step. intros H.
  destruct cs as [| c cs]; [discriminate H |].
  assert (Hnum : match lex_number (c :: cs) with
                 | Some (c', r') => Token (NUMBER c') r'
                 | None => BadToken
                 end = Token t r -> token_wf t).
  { destruct (lex_number (c :: cs)) as [[c' r'] |] eqn:E; [| discriminate].
    intros H'. injection H' as <- _. exact (lex_number_wf _ _ _ E). }
  destruct c as [[] [] [] [] [] [] [] []];
    try (exact (Hnum H));
    break_in H; try discriminate H;
    try (injection H as <- _; exact I);
    try (exact (Hnum H)).
Qed.

Lemma lex_all_wf (fuel : nat) (cs : list ascii) (ts : list token) :
  lex_all fuel cs = Some ts -> Forall token_wf ts.
Proof.
  revert cs ts. induction fuel as [| fuel IH]; intros cs ts H;
    [discriminate H |].
  cbn [lex_all] in H. destruct (lex_step cs) as [t r | r | |] eqn:E.
  - destruct (lex_all fuel r) as [ts' |] eqn:E'; [| discriminate H].
    injection H as <-. constructor; [exact (lex_step_wf _ _ _ E) |].
    exact (IH _ _ E').
  - exact (IH _ _ H).
  - injection H as <-. constructor.
  - discriminate H.
Qed.

Lemma tokenize_wf (cs : list ascii) (ts : list token) :
  tokenize cs = Some ts -> Forall token_wf ts.
Proof.
  unfold tokenize. intros H.
  destruct cs as [| c cs]; [exact (lex_all_wf _ _ _ H) |].
  destruct c as [[] [] [] [] [] [] [] []];
    first [discriminate H | exact (lex_all_wf _ _ _ H)].
Qed.

End Doubles.

(* ================================================================== *)
(** * The tree of a text *)
(* ================================================================== *)

Module ParserFacts.
Import Float Ast Grammar Calculator EvalFacts Doubles.

(** A parser that builds its tree from the constants of the tokens. *)
Definition parser_ok (p : list token -> parsed) : Prop :=
  forall ts n rest,
    Forall token_wf ts -> p ts = Some (n, rest) ->
    node_wf n /\ Forall token_wf rest.

Ltac break_match_in H :=
  repeat match type of H with
         | context [match ?x with _ => _ end] =>
             first [is_var x; destruct x | destruct x eqn:?]
         end.

Ltac split_forall :=
  repeat match goal with
         | H : Forall token_wf (_ :: _) |- _ =>
             apply Forall_cons_iff in H; destruct H
         end.

Ltac finish_wf :=
  cbn [node_wf token_wf constant_wf] in *; repeat split; auto.

Ltac use_parser :=
  match goal with
  | E : _ = Some (?n, ?r) |- _ =>
      let Hx := fresh "Hx" in
      assert (Hx : node_wf n /\ Forall token_wf r)
        by (match goal with
            | IH : _ |- _ =>
                first [ eapply IH; [ | exact E]; solve [finish_wf]
                      | eapply IH; [ | | exact E]; solve [finish_wf] ]
            end);
      clear E; destruct Hx
  end.

Ltac parser_case H :=
  break_match_in H; try discriminate H; split_forall;
  repeat (use_parser; split_forall);
  try (injection H as <- <-); finish_wf.

Lemma parsers_ok (fuel : nat) :
  parser_ok (parse_sum fuel) /\
  (forall l, node_wf l -> parser_ok (parse_sum_rest fuel l)) /\
  parser_ok (parse_term fuel) /\
  (forall l, node_wf l -> parser_ok (parse_term_rest fuel l)) /\
  parser_ok (parse_factor fuel) /\
  (forall a, node_wf a -> parser_ok (parse_trailers fuel a)) /\
  parser_ok (parse_atom fuel).
Proof.
  induction fuel as [| fuel (Hs & Hsr & Ht & Htr & Hf & Htl & Ha)].
  - refine (conj _ (conj _ (conj _ (conj _ (conj _ (conj _ _))))));
      unfold parser_ok; intros;
      match goal with H : _ = Some _ |- _ => discriminate H end.
  - refine (conj _ (conj _ (conj _ (conj _ (conj _ (conj _ _)))))).
    + intros ts n rest Hts H. cbn [parse_sum] in H. parser_case H.
    + intros l Hl ts n rest Hts H. cbn [parse_sum_rest] in H. parser_case H.
    + intros ts n rest Hts H. cbn [parse_term] in H. parser_case H.
    + intros l Hl ts n rest Hts H. cbn [parse_term_rest] in H. parser_case H.
    + intros ts n rest Hts H. cbn [parse_factor] in H. parser_case H.
    + intros a Hwf ts n rest Hts H. cbn [parse_trailers] in H. parser_case H.
    + intros ts n rest Hts H. cbn [parse_atom] in H. parser_case H.
Qed.

(** The tree of a text holds doubles only. *)
Lemma parse_eval_wf (text : string) (tree : node) :
  parse_eval text = Some tree -> node_wf tree.
Proof.
  unfold parse_eval. intros H.
  destruct (tokenize (list_ascii_of_string text)) as [ts |] eqn:Etok;
    [| discriminate H].
  apply tokenize_wf in Etok.
  destruct (parse_sum (fuel_for ts) ts) as [[e rest] |] eqn:Ep;
    [| discriminate H].
  destruct rest; [| discriminate H]. injection H as <-.
  destruct (parsers_ok (fuel_for ts)) as [Hs _].
  exact (proj1 (Hs ts e [] Etok Ep)).
Qed.

(** Every number [_safe_evaluate] returns is a double. *)
Lemma safe_evaluate_wf (expression : string) (w w' : window) (v : float) :
  _safe_evaluate expression w = (Returned v, w') -> Float.wf v.
Proof.
  intros H. destruct (parse_eval expression) as [tree |] eqn:Ep.
  - rewrite (safe_evaluate_parsed _ _ _ Ep) in H.
    exact (eval_wf tree w w' v (parse_eval_wf _ _ Ep) H).
  - rewrite (safe_evaluate_syntax_error _ _ Ep) in H. discriminate H.
Qed.

End ParserFacts.

(* ================================================================== *)
(** * The shortest numeral *)
(* ================================================================== *)

Module ShortestFacts.
Import Float FloatFacts NumeralFacts Text TextFacts ReprFacts.

Local Open Scope char_scope.
Local Open Scope Z_scope.

(** The numeral [c * 10^g] in units, as the ratio [of_decimal] rounds. *)
Definition decimal_ratio (c g : Z) : Z * Z :=
  if 0 <=? g then (c * 10 ^ g * one_unit, 1) else (c * one_unit, 10 ^ (- g)).

Definition rounds_to (c g k : Z) : Prop :=
  round_units (fst (decimal_ratio c g)) (snd (decimal_ratio c g)) = k.

Lemma of_decimal_ratio (c g : Z) :
  of_decimal c g =
    of_ratio false (fst (decimal_ratio c g)) (snd (decimal_ratio c g)).
Proof. unfold of_decimal, decimal_ratio. destruct (0 <=? g); reflexivity. Qed.

Lemma reads_as_rounds (c g k : Z) :
  k < huge -> (of_decimal c g = Finite false k <-> rounds_to c g k).
Proof.
  intros Hh. rewrite of_decimal_ratio. unfold rounds_to, of_ratio.
  set (r := round_units _ _). split.
  - destruct (r <? huge); intros H; [now injection H | discriminate H].
  - intros ->. apply Z.ltb_lt in Hh. now rewrite Hh.
Qed.

Lemma decimal_ratio_pos (c g : Z) :
  0 <= c -> 0 <= fst (decimal_ratio c g) /\ 0 < snd (decimal_ratio c g).
Proof.
  intros Hc. unfold decimal_ratio. pose proof one_unit_pos.
  destruct (0 <=? g) eqn:E; cbn [fst snd].
  - apply Z.leb_le in E. pose proof (pow10_pos g E). split; [nia | lia].
  - apply Z.leb_gt in E. pose proof (pow10_pos (- g) ltac:(lia)).
    split; [nia | lia].
Qed.

(** On one grid, rounding follows the order of the coefficients. *)
Lemma rounding_mono (c1 c2 g : Z) :
  0 <= c1 -> c1 <= c2 ->
  round_units (fst (decimal_ratio c1 g)) (snd (decimal_ratio c1 g))
  <= round_units (fst (decimal_ratio c2 g)) (snd (decimal_ratio c2 g)).
Proof.
  intros H1 H12.
  destruct (decimal_ratio_pos c1 g H1) as [Hn1 Hd1].
  destruct (decimal_ratio_pos c2 g ltac:(lia)) as [Hn2 Hd2].
  apply round_units_mono; try assumption.
  unfold decimal_ratio in *. pose proof one_unit_pos.
  destruct (0 <=? g) eqn:E; cbn [fst snd] in *.
  - apply Z.leb_le in E. pose proof (pow10_pos g E).
    rewrite !Z.mul_1_r.
    apply Z.mul_le_mono_nonneg_r; [lia |].
    apply Z.mul_le_mono_nonneg_r; lia.
  - apply Z.leb_gt in E. pose proof (pow10_pos (- g) ltac:(lia)).
    apply Z.mul_le_mono_nonneg_r; [lia |].
    apply Z.mul_le_mono_nonneg_r; lia.
Qed.

(** A numeral between two that round to [k] rounds to [k]. *)
Lemma rounding_squeeze (c1 c2 c3 g k : Z) :
  0 <= c1 -> c1 <= c2 -> c2 <= c3 ->
  rounds_to c1 g k -> rounds_to c3 g k -> rounds_to c2 g k.
Proof.
  unfold rounds_to. intros H1 H12 H23 R1 R3.
  pose proof (rounding_mono c1 c2 g H1 H12).
  pose proof (rounding_mono c2 c3 g ltac:(lia) H23). lia.
Qed.

(** The lower neighbour of the double on the grid [10^g]. *)
Definition floor_on_grid (k g : Z) : Z :=
  fst (on_grid k g) / snd (on_grid k g).

Lemma floor_on_grid_nonneg (k g : Z) : 0 <= k -> 0 <= floor_on_grid k g.
Proof.
  intros Hk. destruct (on_grid_pos k g Hk) as [Hn Hd].
  unfold floor_on_grid. apply Z.div_pos; assumption.
Qed.

(** Numerals up to the lower neighbour round to at most [k]. *)
Lemma rounding_below (k c g : Z) :
  representable k -> 0 <= c -> c <= floor_on_grid k g ->
  round_units (fst (decimal_ratio c g)) (snd (decimal_ratio c g)) <= k.
Proof.
  intros Hk Hc Hle.
  destruct (decimal_ratio_pos c g Hc) as [Hn Hd].
  assert (Hx : round_units k 1 = k).
  { rewrite <- (Z.mul_1_r k) at 1. apply round_units_exact; [exact Hk | lia]. }
  apply Z.le_trans with (round_units k 1); [| lia].
  apply round_units_mono; try assumption; try lia.
  unfold floor_on_grid, on_grid, decimal_ratio in *. pose proof one_unit_pos.
  destruct Hk as [Hk0 _].
  destruct (0 <=? g) eqn:E; cbn [fst snd] in *.
  - apply Z.leb_le in E. pose proof (pow10_pos g E).
    set (D := one_unit * 10 ^ g) in *.
    assert (HD : 0 < D) by (subst D; nia).
    pose proof (Z.mul_div_le k D HD).
    replace (c * 10 ^ g * one_unit * 1) with (c * D) by (subst D; ring).
    assert (c * D <= k / D * D) by (apply Z.mul_le_mono_nonneg_r; lia).
    lia.
  - apply Z.leb_gt in E. pose proof (pow10_pos (- g) ltac:(lia)).
    set (N := k * 10 ^ (- g)) in *.
    pose proof (Z.mul_div_le N one_unit ltac:(lia)).
    assert (c * one_unit <= N / one_unit * one_unit)
      by (apply Z.mul_le_mono_nonneg_r; lia).
    lia.
Qed.

(** Numerals from the upper neighbour on round to at least [k]. *)
Lemma rounding_above (k c g : Z) :
  representable k -> floor_on_grid k g + 1 <= c ->
  k <= round_units (fst (decimal_ratio c g)) (snd (decimal_ratio c g)).
Proof.
  intros Hk Hle.
  pose proof (floor_on_grid_nonneg k g (proj1 Hk)) as Hf.
  destruct (decimal_ratio_pos c g ltac:(lia)) as [Hn Hd].
  assert (Hx : round_units k 1 = k).
  { rewrite <- (Z.mul_1_r k) at 1. apply round_units_exact; [exact Hk | lia]. }
  apply Z.le_trans with (round_units k 1); [lia |].
  apply round_units_mono; try assumption; try lia; [apply Hk |].
  unfold floor_on_grid, on_grid, decimal_ratio in *. pose proof one_unit_pos.
  destruct Hk as [Hk0 _].
  destruct (0 <=? g) eqn:E; cbn [fst snd] in *.
  - apply Z.leb_le in E. pose proof (pow10_pos g E).
    set (D := one_unit * 10 ^ g) in *.
    assert (HD : 0 < D) by (subst D; nia).
    pose proof (Z.mod_pos_bound k D HD).
    pose proof (Z.div_mod k D ltac:(lia)).
    replace (c * 10 ^ g * one_unit * 1) with (c * D) by (subst D; ring).
    assert ((k / D + 1) * D <= c * D) by (apply Z.mul_le_mono_nonneg_r; lia).
    lia.
  - apply Z.leb_gt in E. pose proof (pow10_pos (- g) ltac:(lia)).
    set (N := k * 10 ^ (- g)) in *.
    pose proof (Z.mod_pos_bound N one_unit ltac:(lia)).
    pose proof (Z.div_mod N one_unit ltac:(lia)).
    assert ((N / one_unit + 1) * one_unit <= c * one_unit)
      by (apply Z.mul_le_mono_nonneg_r; lia).
    lia.
Qed.


Lemma float_eqb_refl (x : float) : Float.eqb x x = true.
Proof.
  destruct x as [s k | s |]; simpl; try reflexivity.
  - rewrite Bool.eqb_reflx, Z.eqb_refl. reflexivity.
  - apply Bool.eqb_reflx.
Qed.

Lemma round_trips_false (k c g : Z) :
  round_trips k c g = false -> of_decimal c g <> Finite false k.
Proof.
  unfold round_trips. intros H E. rewrite E, float_eqb_refl in H.
  discriminate H.
Qed.

(** A grid the search passes over: neither neighbour of the double on it
    reads back as the double. *)
Definition grid_fails (k g : Z) : Prop :=
  round_trips k (floor_on_grid k g) g = false /\
  round_trips k (floor_on_grid k g + 1) g = false.

(** Then no numeral on that grid does. *)
Lemma failed_grid_has_no_numeral (k g c : Z) :
  representable k -> k < huge -> grid_fails k g -> 0 <= c ->
  of_decimal c g <> Finite false k.
Proof.
  intros Hk Hh [Hlo Hhi] Hc E.
  apply (reads_as_rounds c g k Hh) in E. unfold rounds_to in E.
  pose proof (floor_on_grid_nonneg k g (proj1 Hk)) as Hf.
  destruct (Z_le_gt_dec c (floor_on_grid k g)) as [Hle | Hgt].
  - apply (round_trips_false _ _ _ Hlo). apply (reads_as_rounds _ g k Hh).
    unfold rounds_to.
    pose proof (rounding_mono c (floor_on_grid k g) g Hc Hle).
    pose proof (rounding_below k (floor_on_grid k g) g Hk Hf (Z.le_refl _)).
    lia.
  - apply (round_trips_false _ _ _ Hhi). apply (reads_as_rounds _ g k Hh).
    unfold rounds_to.
    pose proof (rounding_mono (floor_on_grid k g + 1) c g ltac:(lia) ltac:(lia)).
    pose proof (rounding_above k (floor_on_grid k g + 1) g Hk (Z.le_refl _)).
    lia.
Qed.

(** Every grid between the start and the result of the search failed. *)
Lemma shortest_skips_failed_grids (k : Z) (fuel : nat) :
  forall q g,
    snd (shortest fuel k q) < g -> g <= q -> q - Z.of_nat fuel < g ->
    grid_fails k g.
Proof.
  induction fuel as [| fuel IH]; intros q g Hlt Hle Hfuel.
  - cbn [Z.of_nat] in Hfuel. lia.
  - rewrite shortest_step in Hlt.
    assert (Hfloor : floor_on_grid k q = fst (on_grid k q) / snd (on_grid k q))
      by reflexivity.
    destruct (on_grid k q) as [n d]. cbn [fst snd] in Hfloor.
    destruct (round_trips k (n / d) q) eqn:Elo;
      destruct (round_trips k (n / d + 1) q) eqn:Ehi; cbn [andb] in Hlt.
    + destruct (2 * (n mod d) <? d); [cbn [snd] in Hlt; lia |].
      destruct (d <? 2 * (n mod d)); [cbn [snd] in Hlt; lia |].
      destruct (Z.even (n / d)); cbn [snd] in Hlt; lia.
    + cbn [snd] in Hlt. lia.
    + cbn [snd] in Hlt. lia.
    + destruct (Z.eq_dec g q) as [-> | Hne].
      * unfold grid_fails. rewrite Hfloor. split; assumption.
      * apply (IH (q - 1) g); [exact Hlt | lia | lia].
Qed.

Lemma shortest_snd_lower (k : Z) (fuel : nat) :
  forall q, -1074 <= q - Z.of_nat fuel -> -1074 <= snd (shortest fuel k q).
Proof.
  induction fuel as [| fuel IH]; intros q Hq.
  - cbn [shortest snd]. lia.
  - rewrite shortest_step. destruct (on_grid k q) as [n d].
    destruct (round_trips k (n / d) q);
      destruct (round_trips k (n / d + 1) q); cbn [andb].
    + destruct (2 * (n mod d) <? d); [cbn [snd]; lia |].
      destruct (d <? 2 * (n mod d)); [cbn [snd]; lia |].
      destruct (Z.even (n / d)); cbn [snd]; lia.
    + cbn [snd]. lia.
    + cbn [snd]. lia.
    + apply IH. lia.
Qed.


(** Twice a double is a double. *)
Lemma representable_double (k : Z) : representable k -> representable (2 * k).
Proof.
  intros [Hk Hmod]. split; [lia |].
  destruct (Z.eq_dec k 0) as [-> | Hne]; [apply Zmod_0_l |].
  assert (Hpos : 0 < k) by lia.
  set (j := ulp_shift k) in *.
  assert (Hj : 0 <= j) by apply ulp_shift_nonneg.
  assert (Hp : 0 < 2 ^ j) by now apply pow2_pos.
  assert (Hkd : k = k / 2 ^ j * 2 ^ j).
  { pose proof (Z.div_mod k (2 ^ j)). lia. }
  assert (Hs : 0 <= ulp_shift (2 * k) <= j + 1).
  { unfold ulp_shift. rewrite Z.log2_double by lia. subst j. unfold ulp_shift. lia. }
  set (s := ulp_shift (2 * k)) in *.
  replace (2 * k) with (k / 2 ^ j * 2 ^ (j + 1)).
  - apply multiple_of_pow2. lia.
  - rewrite Z.pow_add_r by lia. change (2 ^ 1) with 2. lia.
Qed.

(** The start of the search is coarse enough: the double lies below one
    step of its grid. *)
Lemma upper_exp_bound (k : Z) :
  0 < k -> fst (on_grid k (upper_exp k)) < snd (on_grid k (upper_exp k)).
Proof.
  intros Hk. destruct (Z.log2_spec k Hk) as [_ Hhi].
  pose proof (Z.log2_nonneg k) as Hl.
  unfold upper_exp, on_grid. set (b := Z.log2 k - 1073).
  replace (Z.succ (Z.log2 k)) with (b + 1074) in Hhi by (subst b; lia).
  destruct (0 <=? b) eqn:Eb.
  - apply Z.leb_le in Eb.
    set (q := (b + 2) / 3).
    assert (Hq : 0 <= q /\ b <= 3 * q).
    { pose proof (Z.div_mod (b + 2) 3 ltac:(lia)).
      pose proof (Z.mod_pos_bound (b + 2) 3 ltac:(lia)). subst q. lia. }
    assert (E : (0 <=? q) = true) by (apply Z.leb_le; lia).
    rewrite E. cbn [fst snd].
    rewrite Z.pow_add_r in Hhi by lia. fold one_unit in Hhi.
    assert (H8 : 2 ^ b <= 10 ^ q).
    { apply Z.le_trans with (2 ^ (3 * q)); [apply Z.pow_le_mono_r; lia |].
      rewrite Z.pow_mul_r by lia. change (2 ^ 3) with 8.
      apply Z.pow_le_mono_l. lia. }
    pose proof one_unit_pos.
    apply Z.lt_le_trans with (2 ^ b * one_unit); [exact Hhi |].
    rewrite (Z.mul_comm one_unit).
    apply Z.mul_le_mono_nonneg_r; lia.
  - apply Z.leb_gt in Eb.
    set (t := (- b) / 10).
    assert (Ht : 0 <= t /\ 10 * t <= - b).
    { pose proof (Z.div_mod (- b) 10 ltac:(lia)).
      pose proof (Z.mod_pos_bound (- b) 10 ltac:(lia)). subst t. lia. }
    assert (H10 : 10 ^ (3 * t) <= 2 ^ (- b)).
    { apply Z.le_trans with (2 ^ (10 * t)); [| apply Z.pow_le_mono_r; lia].
      rewrite !Z.pow_mul_r by lia. change (10 ^ 3) with 1000.
      change (2 ^ 10) with 1024. apply Z.pow_le_mono_l. lia. }
    assert (Hsplit : one_unit = 2 ^ (b + 1074) * 2 ^ (- b)).
    { unfold one_unit. rewrite <- Z.pow_add_r by lia. f_equal. lia. }
    assert (Hp10 : 0 < 10 ^ (3 * t)) by (apply pow10_pos; lia).
    assert (Hlt : k * 10 ^ (3 * t) < one_unit).
    { rewrite Hsplit.
      apply Z.lt_le_trans with (2 ^ (b + 1074) * 10 ^ (3 * t)).
      - apply Z.mul_lt_mono_pos_r; lia.
      - apply Z.mul_le_mono_nonneg_l; [| exact H10].
        apply Z.pow_nonneg. lia. }
    destruct (0 <=? - (3 * t)) eqn:E; cbn [fst snd].
    + apply Z.leb_le in E. assert (t = 0) by lia. subst t.
      replace (- (3 * ((- b) / 10))) with 0 by lia.
      replace (3 * ((- b) / 10)) with 0 in Hlt by lia.
      change (10 ^ 0) with 1 in *. lia.
    + replace (- - (3 * t)) with (3 * t) by lia. exact Hlt.
Qed.


Lemma upper_exp_lower (k : Z) : 0 < k -> -1074 <= upper_exp k.
Proof.
  intros Hk. pose proof (Z.log2_nonneg k) as Hl. unfold upper_exp.
  set (b := Z.log2 k - 1073).
  destruct (0 <=? b) eqn:Eb.
  - apply Z.leb_le in Eb. assert (0 <= (b + 2) / 3) by (apply Z.div_pos; lia).
    lia.
  - apply Z.leb_gt in Eb.
    pose proof (Z.div_mod (- b) 10 ltac:(lia)).
    pose proof (Z.mod_pos_bound (- b) 10 ltac:(lia)). lia.
Qed.

(** No numeral on a grid coarser than the start of the search reads back
    as the double: the least positive one is already more than twice it. *)
Lemma coarse_grid_has_no_numeral (k g c : Z) :
  representable k -> 0 < k -> k < huge -> upper_exp k < g -> 0 <= c ->
  of_decimal c g <> Finite false k.
Proof.
  intros Hk Hpos Hh Hg Hc E.
  destruct (Z.eq_dec c 0) as [-> | Hc0].
  { rewrite of_decimal_zero in E. injection E as E. lia. }
  set (g1 := upper_exp k + 1) in *.
  replace g with (g1 + (g - g1)) in E by lia.
  rewrite <- of_decimal_shift in E by lia.
  apply (reads_as_rounds _ g1 k Hh) in E. unfold rounds_to in E.
  assert (Hc' : 1 <= c * 10 ^ (g - g1)).
  { pose proof (pow10_pos (g - g1) ltac:(lia)). nia. }
  pose proof (rounding_mono 1 _ g1 ltac:(lia) Hc') as Hmono.
  assert (Htwice : 2 * k
            <= round_units (fst (decimal_ratio 1 g1)) (snd (decimal_ratio 1 g1))).
  { assert (Hx : round_units (2 * k) 1 = 2 * k).
    { rewrite <- (Z.mul_1_r (2 * k)) at 1.
      apply round_units_exact; [now apply representable_double | lia]. }
    rewrite <- Hx.
    destruct (decimal_ratio_pos 1 g1 ltac:(lia)) as [Hn Hd].
    apply round_units_mono; try assumption; try lia.
    pose proof (upper_exp_bound k Hpos) as Hb.
    pose proof one_unit_pos as Hu.
    unfold on_grid in Hb. unfold decimal_ratio.
    destruct (0 <=? upper_exp k) eqn:E0; cbn [fst snd] in Hb.
    - apply Z.leb_le in E0.
      assert (E1 : (0 <=? g1) = true) by (apply Z.leb_le; subst g1; lia).
      rewrite E1. cbn [fst snd]. subst g1.
      rewrite Z.pow_add_r by lia. change (10 ^ 1) with 10.
      pose proof (pow10_pos (upper_exp k) E0).
      set (p := 10 ^ upper_exp k) in *.
      assert (one_unit * p <= p * one_unit) by lia.
      assert (0 < p * one_unit) by nia. lia.
    - apply Z.leb_gt in E0.
      destruct (0 <=? g1) eqn:E1; cbn [fst snd].
      + apply Z.leb_le in E1. assert (Hq : upper_exp k = -1) by (subst g1; lia).
        assert (Hg1 : g1 = 0) by (subst g1; lia).
        rewrite Hq in Hb. rewrite Hg1. change (- -1) with 1 in Hb.
        change (10 ^ 1) with 10 in Hb. change (10 ^ 0) with 1. lia.
      + apply Z.leb_gt in E1.
        replace (- upper_exp k) with (- g1 + 1) in Hb by (subst g1; lia).
        rewrite Z.pow_add_r in Hb by lia. change (10 ^ 1) with 10 in Hb.
        pose proof (pow10_pos (- g1) ltac:(lia)).
        set (p := 10 ^ (- g1)) in *.
        assert (0 <= k * p) by nia. lia. }
  lia.
Qed.

(** No numeral on a grid coarser than the one the search stops at reads
    back as the double. *)
Lemma no_coarser_numeral (k c g : Z) :
  representable k -> 0 < k -> k < huge -> 0 <= c ->
  snd (shortest_decimal k) < g ->
  of_decimal c g <> Finite false k.
Proof.
  intros Hk Hpos Hh Hc Hg. unfold shortest_decimal in Hg.
  pose proof (upper_exp_lower k Hpos) as Hq0.
  set (q0 := upper_exp k) in *. set (fuel := Z.to_nat (q0 + 1074)) in *.
  destruct (Z_lt_le_dec q0 g) as [Hcoarse | Hfine].
  - now apply coarse_grid_has_no_numeral.
  - apply failed_grid_has_no_numeral; try assumption.
    apply (shortest_skips_failed_grids k fuel q0 g Hg Hfine).
    pose proof (shortest_snd_lower k fuel q0 ltac:(subst fuel; lia)).
    subst fuel. lia.
Qed.


Lemma digits_value_upper (ds : list ascii) :
  all_digits ds -> digits_value ds < 10 ^ Z.of_nat (List.length ds).
Proof.
  induction ds as [| c ds IH] using rev_ind; intros Hall.
  - cbn. lia.
  - apply Forall_app in Hall. destruct Hall as [Hds Hc].
    apply Forall_inv in Hc. pose proof (digit_value_bounds c Hc).
    specialize (IH Hds).
    rewrite digits_value_app, length_app. cbn [List.length].
    change (digits_value [c]) with (10 * 0 + digit_value c).
    rewrite Nat2Z.inj_add, Z.pow_add_r by lia.
    change (10 ^ Z.of_nat 1) with 10. lia.
Qed.

Lemma nonzero_digit_value (c : ascii) :
  is_digit c = true -> c <> "0" -> 1 <= digit_value c.
Proof.
  intros H Hne. apply digit_cases in H. cbn [In] in H.
  repeat (destruct H as [<- | H]; [first [now contradiction Hne | vm_compute; congruence] |]).
  contradiction.
Qed.

(** A number is at least the power of ten with as many digits. *)
Lemma digits_of_lower (n : Z) :
  0 < n -> 10 ^ (Z.of_nat (List.length (digits_of n)) - 1) <= n.
Proof.
  intros Hn. destruct (digits_of_head n Hn) as [c [rest [Hd Hc]]].
  pose proof (digits_of_all_digits n) as Hall.
  pose proof (digits_of_value n ltac:(lia)) as Hval.
  rewrite Hd in *. apply Forall_cons_iff in Hall. destruct Hall as [Hdc Hrest].
  pose proof (nonzero_digit_value c Hdc Hc).
  pose proof (digits_value_nonneg rest Hrest).
  change (c :: rest) with ([c] ++ rest) in Hval.
  rewrite digits_value_app in Hval.
  change (digits_value [c]) with (10 * 0 + digit_value c) in Hval.
  cbn [List.length]. rewrite Nat2Z.inj_succ.
  replace (Z.succ (Z.of_nat (List.length rest)) - 1)
    with (Z.of_nat (List.length rest)) by lia.
  pose proof (pow10_pos (Z.of_nat (List.length rest)) ltac:(lia)). nia.
Qed.

(** [repr] prints as few significant digits as any numeral that reads back
    as the double. *)
Lemma repr_is_shortest (k d e : Z) :
  representable k -> 0 < k -> k < huge -> 0 < d ->
  of_decimal d e = Finite false k ->
  (List.length (fst (repr_digits k))
   <= List.length (strip_trailing_zeros (digits_of d)))%nat.
Proof.
  intros Hk Hpos Hh Hd Hread.
  (* the given numeral, without its trailing zeros *)
  destruct (strip_split (digits_of d)) as [z Hz].
  set (sd := strip_trailing_zeros (digits_of d)) in *.
  assert (Hsd : all_digits sd) by apply strip_all_digits, digits_of_all_digits.
  assert (Hd0 : d = digits_value sd * 10 ^ Z.of_nat z).
  { rewrite <- (digits_of_value d) at 1 by lia. rewrite Hz.
    apply trailing_zeros_value. }
  pose proof (digits_value_upper sd Hsd) as Hup.
  pose proof (digits_value_nonneg sd Hsd) as Hnn.
  rewrite Hd0, of_decimal_shift in Hread by lia.
  set (d0 := digits_value sd) in *. set (e0 := e + Z.of_nat z) in *.
  assert (Hm : (1 <= List.length sd)%nat).
  { destruct sd; [| cbn; lia]. subst d0. change (digits_value []) with 0 in Hd0. lia. }
  (* the numeral of the search *)
  unfold repr_digits.
  pose proof (shortest_round_trips k Hk Hh
                (Z.to_nat (upper_exp k + 1074)) (upper_exp k)) as Hrt.
  pose proof (shortest_positive k Hpos
                (Z.to_nat (upper_exp k + 1074)) (upper_exp k)) as HD.
  pose proof (fun c g => no_coarser_numeral k c g Hk Hpos Hh) as Hcoarse.
  unfold shortest_decimal in *.
  destruct (shortest (Z.to_nat (upper_exp k + 1074)) k (upper_exp k)) as [D qf].
  cbn [fst snd] in *.
  destruct (strip_split (digits_of D)) as [zD HzD].
  assert (Hlen : List.length (digits_of D)
                 = (List.length (strip_trailing_zeros (digits_of D)) + zD)%nat).
  { rewrite HzD at 1. rewrite length_app, repeat_length. reflexivity. }
  pose proof (digits_of_lower D HD) as Hlow.
  destruct (le_lt_dec (List.length (strip_trailing_zeros (digits_of D)))
              (List.length sd)) as [Hok | Hbad]; [exact Hok | exfalso].
  set (L := Z.of_nat (List.length (digits_of D))) in *.
  assert (HL : Z.of_nat (List.length sd) + 1 <= L) by (subst L; lia).
  (* the given numeral is on a grid at least as fine *)
  assert (He0 : e0 <= qf).
  { destruct (Z_le_gt_dec e0 qf) as [H | H]; [exact H |].
    exfalso. apply (Hcoarse d0 e0); [lia | lia | exact Hread]. }
  (* a power of ten lies between the two numerals *)
  set (gB := L - 1 + qf).
  apply (Hcoarse 1 gB); [lia | subst gB; lia |].
  replace gB with (e0 + (gB - e0)) by lia.
  rewrite <- of_decimal_shift by (subst gB; lia).
  apply (reads_as_rounds _ e0 k Hh).
  apply (rounding_squeeze d0 _ (D * 10 ^ (qf - e0)) e0 k).
  - lia.
  - rewrite Z.mul_1_l.
    apply Z.le_trans with (10 ^ Z.of_nat (List.length sd)); [lia |].
    apply Z.pow_le_mono_r; subst gB; lia.
  - rewrite Z.mul_1_l. subst gB.
    replace (L - 1 + qf - e0) with ((L - 1) + (qf - e0)) by lia.
    rewrite Z.pow_add_r by lia.
    apply Z.mul_le_mono_nonneg_r; [| exact Hlow].
    apply Z.pow_nonneg. lia.
  - now apply (reads_as_rounds _ e0 k Hh).
  - apply (reads_as_rounds _ e0 k Hh).
    rewrite of_decimal_shift by lia.
    replace (e0 + (qf - e0)) with qf by lia. exact Hrt.
Qed.

End ShortestFacts.

(* ================================================================== *)
(** * The evaluator and the callbacks against the specification *)
(* ================================================================== *)

Module Claims.
Import Float Ast Calculator Spec EvalFacts Doubles ParserFacts ReadBack.
Import TextFacts ShortestFacts.

Local Open Scope string_scope.
Local Open Scope Z_scope.

(** An outcome computed on one window holds on every window. *)
Lemma safe_evaluate_at (expression : string) (w0 : window) r :
  _safe_evaluate expression w0 = (r, w0) ->
  forall w, _safe_evaluate expression w = (r, w).
Proof.
  intros H w. destruct (safe_evaluate_frame expression) as [r' Hr].
  rewrite Hr in *. congruence.
Qed.

Lemma meets_unsupported_raises (w : window) (t : node) :
  meets_unsupported w t ->
  exists msg, _eval t w = (Raised (ValueError msg), w) /\
    (msg = "Invalid expression" \/ msg = "Only numbers allowed").
Proof.
  induction 1 as [t Hroot | body _ IH | op operand Hop _ IH
                 | lhs op rhs Hop _ IH | lhs op rhs x Hop Hl _ IH].
  - destruct t; simpl in Hroot; try discriminate; simpl;
      try (exists "Invalid expression"; split; [reflexivity | now left]).
    + rewrite Hroot. exists "Only numbers allowed". split; [reflexivity | now right].
    + rewrite Hroot. exists "Invalid expression". split; [reflexivity | now left].
    + rewrite Hroot. exists "Invalid expression". split; [reflexivity | now left].
  - exact IH.
  - destruct IH as [msg [He Hm]]. exists msg. split; [| exact Hm].
    now apply eval_unary_raise.
  - destruct IH as [msg [He Hm]]. exists msg. split; [| exact Hm].
    now apply eval_binary_raise_left.
  - destruct IH as [msg [He Hm]]. exists msg. split; [| exact Hm].
    now apply eval_binary_raise_right with x.
Qed.

(** C1 (amended).  Among the texts of key characters (digits, the point,
    [e], the four operators, parentheses, the space), a text that
    [ast.parse] rejects, and a text whose tree has, as the first failure
    evaluation meets, a node outside the whitelist (a name, a call, another
    operator, a constant that is not a number), fails with a [ValueError]
    whose message is "Invalid expression" or "Only numbers allowed".
    Parentheses are part of the accepted language. *)
Theorem unsupported_syntax_fails (expression : string) (w : window) :
  Grammar.keyed expression = true ->
  Grammar.parse_eval expression = None \/
  (exists tree, Grammar.parse_eval expression = Some tree /\
                meets_unsupported w tree) ->
  exists msg,
    _safe_evaluate expression w = (Raised (ValueError msg), w) /\
    (msg = "Invalid expression" \/ msg = "Only numbers allowed").
Proof.
  intros _ [Hnone | [tree [Hsome Hmeets]]].
  - exists "Invalid expression". split; [| now left].
    now apply safe_evaluate_syntax_error.
  - rewrite (safe_evaluate_parsed _ _ _ Hsome).
    now apply meets_unsupported_raises.
Qed.

(** C1, witness: the call [e(1)]. *)
Lemma unsupported_syntax_fails_witness :
  exists msg,
    _safe_evaluate "e(1)" (showing "e(1)") =
      (Raised (ValueError msg), showing "e(1)") /\
    (msg = "Invalid expression" \/ msg = "Only numbers allowed").
Proof.
  apply (unsupported_syntax_fails "e(1)" (showing "e(1)")); [reflexivity |].
  right. exists (Expression (Call (Name "e") [Constant (CInt 1)] [])).
  split; [vm_compute; reflexivity |].
  apply mu_body. apply mu_here. reflexivity.
Defined.

(** C1, counterexample: ["3*(2+1)"] is outside the grammar of the
    specification, and the evaluator returns 9 for it. *)
Lemma parenthesised_expression_evaluates :
  in_grammar "3*(2+1)" = false /\
  _safe_evaluate "3*(2+1)" (showing "3*(2+1)") =
    (Returned (Float.of_small 9), showing "3*(2+1)").
Proof. split; vm_compute; reflexivity. Qed.

Lemma divides_by_zero_raises (w : window) (t : node) :
  divides_by_zero w t -> _eval t w = (Raised division_by_zero, w).
Proof.
  induction 1 as [lhs rhs x y Hl Hr Hz | body _ IH | op operand Hop _ IH
                 | lhs op rhs Hop _ IH | lhs op rhs x Hop Hl _ IH].
  - rewrite (eval_binary _ _ Div _ _ _ Hl Hr), Hz. reflexivity.
  - exact IH.
  - now apply eval_unary_raise.
  - now apply eval_binary_raise_left.
  - now apply eval_binary_raise_right with x.
Qed.

(** C2.  When the first failure the evaluation of an expression meets is a
    division whose divisor evaluated to zero, [_safe_evaluate] raises
    [ValueError("Cannot divide by zero")]: it returns no number, and so no
    infinity. *)
Theorem division_by_zero_fails (expression : string) (tree : node)
  (w : window) :
  Grammar.parse_eval expression = Some tree ->
  divides_by_zero w tree ->
  _safe_evaluate expression w = (Raised division_by_zero, w).
Proof.
  intros Hp Hz. rewrite (safe_evaluate_parsed _ _ _ Hp).
  now apply divides_by_zero_raises.
Qed.

(** C2, witness: ["5/0"]. *)
Lemma division_by_zero_fails_witness :
  _safe_evaluate "5/0" (showing "5/0") = (Raised division_by_zero, showing "5/0").
Proof.
  apply (division_by_zero_fails "5/0"
           (Expression (BinOp (Constant (CInt 5)) Div (Constant (CInt 0))))).
  - vm_compute. reflexivity.
  - apply dz_body.
    apply dz_here with (x := Float.of_small 5) (y := Float.of_small 0);
      vm_compute; reflexivity.
Defined.

Lemma eval_tree_of (a : arith) (w : window) :
  _eval (tree_of a) w = (meaning a, w).
Proof.
  induction a; simpl tree_of; simpl meaning.
  - reflexivity.
  - destruct (meaning a) as [x|e].
    + rewrite (eval_unary _ _ _ _ IHa). reflexivity.
    + now apply eval_unary_raise.
  - destruct (meaning a) as [x|e].
    + rewrite (eval_unary _ _ _ _ IHa). reflexivity.
    + now apply eval_unary_raise.
  - destruct (meaning a1) as [x|e]; [| now apply eval_binary_raise_left].
    destruct (meaning a2) as [y|e];
      [| now apply eval_binary_raise_right with x].
    rewrite (eval_binary _ _ _ _ _ _ IHa1 IHa2). reflexivity.
  - destruct (meaning a1) as [x|e]; [| now apply eval_binary_raise_left].
    destruct (meaning a2) as [y|e];
      [| now apply eval_binary_raise_right with x].
    rewrite (eval_binary _ _ _ _ _ _ IHa1 IHa2). reflexivity.
  - destruct (meaning a1) as [x|e]; [| now apply eval_binary_raise_left].
    destruct (meaning a2) as [y|e];
      [| now apply eval_binary_raise_right with x].
    rewrite (eval_binary _ _ _ _ _ _ IHa1 IHa2). reflexivity.
  - destruct (meaning a1) as [x|e]; [| now apply eval_binary_raise_left].
    destruct (meaning a2) as [y|e];
      [| now apply eval_binary_raise_right with x].
    rewrite (eval_binary _ _ _ _ _ _ IHa1 IHa2). simpl.
    destruct (Float.is_zero y); reflexivity.
Qed.


(** C5, at the failing input.  With [1] followed by 309 zeros in the
    display, [float(node.value)] raises [OverflowError]; the three callbacks
    catch [ValueError] only, so the exception leaves the callback and no
    dialog is put up.  The display keeps its text. *)
Theorem overflow_error_is_not_shown :
  _calculate (showing ten_to_the_309) =
    (Raised (OverflowError "int too large to convert to float"),
     showing ten_to_the_309) /\
  _negate (showing ten_to_the_309) =
    (Raised (OverflowError "int too large to convert to float"),
     showing ten_to_the_309) /\
  _percent (showing ten_to_the_309) =
    (Raised (OverflowError "int too large to convert to float"),
     showing ten_to_the_309).
Proof. repeat split; vm_compute; reflexivity. Qed.

(** C6.  The empty text is a syntax error, which [_safe_evaluate] turns
    into [ValueError("Invalid expression")]. *)
Theorem empty_text_is_invalid (w : window) :
  _safe_evaluate "" w = (Raised invalid_expression, w).
Proof. apply safe_evaluate_syntax_error. vm_compute. reflexivity. Qed.

(** C7.  [_safe_evaluate] leaves the window as it found it, and its
    outcome, a number or an exception, depends on the text alone. *)
Theorem safe_evaluate_is_pure (expression : string) (w1 w2 : window) :
  snd (_safe_evaluate expression w1) = w1 /\
  fst (_safe_evaluate expression w1) = fst (_safe_evaluate expression w2).
Proof.
  destruct (safe_evaluate_frame expression) as [r Hr].
  rewrite !Hr. split; reflexivity.
Qed.

(** C9.  On an empty display the three evaluating callbacks return at once:
    no dialog, no change.  Had the evaluator been called on the empty text,
    a dialog would have been put up. *)
Theorem empty_display_is_left_alone (dialogs : list (string * string)) :
  _calculate (Window "" dialogs) = (Returned tt, Window "" dialogs) /\
  _negate (Window "" dialogs) = (Returned tt, Window "" dialogs) /\
  _percent (Window "" dialogs) = (Returned tt, Window "" dialogs) /\
  evaluate_or_alert "" (Window "" dialogs) =
    (Returned None, Window "" (("Error", "Invalid expression") :: dialogs)).
Proof. repeat split. Qed.

Lemma evaluate_or_alert_value (text : string) (w : window) (v : float) :
  _safe_evaluate text w = (Returned v, w) ->
  evaluate_or_alert text w = (Returned (Some v), w).
Proof.
  intros H. unfold evaluate_or_alert, try_except, bind. rewrite H. reflexivity.
Qed.

(** C10.  On a display that is not empty and evaluates to [v], the percent
    callback sets the display to the text of [v / 100]. *)
Theorem percent_divides_by_hundred (w : window) (v : float) :
  display_var w <> "" ->
  _safe_evaluate (display_var w) w = (Returned v, w) ->
  _percent w =
    (Returned tt,
     Window (_format_number (Float.div v (Float.of_small 100))) (alerts w)).
Proof.
  intros Hne Hv. apply evaluate_or_alert_value in Hv.
  unfold _percent, bind, display_var_get.
  destruct (display_var w) as [|c rest] eqn:Hd; [congruence |].
  change (is_empty (String c rest)) with false. cbv beta iota. rewrite Hv.
  reflexivity.
Qed.

(** C10, witness: 50 percent. *)
Lemma percent_divides_by_hundred_witness :
  _percent (showing "50") =
    (Returned tt,
     Window (_format_number (Float.div (Float.of_small 50) (Float.of_small 100)))
       []).
Proof.
  apply (percent_divides_by_hundred (showing "50") (Float.of_small 50)).
  - discriminate.
  - vm_compute. reflexivity.
Defined.

(** C8 (amended).  When the display holds an expression that evaluates to a
    finite double [v] other than zero, the sign callback sets the display
    to the text of [-v], and evaluating that text gives [-v]. *)
Theorem negate_then_evaluate (w : window) (v : float) :
  display_var w <> "" ->
  _safe_evaluate (display_var w) w = (Returned v, w) ->
  Float.is_finite v = true ->
  Float.is_zero v = false ->
  _negate w =
    (Returned tt, Window (_format_number (Float.neg v)) (alerts w)) /\
  (forall w', _safe_evaluate (_format_number (Float.neg v)) w' =
                (Returned (Float.neg v), w')).
Proof.
  intros Hne Hv Hfin Hnz. split.
  - apply evaluate_or_alert_value in Hv.
    unfold _negate, bind, display_var_get.
    destruct (display_var w) as [| c rest] eqn:Hd; [congruence |].
    change (is_empty (String c rest)) with false. cbv beta iota. rewrite Hv.
    reflexivity.
  - intros w'. apply format_reads_back.
    + apply wf_neg. exact (safe_evaluate_wf _ _ _ _ Hv).
    + destruct v; simpl in *; congruence.
    + destruct v as [s k | |]; simpl in *; try discriminate.
      intros E. injection E as _ ->. discriminate Hnz.
Qed.

(** C8, witness: a display showing ["5/4"]. *)
Lemma negate_then_evaluate_witness :
  _negate (showing "5/4") =
    (Returned tt,
     Window (_format_number (Float.neg (Float.div (Float.of_small 5) (Float.of_small 4)))) []) /\
  (forall w', _safe_evaluate
                (_format_number (Float.neg (Float.div (Float.of_small 5) (Float.of_small 4)))) w' =
              (Returned (Float.neg (Float.div (Float.of_small 5) (Float.of_small 4))), w')).
Proof.
  apply (negate_then_evaluate (showing "5/4")
           (Float.div (Float.of_small 5) (Float.of_small 4)));
    [discriminate | vm_compute; reflexivity | reflexivity
    | vm_compute; reflexivity].
Defined.

(** C8, counterexample: an expression of the grammar whose value overflows
    to infinity.  The sign callback writes ["-inf"], which does not
    evaluate. *)
Lemma negated_infinity_is_not_read_back :
  in_grammar overflowing_product = true /\
  _safe_evaluate overflowing_product (showing overflowing_product) =
    (Returned (Inf false), showing overflowing_product) /\
  _negate (showing overflowing_product) = (Returned tt, showing "-inf") /\
  _safe_evaluate "-inf" (showing "-inf") =
    (Raised invalid_expression, showing "-inf").
Proof. repeat split; vm_compute; reflexivity. Qed.

Lemma str_int_has_no_point (n : Z) : ~ In "."%char (Text.str_int n).
Proof.
  assert (Hd : forall m, ~ In "."%char (Text.digits_of m)).
  { intros m Hin. pose proof (digits_of_all_digits m) as Hall.
    unfold all_digits in Hall. rewrite Forall_forall in Hall.
    specialize (Hall _ Hin). discriminate Hall. }
  unfold Text.str_int. destruct (n <? 0); [| apply Hd].
  intros [Hin | Hin]; [discriminate Hin | exact (Hd _ Hin)].
Qed.

(** C4.  For a finite double [v], of sign [s] and magnitude [k] units:
    when [v] has no fractional part, [_format_number] gives the decimal
    digits of the integer, with no decimal point; otherwise it gives
    [str(v)], which evaluates back to [v], and whose significant digits
    ([repr_digits], laid out by [str_float]) are as few as those of any
    decimal numeral [d * 10^e] that reads back as the magnitude of [v]. *)
Theorem format_number_text (s : bool) (k : Z) :
  Float.wf (Finite s k) ->
  (Float.is_integer (Finite s k) = true ->
     _format_number (Finite s k) =
       string_of_list_ascii (Text.str_int (Float.to_int (Finite s k))) /\
     ~ In "."%char (Text.str_int (Float.to_int (Finite s k)))) /\
  (Float.is_integer (Finite s k) = false ->
     _format_number (Finite s k) =
       string_of_list_ascii (Text.str_float (Finite s k)) /\
     (forall w, _safe_evaluate (_format_number (Finite s k)) w =
                  (Returned (Finite s k), w)) /\
     (forall d e, 0 < d -> Float.of_decimal d e = Finite false k ->
        (List.length (fst (Text.repr_digits k))
         <= List.length (Text.strip_trailing_zeros (Text.digits_of d)))%nat)).
Proof.
  intros Hwf. split; intros Hint.
  - split; [| apply str_int_has_no_point].
    unfold _format_number. rewrite Hint. reflexivity.
  - assert (Hpos : 0 < k).
    { destruct Hwf as [[Hk _] _]. cbn [is_integer] in Hint.
      apply Z.eqb_neq in Hint. destruct (Z.eq_dec k 0) as [-> | ]; [| lia].
      rewrite Zmod_0_l in Hint. congruence. }
    split; [| split].
    + unfold _format_number. rewrite Hint. reflexivity.
    + intros w. apply format_reads_back; [exact Hwf | reflexivity |].
      intros E. injection E as _ ->. lia.
    + intros d e Hd Hread. destruct Hwf as [Hk Hh].
      now apply (repr_is_shortest k d e).
Qed.

(** C4, witness: one third, the value of ["1/3"], shown as
    ["0.3333333333333333"]. *)
Lemma format_number_text_witness :
  (_safe_evaluate "1/3" (showing "1/3") =
     (Returned (Finite false one_third_units), showing "1/3") /\
   _format_number (Finite false one_third_units) = "0.3333333333333333") /\
  (Float.is_integer (Finite false one_third_units) = true ->
     _format_number (Finite false one_third_units) =
       string_of_list_ascii
         (Text.str_int (Float.to_int (Finite false one_third_units))) /\
     ~ In "."%char (Text.str_int (Float.to_int (Finite false one_third_units)))) /\
  (Float.is_integer (Finite false one_third_units) = false ->
     _format_number (Finite false one_third_units) =
       string_of_list_ascii (Text.str_float (Finite false one_third_units)) /\
     (forall w, _safe_evaluate (_format_number (Finite false one_third_units)) w =
                  (Returned (Finite false one_third_units), w)) /\
     (forall d e, 0 < d ->
        Float.of_decimal d e = Finite false one_third_units ->
        (List.length (fst (Text.repr_digits one_third_units))
         <= List.length (Text.strip_trailing_zeros (Text.digits_of d)))%nat)).
Proof.
  split; [split; vm_compute; reflexivity |].
  apply (format_number_text false one_third_units).
  split; [split |]; vm_compute; congruence.
Defined.

End Claims.

(* ================================================================== *)
(** * The editing keys *)
(* ================================================================== *)

Module Keys.
Import Float Calculator.

Local Open Scope string_scope.

(** The callbacks the event loop runs, one after the other.  Tk reports
    an exception that leaves a callback and goes on with the next event, on
    the window as the callback left it. *)
Fixpoint run (callbacks : list (M unit)) : M unit :=
  match callbacks with
  | [] => ret tt
  | callback :: rest => fun w => run rest (snd (callback w))
  end.

(** The text a list of keys spells. *)
Definition spelled (keys : list string) : string :=
  fold_right append "" keys.

Lemma drop_last_append (s : string) (c : ascii) :
  drop_last (s ++ String c "") = s.
Proof.
  induction s as [| a s IH]; [reflexivity |].
  destruct s as [| b s'].
  - reflexivity.
  - change (drop_last (String a (String b s') ++ String c ""))
      with (String a (drop_last (String b s' ++ String c ""))).
    rewrite IH. reflexivity.
Qed.

Lemma is_empty_append (s : string) (c : ascii) :
  is_empty (s ++ String c "") = false.
Proof. destruct s; reflexivity. Qed.

Lemma append_assoc (a b c : string) : (a ++ b) ++ c = a ++ (b ++ c).
Proof. induction a as [| x a IH]; [reflexivity |]. cbn [append]. now rewrite IH. Qed.

Lemma append_empty (a : string) : a ++ "" = a.
Proof. induction a as [| x a IH]; [reflexivity |]. cbn [append]. now rewrite IH. Qed.

Lemma string_of_list_snoc (cs : list ascii) (c : ascii) :
  string_of_list_ascii (cs ++ [c]) = string_of_list_ascii cs ++ String c "".
Proof.
  induction cs as [| x cs IH]; [reflexivity |].
  cbn [app string_of_list_ascii append]. now rewrite IH.
Qed.

Lemma backspace_last (text : string) (c : ascii)
  (dialogs : list (string * string)) :
  _backspace (Window (text ++ String c "") dialogs) =
    (Returned tt, Window text dialogs).
Proof.
  unfold _backspace, bind, display_var_get. cbn [display_var].
  rewrite is_empty_append. unfold display_var_set. cbn [alerts].
  now rewrite drop_last_append.
Qed.

Lemma run_app (xs ys : list (M unit)) (w : window) :
  run (xs ++ ys) w = run ys (snd (run xs w)).
Proof.
  revert w. induction xs as [| x xs IH]; intros w; [reflexivity |].
  cbn [app run]. apply IH.
Qed.

Lemma run_appends (keys : list string) (text : string)
  (dialogs : list (string * string)) :
  run (map _append keys) (Window text dialogs) =
    (Returned tt, Window (text ++ spelled keys) dialogs).
Proof.
  revert text. induction keys as [| k keys IH]; intros text.
  - cbn. now rewrite append_empty.
  - cbn [map run spelled fold_right].
    change (snd (_append k (Window text dialogs)))
      with (Window (text ++ k) dialogs).
    rewrite IH, append_assoc. reflexivity.
Qed.

Lemma run_backspaces (cs : list ascii) (text : string)
  (dialogs : list (string * string)) :
  run (repeat _backspace (List.length cs))
      (Window (text ++ string_of_list_ascii (rev cs)) dialogs) =
    (Returned tt, Window text dialogs).
Proof.
  induction cs as [| c cs IH].
  - cbn. now rewrite append_empty.
  - cbn [List.length repeat run rev].
    assert (E : text ++ string_of_list_ascii (rev cs ++ [c]) =
                (text ++ string_of_list_ascii (rev cs)) ++ String c "").
    { now rewrite append_assoc, string_of_list_snoc. }
    rewrite E, backspace_last. exact IH.
Qed.

(** Whatever the display showed, once the keys of a list are pressed after
    [_clear] it shows what the keys spell, and no dialog has come up. *)
Theorem typed_text_is_displayed (keys : list string) (w : window) :
  run (_clear :: map _append keys) w =
    (Returned tt, Window (spelled keys) (alerts w)).
Proof.
  cbn [run]. change (snd (_clear w)) with (Window "" (alerts w)).
  apply (run_appends keys "").
Qed.

(** Typing characters one by one and pressing backspace once for each of
    them brings the window back to what it was. *)
Theorem backspaces_undo_typing (cs : list ascii) (w : window) :
  run (map (fun c => _append (String c "")) cs
       ++ repeat _backspace (List.length cs)) w = (Returned tt, w).
Proof.
  destruct w as [text dialogs]. rewrite run_app.
  rewrite <- (map_map (fun c => String c "") _append).
  rewrite run_appends. cbn [snd].
  assert (E : spelled (map (fun c => String c "") cs) = string_of_list_ascii cs).
  { induction cs as [| c cs IH]; [reflexivity |].
    cbn [map spelled fold_right string_of_list_ascii append].
    fold (spelled (map (fun c0 => String c0 "") cs)). now rewrite IH. }
  rewrite E. rewrite <- (rev_involutive cs) at 2.
  rewrite <- (length_rev cs). apply run_backspaces.
Qed.

End Keys.

(* ================================================================== *)
(** * What the evaluator and the callbacks can raise *)
(* ================================================================== *)

Module Failures.
Import Float Ast Calculator Spec EvalFacts.

Local Open Scope string_scope.

(** What [float] raises on an [int] beyond the range of doubles. *)
Definition int_too_large : exception :=
  OverflowError "int too large to convert to float".

(** The three messages of the evaluator. *)
Definition evaluator_message (msg : string) : Prop :=
  msg = "Invalid expression" \/ msg = "Only numbers allowed" \/
  msg = "Cannot divide by zero".

Definition evaluator_failure (e : exception) : Prop :=
  (exists msg, e = ValueError msg /\ evaluator_message msg) \/
  e = int_too_large.

Lemma invalid_expression_failure :
  evaluator_failure (ValueError "Invalid expression").
Proof. left. eexists. split; [reflexivity | now left]. Qed.

Lemma only_numbers_failure :
  evaluator_failure (ValueError "Only numbers allowed").
Proof. left. eexists. split; [reflexivity | right; now left]. Qed.

Lemma division_failure :
  evaluator_failure (ValueError "Cannot divide by zero").
Proof. left. eexists. split; [reflexivity | right; now right]. Qed.

Lemma float_of_raises (value : constant) (w w' : window) (e : exception) :
  float_of value w = (Raised e, w') ->
  (is_int_or_float value = true /\ e = int_too_large) \/
  (is_int_or_float value = false /\ e = ValueError "Only numbers allowed").
Proof.
  destruct value; cbn; unfold ret, raise; intros H;
    try (injection H as <- _; right; split; reflexivity);
    try discriminate H.
  destruct (Float.of_int n); [discriminate H |].
  injection H as <- _. left. split; reflexivity.
Qed.

(** What [_eval] raises is one of its three [ValueError]s or the
    [OverflowError] of [float]. *)
Lemma eval_raises (tree : node) (w w' : window) (e : exception) :
  _eval tree w = (Raised e, w') -> evaluator_failure e.
Proof.
  revert w w' e.
  induction tree; intros w w' e H; cbn [_eval] in H;
    try (injection H as <- _; apply invalid_expression_failure).
  - now apply IHtree in H.
  - destruct (is_int_or_float value) eqn:Hv.
    + apply float_of_raises in H. destruct H as [[_ ->] | [H _]]; [now right | congruence].
    + injection H as <- _. apply only_numbers_failure.
  - destruct (is_sign op) eqn:Hop;
      [| injection H as <- _; apply invalid_expression_failure].
    unfold bind in H. destruct (_eval tree w) as [[x | e0] w0] eqn:Ht.
    + destruct op; try discriminate Hop; discriminate H.
    + injection H as <- _. now apply IHtree in Ht.
  - destruct (is_arith op) eqn:Hop;
      [| injection H as <- _; apply invalid_expression_failure].
    unfold bind in H. destruct (_eval tree1 w) as [[x | e1] w1] eqn:H1.
    + destruct (_eval tree2 w1) as [[y | e2] w2] eqn:H2.
      * unfold try_except in H.
        destruct op; try discriminate Hop; cbn in H; try discriminate H.
        unfold py_truediv in H. destruct (Float.truediv x y); [discriminate H |].
        injection H as <- _. apply division_failure.
      * injection H as <- _. now apply IHtree2 in H2.
    + injection H as <- _. now apply IHtree1 in H1.
Qed.

Lemma safe_evaluate_raises (expression : string) (w w' : window)
  (e : exception) :
  _safe_evaluate expression w = (Raised e, w') -> evaluator_failure e.
Proof.
  intros H. destruct (Grammar.parse_eval expression) as [tree |] eqn:Hp.
  - rewrite (safe_evaluate_parsed _ _ _ Hp) in H. now apply eval_raises in H.
  - rewrite (safe_evaluate_syntax_error _ _ Hp) in H.
    injection H as <- _. apply invalid_expression_failure.
Qed.

(** A tree [_eval] returns a number for has every node on the whitelist. *)
Lemma eval_returned_supported (tree : node) (w w' : window) (v : float) :
  _eval tree w = (Returned v, w') -> supported tree = true.
Proof.
  revert w w' v.
  induction tree; intros w w' v H; cbn [_eval] in H; try discriminate H.
  - cbn [supported]. now apply IHtree in H.
  - cbn [supported]. destruct (is_int_or_float value); [reflexivity | discriminate H].
  - cbn [supported]. destruct (is_sign op); [| discriminate H].
    unfold bind in H. destruct (_eval tree w) as [[x | e0] w0] eqn:Ht;
      [| discriminate H].
    now apply IHtree in Ht.
  - cbn [supported]. destruct (is_arith op); [| discriminate H].
    unfold bind in H. destruct (_eval tree1 w) as [[x | e1] w1] eqn:H1;
      [| discriminate H].
    destruct (_eval tree2 w1) as [[y | e2] w2] eqn:H2; [| discriminate H].
    apply IHtree1 in H1. apply IHtree2 in H2. now rewrite H1, H2.
Qed.

(** On a tree of whitelisted nodes the only failures are a division by
    zero and an integer literal beyond the doubles. *)
Lemma supported_raises (tree : node) (w w' : window) (e : exception) :
  supported tree = true ->
  _eval tree w = (Raised e, w') ->
  e = ValueError "Cannot divide by zero" \/ e = int_too_large.
Proof.
  revert w w' e.
  induction tree; intros w w' e Hs H; cbn [supported] in Hs;
    try discriminate Hs; cbn [_eval] in H.
  - now apply IHtree in H.
  - rewrite Hs in H. apply float_of_raises in H.
    destruct H as [[_ ->] | [H _]]; [now right | congruence].
  - apply andb_true_iff in Hs. destruct Hs as [Hop Hs]. rewrite Hop in H.
    unfold bind in H. destruct (_eval tree w) as [[x | e0] w0] eqn:Ht.
    + destruct op; try discriminate Hop; discriminate H.
    + injection H as <- _. now apply IHtree in Ht.
  - apply andb_true_iff in Hs. destruct Hs as [Hs Hs2].
    apply andb_true_iff in Hs. destruct Hs as [Hop Hs1]. rewrite Hop in H.
    unfold bind in H. destruct (_eval tree1 w) as [[x | e1] w1] eqn:H1.
    + destruct (_eval tree2 w1) as [[y | e2] w2] eqn:H2.
      * unfold try_except in H.
        destruct op; try discriminate Hop; cbn in H; try discriminate H.
        unfold py_truediv in H. destruct (Float.truediv x y); [discriminate H |].
        injection H as <- _. now left.
      * injection H as <- _. now apply IHtree2 in H2.
    + injection H as <- _. now apply IHtree1 in H1.
Qed.

(** The three evaluating callbacks on a display that is not empty, by the
    outcome of the evaluation. *)
Lemma evaluate_or_alert_cases (text : string) (w : window) :
  match _safe_evaluate text w with
  | (Returned v, _) => evaluate_or_alert text w = (Returned (Some v), w)
  | (Raised (ValueError msg), _) =>
      evaluate_or_alert text w =
        (Returned None, Window (display_var w) (("Error", msg) :: alerts w))
  | (Raised e, _) => evaluate_or_alert text w = (Raised e, w)
  end.
Proof.
  destruct (safe_evaluate_frame text) as [r Hr].
  unfold evaluate_or_alert, try_except, bind. rewrite Hr.
  destruct r as [v | []]; reflexivity.
Qed.

Lemma not_empty (s : string) : s <> "" -> is_empty s = false.
Proof. destruct s; [contradiction | reflexivity]. Qed.

Lemma calculate_cases (w : window) :
  display_var w <> "" ->
  _calculate w =
    match _safe_evaluate (display_var w) w with
    | (Returned v, _) => (Returned tt, Window (_format_number v) (alerts w))
    | (Raised (ValueError msg), _) =>
        (Returned tt, Window (display_var w) (("Error", msg) :: alerts w))
    | (Raised e, _) => (Raised e, w)
    end.
Proof.
  intros Hne. pose proof (evaluate_or_alert_cases (display_var w) w) as Hc.
  unfold _calculate, bind at 1, display_var_get.
  rewrite (not_empty _ Hne). unfold bind.
  destruct (_safe_evaluate (display_var w) w) as [[v | []] w0];
    rewrite Hc; reflexivity.
Qed.

Lemma negate_cases (w : window) :
  display_var w <> "" ->
  _negate w =
    match _safe_evaluate (display_var w) w with
    | (Returned v, _) =>
        (Returned tt, Window (_format_number (Float.neg v)) (alerts w))
    | (Raised (ValueError msg), _) =>
        (Returned tt, Window (display_var w) (("Error", msg) :: alerts w))
    | (Raised e, _) => (Raised e, w)
    end.
Proof.
  intros Hne. pose proof (evaluate_or_alert_cases (display_var w) w) as Hc.
  unfold _negate, bind at 1, display_var_get.
  rewrite (not_empty _ Hne). unfold bind.
  destruct (_safe_evaluate (display_var w) w) as [[v | []] w0];
    rewrite Hc; reflexivity.
Qed.

Lemma percent_cases (w : window) :
  display_var w <> "" ->
  _percent w =
    match _safe_evaluate (display_var w) w with
    | (Returned v, _) =>
        (Returned tt,
         Window (_format_number (Float.div v (Float.of_small 100))) (alerts w))
    | (Raised (ValueError msg), _) =>
        (Returned tt, Window (display_var w) (("Error", msg) :: alerts w))
    | (Raised e, _) => (Raised e, w)
    end.
Proof.
  intros Hne. pose proof (evaluate_or_alert_cases (display_var w) w) as Hc.
  unfold _percent, bind at 1, display_var_get.
  rewrite (not_empty _ Hne). unfold bind.
  destruct (_safe_evaluate (display_var w) w) as [[v | []] w0];
    rewrite Hc; reflexivity.
Qed.

(** The callbacks bound to the three evaluating keys. *)
Definition evaluating (callback : M unit) : Prop :=
  callback = _calculate \/ callback = _negate \/ callback = _percent.

(** Whatever [_safe_evaluate] raises on a text of key characters is a
    [ValueError] carrying one of the evaluator's three messages, or the
    [OverflowError] of [float] on an integer literal beyond the doubles:
    never a [SyntaxError], a [ZeroDivisionError] or a [KeyError].  (The
    interpreter's recursion limit, which very long texts can reach, is no
    part of the embedding.) *)
Theorem evaluator_raises_only (expression : string) (w w' : window)
  (e : exception) :
  Grammar.keyed expression = true ->
  _safe_evaluate expression w = (Raised e, w') ->
  (exists msg, e = ValueError msg /\
     (msg = "Invalid expression" \/ msg = "Only numbers allowed" \/
      msg = "Cannot divide by zero")) \/
  e = OverflowError "int too large to convert to float".
Proof. intros _. apply safe_evaluate_raises. Qed.

Lemma evaluator_raises_only_witness :
  (exists msg, ValueError "Only numbers allowed" = ValueError msg /\
     (msg = "Invalid expression" \/ msg = "Only numbers allowed" \/
      msg = "Cannot divide by zero")) \/
  ValueError "Only numbers allowed" =
    OverflowError "int too large to convert to float".
Proof.
  apply (evaluator_raises_only "..." (showing "...") (showing "..."));
    vm_compute; reflexivity.
Defined.

(** [_safe_evaluate] returns a number only for a text that parses to a
    tree whose every node is on the whitelist: numeric constants, the two
    signs and the four arithmetic operators. *)
Theorem returned_value_is_whitelisted (expression : string) (w w' : window)
  (v : float) :
  _safe_evaluate expression w = (Returned v, w') ->
  exists tree,
    Grammar.parse_eval expression = Some tree /\ supported tree = true.
Proof.
  intros H. destruct (Grammar.parse_eval expression) as [tree |] eqn:Hp.
  - exists tree. split; [reflexivity |].
    rewrite (safe_evaluate_parsed _ _ _ Hp) in H.
    now apply eval_returned_supported in H.
  - rewrite (safe_evaluate_syntax_error _ _ Hp) in H. discriminate H.
Qed.

Lemma returned_value_is_whitelisted_witness :
  exists tree,
    Grammar.parse_eval "-(2+3)*4" = Some tree /\ supported tree = true.
Proof.
  apply (returned_value_is_whitelisted "-(2+3)*4" (showing "") (showing "")
           (Float.of_small (-20))).
  vm_compute. reflexivity.
Defined.

(** A text that parses to a tree of whitelisted nodes fails in two ways
    only: a division by zero, or an integer literal beyond the doubles.
    (The interpreter's recursion limit is no part of the embedding.) *)
Theorem whitelisted_tree_fails_two_ways (expression : string) (tree : node)
  (w w' : window) (e : exception) :
  Grammar.parse_eval expression = Some tree ->
  supported tree = true ->
  _safe_evaluate expression w = (Raised e, w') ->
  e = ValueError "Cannot divide by zero" \/
  e = OverflowError "int too large to convert to float".
Proof.
  intros Hp Hs H. rewrite (safe_evaluate_parsed _ _ _ Hp) in H.
  now apply (supported_raises tree w w').
Qed.

Lemma whitelisted_tree_fails_two_ways_witness :
  ValueError "Cannot divide by zero" = ValueError "Cannot divide by zero" \/
  ValueError "Cannot divide by zero" =
    OverflowError "int too large to convert to float".
Proof.
  apply (whitelisted_tree_fails_two_ways "1/(2-2)"
           (Expression (BinOp (Constant (CInt 1)) Div
                          (BinOp (Constant (CInt 2)) Sub (Constant (CInt 2)))))
           (showing "") (showing ""));
    vm_compute; reflexivity.
Defined.

(** When the evaluation of a display of key characters, not empty, raises
    a [ValueError], each of the three evaluating callbacks returns
    normally, leaves the text of the display as it was and puts up one
    dialog, titled "Error", with the message of the exception. *)
Theorem value_error_is_shown (callback : M unit) (w : window) (msg : string) :
  evaluating callback ->
  Grammar.keyed (display_var w) = true ->
  display_var w <> "" ->
  _safe_evaluate (display_var w) w = (Raised (ValueError msg), w) ->
  callback w =
    (Returned tt, Window (display_var w) (("Error", msg) :: alerts w)).
Proof.
  intros [-> | [-> | ->]] _ Hne H.
  - rewrite (calculate_cases w Hne), H. reflexivity.
  - rewrite (negate_cases w Hne), H. reflexivity.
  - rewrite (percent_cases w Hne), H. reflexivity.
Qed.

Lemma value_error_is_shown_witness :
  _percent (showing "2**3") =
    (Returned tt, Window "2**3" [("Error", "Invalid expression")]).
Proof.
  apply (value_error_is_shown _percent (showing "2**3") "Invalid expression").
  - right. now right.
  - reflexivity.
  - discriminate.
  - vm_compute. reflexivity.
Defined.

(** The only exception that leaves one of the three evaluating callbacks is
    the [OverflowError] of an integer literal beyond the doubles, and it
    leaves the window untouched; in particular the division by 100 of
    [_percent] never raises.  (The interpreter's recursion limit is no part
    of the embedding.) *)
Theorem callbacks_raise_overflow_only (callback : M unit) (w w' : window)
  (e : exception) :
  evaluating callback ->
  callback w = (Raised e, w') ->
  e = OverflowError "int too large to convert to float" /\ w' = w.
Proof.
  intros Hcb H.
  destruct (display_var w) as [| c rest] eqn:Hd.
  { destruct w as [text dialogs]. cbn in Hd. subst text.
    destruct Hcb as [-> | [-> | ->]]; discriminate H. }
  assert (Hne : display_var w <> "") by (rewrite Hd; discriminate).
  pose proof (safe_evaluate_raises (display_var w) w) as Hr.
  destruct (safe_evaluate_frame (display_var w)) as [r Hf].
  destruct Hcb as [-> | [-> | ->]];
    [ rewrite (calculate_cases w Hne) in H
    | rewrite (negate_cases w Hne) in H
    | rewrite (percent_cases w Hne) in H ];
    rewrite Hf in H, Hr;
    (destruct r as [v | e0]; [discriminate H |]);
    specialize (Hr w e0 eq_refl);
    (destruct Hr as [[msg [-> _]] | ->]; [discriminate H |]);
    injection H as <- <-; split; reflexivity.
Qed.

Lemma callbacks_raise_overflow_only_witness :
  OverflowError "int too large to convert to float" =
    OverflowError "int too large to convert to float" /\
  showing ten_to_the_309 = showing ten_to_the_309.
Proof.
  apply (callbacks_raise_overflow_only _negate (showing ten_to_the_309)
           (showing ten_to_the_309)).
  - right. now left.
  - vm_compute. reflexivity.
Defined.

End Failures.

(* ================================================================== *)
(** * Results on the display *)
(* ================================================================== *)

Module Results.
Import Float FloatFacts NumeralFacts Ast Calculator Spec EvalFacts ReadBack.
Import Doubles ParserFacts Failures.

Local Open Scope string_scope.
Local Open Scope Z_scope.

(** The text of a finite double evaluates to a double with the same text:
    the double itself, but for negative zero, shown as ["0"]. *)
Lemma format_evaluates (v : float) (w : window) :
  Float.wf v -> is_finite v = true ->
  exists v',
    _safe_evaluate (_format_number v) w = (Returned v', w) /\
    _format_number v' = _format_number v /\
    (v' = v \/ (v = Finite true 0 /\ v' = Finite false 0)).
Proof.
  intros Hwf Hfin. destruct v as [s k | |]; try discriminate Hfin.
  destruct (Z.eq_dec k 0) as [-> | Hk].
  - destruct s.
    + exists (Finite false 0). split; [vm_compute; reflexivity |].
      split; [vm_compute; reflexivity | right; split; reflexivity].
    + exists (Finite false 0). split; [vm_compute; reflexivity |].
      split; [reflexivity | now left].
  - exists (Finite s k). split; [| split; [reflexivity | now left]].
    apply format_reads_back; [exact Hwf | reflexivity |].
    intros E. injection E as _ E. contradiction.
Qed.

Lemma format_not_empty (v : float) :
  Float.wf v -> is_finite v = true -> _format_number v <> "".
Proof.
  intros Hwf Hfin E.
  destruct (format_evaluates v (showing "") Hwf Hfin) as [v' [H _]].
  rewrite E in H. vm_compute in H. discriminate H.
Qed.

(** Pressing "=" on the text of a finite double changes nothing. *)
Lemma calculate_on_result (v : float) (dialogs : list (string * string)) :
  Float.wf v -> is_finite v = true ->
  _calculate (Window (_format_number v) dialogs) =
    (Returned tt, Window (_format_number v) dialogs).
Proof.
  intros Hwf Hfin.
  rewrite calculate_cases by (cbn [display_var]; now apply format_not_empty).
  cbn [display_var alerts].
  destruct (format_evaluates v (Window (_format_number v) dialogs) Hwf Hfin)
    as [v' [H [Hsame _]]].
  rewrite H, Hsame. reflexivity.
Qed.

(** Dividing a finite double by a double of magnitude one or more gives a
    finite double. *)
Lemma div_finite (s1 s2 : bool) (k1 k2 : Z) :
  representable k1 -> k1 < huge -> one_unit <= k2 ->
  is_finite (Float.div (Finite s1 k1) (Finite s2 k2)) = true.
Proof.
  intros Hk Hh Hk2. pose proof one_unit_pos as Hu.
  cbn [Float.div].
  assert (E : (k2 =? 0) = false) by (apply Z.eqb_neq; lia). rewrite E.
  unfold of_ratio.
  assert (Hle : round_units (k1 * one_unit) k2 <= k1).
  { rewrite <- (round_units_exact k1 1 Hk ltac:(lia)) at 2.
    destruct Hk as [Hk0 _].
    apply round_units_mono; [nia | lia | lia | nia]. }
  assert (Hlt : (round_units (k1 * one_unit) k2 <? huge) = true)
    by (apply Z.ltb_lt; lia).
  rewrite Hlt. reflexivity.
Qed.

Lemma hundredth_finite (v : float) :
  Float.wf v -> is_finite v = true ->
  is_finite (Float.div v (of_small 100)) = true.
Proof.
  intros Hwf Hfin. destruct v as [s k | |]; try discriminate Hfin.
  destruct Hwf as [Hk Hh]. unfold of_small.
  apply div_finite; [exact Hk | exact Hh |].
  change (Z.abs 100) with 100. pose proof one_unit_pos. lia.
Qed.

Lemma neg_neg (v : float) : Float.neg (Float.neg v) = v.
Proof. destruct v as [s k | s |]; cbn; now rewrite ?negb_involutive. Qed.

(** Once one of the three evaluating keys has written a finite result on
    the display, pressing "=" changes nothing more: the text written is an
    expression of the evaluator, and its value is shown by the same text. *)
Theorem equals_keeps_a_result (callback : M unit) (w : window) (v : float) :
  evaluating callback ->
  display_var w <> "" ->
  _safe_evaluate (display_var w) w = (Returned v, w) ->
  is_finite v = true ->
  (_ <- callback ;; _calculate) w = callback w.
Proof.
  intros Hcb Hne Hv Hfin.
  pose proof (safe_evaluate_wf _ _ _ _ Hv) as Hwf.
  unfold bind.
  destruct Hcb as [-> | [-> | ->]].
  - rewrite (calculate_cases w Hne), Hv.
    now apply calculate_on_result.
  - rewrite (negate_cases w Hne), Hv.
    apply calculate_on_result; [now apply wf_neg |].
    destruct v; try discriminate Hfin; reflexivity.
  - rewrite (percent_cases w Hne), Hv.
    apply calculate_on_result; [| now apply hundredth_finite].
    apply wf_div; [exact Hwf |].
    split; [| vm_compute; reflexivity].
    split; vm_compute; congruence.
Qed.

Lemma equals_keeps_a_result_witness :
  (_ <- _percent ;; _calculate) (showing "1/8") = _percent (showing "1/8").
Proof.
  apply (equals_keeps_a_result _percent (showing "1/8")
           (Float.div (of_small 1) (of_small 8))).
  - right. now right.
  - discriminate.
  - vm_compute. reflexivity.
  - reflexivity.
Defined.

(** Pressing "+/-" twice on a display that evaluates to a finite double
    shows what pressing "=" once shows. *)
Theorem negate_twice_is_equals (w : window) (v : float) :
  display_var w <> "" ->
  _safe_evaluate (display_var w) w = (Returned v, w) ->
  is_finite v = true ->
  (_ <- _negate ;; _negate) w = _calculate w.
Proof.
  intros Hne Hv Hfin.
  pose proof (safe_evaluate_wf _ _ _ _ Hv) as Hwf.
  assert (Hwfn : Float.wf (Float.neg v)) by now apply wf_neg.
  assert (Hfinn : is_finite (Float.neg v) = true)
    by (destruct v; try discriminate Hfin; reflexivity).
  unfold bind.
  rewrite (negate_cases w Hne), (calculate_cases w Hne), Hv.
  rewrite negate_cases by (cbn [display_var]; now apply format_not_empty).
  cbn [display_var alerts].
  destruct (format_evaluates (Float.neg v)
              (Window (_format_number (Float.neg v)) (alerts w)) Hwfn Hfinn)
    as [v' [H [_ Hcase]]].
  rewrite H. destruct Hcase as [-> | [Hz ->]].
  - now rewrite neg_neg.
  - assert (Ev : v = Finite false 0).
    { rewrite <- (neg_neg v), Hz. reflexivity. }
    rewrite Ev. vm_compute. reflexivity.
Qed.

Lemma negate_twice_is_equals_witness :
  (_ <- _negate ;; _negate) (showing "2-2.5") = _calculate (showing "2-2.5").
Proof.
  apply (negate_twice_is_equals (showing "2-2.5")
           (Float.sub (of_small 2) (Float.div (of_small 5) (of_small 2)))).
  - discriminate.
  - vm_compute. reflexivity.
  - reflexivity.
Defined.

(** Two expressions whose values are shown by the same text have the same
    value, or values that are both zero (of either sign): the display never
    merges two different numbers. *)
Theorem same_text_same_value (e1 e2 : string) (w : window) (v1 v2 : float) :
  _safe_evaluate e1 w = (Returned v1, w) ->
  _safe_evaluate e2 w = (Returned v2, w) ->
  _format_number v1 = _format_number v2 ->
  v1 = v2 \/ (is_zero v1 = true /\ is_zero v2 = true).
Proof.
  intros H1 H2 Hsame.
  pose proof (safe_evaluate_wf _ _ _ _ H1) as Hwf1.
  pose proof (safe_evaluate_wf _ _ _ _ H2) as Hwf2.
  destruct (is_finite v1) eqn:Hf1, (is_finite v2) eqn:Hf2.
  - destruct (format_evaluates v1 w Hwf1 Hf1) as [v1' [E1 [_ C1]]].
    destruct (format_evaluates v2 w Hwf2 Hf2) as [v2' [E2 [_ C2]]].
    rewrite Hsame, E2 in E1. injection E1 as E1. subst v2'.
    destruct C1 as [<- | [-> ->]], C2 as [E | [-> E]].
    + now left.
    + rewrite E. right. split; reflexivity.
    + rewrite <- E. right. split; reflexivity.
    + now left.
  - destruct (format_evaluates v1 w Hwf1 Hf1) as [v1' [E1 _]].
    rewrite Hsame in E1.
    destruct v2 as [s k | [] |]; try discriminate Hf2;
      vm_compute in E1; discriminate E1.
  - destruct (format_evaluates v2 w Hwf2 Hf2) as [v2' [E2 _]].
    rewrite <- Hsame in E2.
    destruct v1 as [s k | [] |]; try discriminate Hf1;
      vm_compute in E2; discriminate E2.
  - destruct v1 as [s1 k1 | [] |], v2 as [s2 k2 | [] |];
      try discriminate Hf1; try discriminate Hf2;
      try (now left); vm_compute in Hsame; discriminate Hsame.
Qed.

Lemma same_text_same_value_witness :
  Float.div (of_small 1) (of_small 2) = of_decimal 5 (-1) \/
  (is_zero (Float.div (of_small 1) (of_small 2)) = true /\
   is_zero (of_decimal 5 (-1)) = true).
Proof.
  apply (same_text_same_value "1/2" ".5" (showing ""));
    vm_compute; reflexivity.
Defined.

End Results.

(* ================================================================== *)
(** * Integer arithmetic *)
(* ================================================================== *)

Module Integers.
Import Float FloatFacts NumeralFacts Text TextFacts Ast Grammar LexFacts.
Import Calculator EvalFacts ReadBack Failures.

Local Open Scope char_scope.
Local Open Scope Z_scope.

(** The integers every one of which is a double: magnitudes below [2^53]. *)
Definition small (n : Z) : Prop := 0 <= n < 2 ^ 53.

(** The key of a binary operator, as [ast.parse] reads it. *)
Definition binary_key (c : ascii) : option operator :=
  match c with
  | "+" => Some Add
  | "-" => Some Sub
  | "*" => Some Mult
  | "/" => Some Div
  | _ => None
  end.

(** The text typed as an integer, an operator key and an integer. *)
Definition typed (a : Z) (c : ascii) (b : Z) : string :=
  string_of_list_ascii (digits_of a ++ c :: digits_of b).

(** [str(n)]. *)
Definition str (n : Z) : string := string_of_list_ascii (str_int n).

Lemma representable_small (n : Z) : small n -> representable (n * one_unit).
Proof.
  intros [H0 H1]. pose proof one_unit_pos as Hu. split; [nia |].
  destruct (Z.eq_dec n 0) as [-> | Hn]; [apply Zmod_0_l |].
  assert (Hl : Z.log2 n < 53) by (apply Z.log2_lt_pow2; lia).
  pose proof (Z.log2_nonneg n) as Hl0.
  unfold ulp_shift, one_unit.
  rewrite Z.log2_mul_pow2 by lia.
  set (j := Z.max 0 (1074 + Z.log2 n - 52)).
  assert (Hj : 0 <= j <= 1074) by lia.
  replace 1074 with ((1074 - j) + j) at 1 by lia.
  rewrite Z.pow_add_r by lia. rewrite Z.mul_assoc.
  apply Z.mod_mul. apply Z.pow_nonzero; lia.
Qed.

Lemma small_below_huge (n : Z) : small n -> n * one_unit < huge.
Proof.
  intros [H0 H1]. pose proof one_unit_pos as Hu.
  change huge with (2 ^ 1024 * one_unit).
  apply Z.mul_lt_mono_pos_r; [exact Hu |].
  apply Z.lt_trans with (2 ^ 53); [exact H1 | reflexivity].
Qed.

Lemma of_small_nonneg (n : Z) :
  0 <= n -> of_small n = Finite false (n * one_unit).
Proof.
  intros Hn. unfold of_small. rewrite Z.abs_eq by exact Hn.
  assert (E : (n <? 0) = false) by (apply Z.ltb_ge; exact Hn).
  rewrite E. reflexivity.
Qed.

Lemma of_int_small (n : Z) : small n -> of_int n = Some (of_small n).
Proof.
  intros Hs. pose proof (representable_small n Hs) as Hr.
  pose proof (small_below_huge n Hs) as Hh. destruct Hs as [H0 H1].
  unfold of_int, of_small. rewrite Z.abs_eq by exact H0.
  pose proof (round_units_exact (n * one_unit) 1 Hr ltac:(lia)) as He.
  rewrite Z.mul_1_r in He. rewrite He.
  apply Z.ltb_lt in Hh. rewrite Hh. reflexivity.
Qed.

Lemma exact_small (s : bool) (n : Z) :
  small n -> of_ratio s (n * one_unit) 1 = Finite s (n * one_unit).
Proof.
  intros Hs. rewrite <- (Z.mul_1_r (n * one_unit)) at 1.
  apply of_ratio_exact; [now apply representable_small
                        | now apply small_below_huge | lia].
Qed.

Lemma add_small (a b : Z) :
  small a -> small b -> small (a + b) ->
  Float.add (of_small a) (of_small b) = of_small (a + b).
Proof.
  intros Ha Hb Hab. pose proof one_unit_pos as Hu.
  rewrite !of_small_nonneg by apply Ha || apply Hb || apply Hab.
  cbn [Float.add signed]. cbv zeta.
  replace (a * one_unit + b * one_unit) with ((a + b) * one_unit) by lia.
  destruct ((a + b) * one_unit =? 0) eqn:E.
  - apply Z.eqb_eq in E. rewrite E. reflexivity.
  - assert (Hpos : 0 <= (a + b) * one_unit) by (destruct Hab; nia).
    rewrite Z.abs_eq by exact Hpos.
    assert (El : ((a + b) * one_unit <? 0) = false) by (apply Z.ltb_ge; exact Hpos).
    rewrite El. now apply exact_small.
Qed.

Lemma sub_small (a b : Z) :
  small a -> small b ->
  Float.sub (of_small a) (of_small b) = of_small (a - b).
Proof.
  intros Ha Hb. pose proof one_unit_pos as Hu.
  rewrite (of_small_nonneg a), (of_small_nonneg b) by apply Ha || apply Hb.
  unfold Float.sub. cbn [Float.neg negb Float.add signed andb]. cbv zeta.
  replace (a * one_unit + - (b * one_unit)) with ((a - b) * one_unit) by lia.
  unfold of_small.
  destruct ((a - b) * one_unit =? 0) eqn:E.
  - apply Z.eqb_eq in E. assert (E0 : a - b = 0) by nia. rewrite E0. reflexivity.
  - rewrite Z.abs_mul, (Z.abs_eq one_unit) by lia.
    assert (El : ((a - b) * one_unit <? 0) = (a - b <? 0)).
    { destruct (Z.ltb_spec (a - b) 0), (Z.ltb_spec ((a - b) * one_unit) 0);
        [reflexivity | nia | nia | reflexivity]. }
    rewrite El. apply exact_small. destruct Ha, Hb. split; lia.
Qed.

Lemma mul_small (a b : Z) :
  small a -> small b -> small (a * b) ->
  Float.mul (of_small a) (of_small b) = of_small (a * b).
Proof.
  intros Ha Hb Hab. pose proof one_unit_pos as Hu.
  rewrite !of_small_nonneg by apply Ha || apply Hb || apply Hab.
  cbn [Float.mul xorb].
  replace (a * one_unit * (b * one_unit))
    with (a * b * one_unit * one_unit) by lia.
  apply of_ratio_exact; [now apply representable_small
                        | now apply small_below_huge | exact Hu].
Qed.

Lemma div_small (a b : Z) :
  small a -> small b -> b <> 0 -> a mod b = 0 ->
  Float.div (of_small a) (of_small b) = of_small (a / b).
Proof.
  intros Ha Hb Hb0 Hmod. pose proof one_unit_pos as Hu.
  assert (Hq : a = b * (a / b)).
  { pose proof (Z.div_mod a b Hb0). lia. }
  assert (Hqs : small (a / b)).
  { destruct Ha as [Ha0 Ha1], Hb as [Hb0' _]. split.
    - apply Z.div_pos; lia.
    - apply Z.le_lt_trans with a; [| exact Ha1].
      apply Z.div_le_upper_bound; [lia | nia]. }
  rewrite (of_small_nonneg a), (of_small_nonneg b), (of_small_nonneg (a / b))
    by apply Ha || apply Hb || apply Hqs.
  cbn [Float.div xorb].
  assert (E : (b * one_unit =? 0) = false) by (apply Z.eqb_neq; nia).
  rewrite E. set (q := a / b) in *.
  replace (a * one_unit * one_unit)
    with (q * one_unit * (b * one_unit)) by (rewrite Hq; ring).
  apply of_ratio_exact; [now apply representable_small
                        | now apply small_below_huge | destruct Hb; nia].
Qed.

(** ** The text of two integers around an operator key *)

Lemma valid_decinteger_digits_of (n : Z) :
  0 <= n -> valid_decinteger (digits_of n) = true.
Proof.
  intros Hn. destruct (Z.eq_dec n 0) as [-> | Hne]; [reflexivity |].
  destruct (digits_of_head n ltac:(lia)) as [c [rest [Hd Hc]]].
  rewrite Hd. now apply valid_decinteger_head.
Qed.

Lemma lex_number_digits_of (n : Z) :
  0 <= n -> lex_number (digits_of n) = Some (CInt n, []).
Proof.
  intros Hn.
  rewrite (lex_number_integer _ (digits_of_all_digits n) (digits_of_nonempty n)).
  rewrite (valid_decinteger_digits_of n Hn), (digits_of_value n Hn).
  reflexivity.
Qed.

Lemma lex_number_before_key (n : Z) (c : ascii) (op : operator)
  (rest : list ascii) :
  0 <= n -> binary_key c = Some op ->
  lex_number (digits_of n ++ c :: rest) = Some (CInt n, c :: rest).
Proof.
  intros Hn Hkey. unfold lex_number.
  assert (Hs : starts_with_digit (c :: rest) = false).
  { destruct c as [[] [] [] [] [] [] [] []]; try discriminate Hkey; reflexivity. }
  rewrite (span_digits_app _ _ (digits_of_all_digits n) Hs).
  destruct c as [[] [] [] [] [] [] [] []]; try discriminate Hkey;
    cbv beta iota; cbn [lex_exponent];
    rewrite (valid_decinteger_digits_of n Hn), (digits_of_value n Hn);
    reflexivity.
Qed.

Definition key_token (op : operator) : token :=
  match op with
  | Add => PLUS
  | Sub => MINUS
  | Mult => STAR
  | _ => SLASH
  end.

Lemma lex_step_key (c d : ascii) (op : operator) (rest : list ascii) :
  binary_key c = Some op -> is_digit d = true ->
  lex_step (c :: d :: rest) = Token (key_token op) (d :: rest).
Proof.
  intros Hkey Hd.
  apply digit_cases in Hd. cbn [In] in Hd.
  destruct c as [[] [] [] [] [] [] [] []]; try discriminate Hkey;
    injection Hkey as <-;
    repeat (destruct Hd as [<- | Hd]; [reflexivity |]); contradiction.
Qed.

Lemma lex_all_more (n m : nat) (cs : list ascii) (ts : list token) :
  lex_all n cs = Some ts -> (n <= m)%nat -> lex_all m cs = Some ts.
Proof.
  revert m cs ts. induction n as [| n IH]; intros m cs ts H Hle;
    [discriminate H |].
  destruct m as [| m]; [lia |]. cbn [lex_all] in *.
  destruct (lex_step cs) as [t r | r | |]; try exact H.
  - destruct (lex_all n r) as [ts' |] eqn:E; [| discriminate H].
    rewrite (IH m r ts' E ltac:(lia)). exact H.
  - apply IH; [exact H | lia].
Qed.

Lemma tokenize_typed (a b : Z) (c : ascii) (op : operator) :
  0 <= a -> 0 <= b -> binary_key c = Some op ->
  tokenize (digits_of a ++ c :: digits_of b) =
    Some [NUMBER (CInt a); key_token op; NUMBER (CInt b)].
Proof.
  intros Ha Hb Hkey.
  pose proof (lex_number_before_key a c op (digits_of b) Ha Hkey) as Hla.
  pose proof (lex_number_digits_of b Hb) as Hlb.
  pose proof (digits_of_all_digits a) as Halla.
  pose proof (digits_of_all_digits b) as Hallb.
  pose proof (digits_of_nonempty a) as Hnea.
  pose proof (digits_of_nonempty b) as Hneb.
  destruct (digits_of a) as [| da ra]; [contradiction |].
  destruct (digits_of b) as [| db rb]; [contradiction |].
  destruct (all_digits_cons _ _ Halla) as [Hda _].
  destruct (all_digits_cons _ _ Hallb) as [Hdb _].
  set (cs := (da :: ra) ++ c :: db :: rb) in *.
  assert (Ht : tokenize cs = lex_all (S (List.length cs)) cs).
  { subst cs. cbn [app]. apply digit_cases in Hda. cbn [In] in Hda.
    repeat (destruct Hda as [<- | Hda]; [reflexivity |]). contradiction. }
  rewrite Ht. apply lex_all_more with 4%nat.
  - cbn [lex_all]. subst cs. cbn [app] in *.
    rewrite (lex_step_digit da _ Hda), Hla.
    rewrite (lex_step_key c db op rb Hkey Hdb).
    rewrite (lex_step_digit db rb Hdb), Hlb. reflexivity.
  - subst cs. rewrite length_app. cbn [List.length]. lia.
Qed.

Lemma parse_typed (a b : Z) (c : ascii) (op : operator) :
  0 <= a -> 0 <= b -> binary_key c = Some op ->
  parse_eval (typed a c b) =
    Some (Expression (BinOp (Constant (CInt a)) op (Constant (CInt b)))).
Proof.
  intros Ha Hb Hkey. unfold parse_eval, typed.
  rewrite list_ascii_of_string_of_list_ascii.
  rewrite (tokenize_typed a b c op Ha Hb Hkey).
  destruct c as [[] [] [] [] [] [] [] []]; try discriminate Hkey;
    injection Hkey as <-; reflexivity.
Qed.

Lemma eval_small (n : Z) (w : window) :
  small n -> _eval (Constant (CInt n)) w = (Returned (of_small n), w).
Proof.
  intros Hs. cbn [_eval is_int_or_float].
  apply float_of_int_exact. now apply of_int_small.
Qed.

(** The value of the text typed as two small integers around an operator
    key. *)
Lemma evaluate_typed (a b : Z) (c : ascii) (op : operator) (w : window) :
  small a -> small b -> binary_key c = Some op ->
  _safe_evaluate (typed a c b) w =
    match op with
    | Add => (Returned (Float.add (of_small a) (of_small b)), w)
    | Sub => (Returned (Float.sub (of_small a) (of_small b)), w)
    | Mult => (Returned (Float.mul (of_small a) (of_small b)), w)
    | _ =>
        if b =? 0 then (Raised (ValueError "Cannot divide by zero"), w)
        else (Returned (Float.div (of_small a) (of_small b)), w)
    end.
Proof.
  intros Ha Hb Hkey.
  rewrite (safe_evaluate_parsed _ _ _
             (parse_typed a b c op (proj1 Ha) (proj1 Hb) Hkey)).
  change (_eval (Expression ?t) w) with (_eval t w).
  rewrite (eval_binary _ _ op w _ _ (eval_small a w Ha) (eval_small b w Hb)).
  destruct c as [[] [] [] [] [] [] [] []]; try discriminate Hkey;
    injection Hkey as <-; try reflexivity.
  rewrite (of_small_nonneg b (proj1 Hb)). cbn [is_zero].
  pose proof one_unit_pos as Hu.
  destruct (Z.eqb_spec b 0) as [-> | Hne].
  - reflexivity.
  - assert (E : (b * one_unit =? 0) = false) by (apply Z.eqb_neq; nia).
    rewrite E. reflexivity.
Qed.

Lemma format_of_small (n : Z) : _format_number (of_small n) = str n.
Proof.
  pose proof one_unit_pos as Hu.
  unfold _format_number, of_small, str. cbn [is_integer to_int].
  rewrite Z.mod_mul by lia. rewrite Z.div_mul by lia.
  cbn [Z.eqb]. f_equal. f_equal. unfold signed.
  destruct (Z.ltb_spec n 0); lia.
Qed.

Lemma typed_not_empty (a : Z) (c : ascii) (b : Z) : typed a c b <> ""%string.
Proof.
  unfold typed. pose proof (digits_of_nonempty a) as H.
  destruct (digits_of a); [contradiction | discriminate].
Qed.

(** With two integers below [2^53] typed around an operator key, "=" shows
    the integer result in decimal digits, exactly: the sum and the product
    when they are below [2^53] too, the difference whatever its sign, the
    quotient when the division leaves no remainder.  Dividing by zero shows
    the dialog and keeps the text. *)
Theorem integer_arithmetic_is_exact (a b : Z)
  (dialogs : list (string * string)) :
  small a -> small b ->
  (small (a + b) ->
   _calculate (Window (typed a "+" b) dialogs) =
     (Returned tt, Window (str (a + b)) dialogs)) /\
  _calculate (Window (typed a "-" b) dialogs) =
    (Returned tt, Window (str (a - b)) dialogs) /\
  (small (a * b) ->
   _calculate (Window (typed a "*" b) dialogs) =
     (Returned tt, Window (str (a * b)) dialogs)) /\
  (b <> 0 -> a mod b = 0 ->
   _calculate (Window (typed a "/" b) dialogs) =
     (Returned tt, Window (str (a / b)) dialogs)) /\
  (b = 0 ->
   _calculate (Window (typed a "/" b) dialogs) =
     (Returned tt,
      Window (typed a "/" b)
        (("Error", "Cannot divide by zero")%string :: dialogs))).
Proof.
  intros Ha Hb.
  assert (Hcalc : forall c, _calculate (Window (typed a c b) dialogs) =
            match _safe_evaluate (typed a c b) (Window (typed a c b) dialogs) with
            | (Returned v, _) => (Returned tt, Window (_format_number v) dialogs)
            | (Raised (ValueError msg), _) =>
                (Returned tt,
                 Window (typed a c b) (("Error"%string, msg) :: dialogs))
            | (Raised e, _) => (Raised e, Window (typed a c b) dialogs)
            end).
  { intros c. apply (calculate_cases (Window (typed a c b) dialogs)).
    apply typed_not_empty. }
  repeat split.
  - intros Hab. rewrite Hcalc, (evaluate_typed a b "+" Add _ Ha Hb eq_refl).
    rewrite (add_small a b Ha Hb Hab), format_of_small. reflexivity.
  - rewrite Hcalc, (evaluate_typed a b "-" Sub _ Ha Hb eq_refl).
    rewrite (sub_small a b Ha Hb), format_of_small. reflexivity.
  - intros Hab. rewrite Hcalc, (evaluate_typed a b "*" Mult _ Ha Hb eq_refl).
    rewrite (mul_small a b Ha Hb Hab), format_of_small. reflexivity.
  - intros Hb0 Hmod. rewrite Hcalc, (evaluate_typed a b "/" Div _ Ha Hb eq_refl).
    apply Z.eqb_neq in Hb0. rewrite Hb0.
    apply Z.eqb_neq in Hb0.
    rewrite (div_small a b Ha Hb Hb0 Hmod), format_of_small. reflexivity.
  - intros ->. rewrite Hcalc, (evaluate_typed a 0 "/" Div _ Ha Hb eq_refl).
    reflexivity.
Qed.

Lemma integer_arithmetic_is_exact_witness :
  (small (12 + 4) ->
   _calculate (Window (typed 12 "+" 4) []) =
     (Returned tt, Window (str (12 + 4)) [])) /\
  _calculate (Window (typed 12 "-" 4) []) =
    (Returned tt, Window (str (12 - 4)) []) /\
  (small (12 * 4) ->
   _calculate (Window (typed 12 "*" 4) []) =
     (Returned tt, Window (str (12 * 4)) [])) /\
  (4 <> 0 -> 12 mod 4 = 0 ->
   _calculate (Window (typed 12 "/" 4) []) =
     (Returned tt, Window (str (12 / 4)) [])) /\
  (4 = 0 ->
   _calculate (Window (typed 12 "/" 4) []) =
     (Returned tt,
      Window (typed 12 "/" 4)
        [("Error", "Cannot divide by zero")%string])).
Proof.
  apply (integer_arithmetic_is_exact 12 4 []); split; vm_compute; congruence.
Defined.

End Integers.

(* ================================================================== *)
(** * The buttons *)
(* ================================================================== *)

Module Buttons.
Import Float Calculator Spec Keys.

Local Open Scope string_scope.

(** The table [button_rows] of [_create_widgets]: the label of each button
    and the command bound to it. *)
Definition button_rows : list (list (string * M unit)) :=
  [ [ ("C", _clear); ("DEL", _backspace); ("%", _percent); ("+/-", _negate) ];
    [ ("7", _append "7"); ("8", _append "8"); ("9", _append "9");
      ("/", _append "/") ];
    [ ("4", _append "4"); ("5", _append "5"); ("6", _append "6");
      ("*", _append "*") ];
    [ ("1", _append "1"); ("2", _append "2"); ("3", _append "3");
      ("-", _append "-") ];
    [ ("0", _append "0"); (".", _append "."); ("=", _calculate);
      ("+", _append "+") ] ].

(** The command of the first button with a given label. *)
Fixpoint command_of (label : string) (buttons : list (string * M unit))
  : option (M unit) :=
  match buttons with
  | [] => None
  | (l, command) :: rest =>
      if String.eqb label l then Some command else command_of label rest
  end.

(** Pressing the button with a given label; no such button, no command. *)
Definition press (label : string) : M unit :=
  match command_of label (List.concat button_rows) with
  | Some command => command
  | None => ret tt
  end.

(** The labels of the digits, the point and the four operators. *)
Definition expression_keys : list string :=
  ["0"; "1"; "2"; "3"; "4"; "5"; "6"; "7"; "8"; "9"; "."; "+"; "-"; "*"; "/"].

Lemma press_expression_key (label : string) :
  In label expression_keys -> press label = _append label.
Proof.
  intros H. cbn [In expression_keys] in H.
  repeat (destruct H as [<- | H]; [reflexivity |]). contradiction.
Qed.

(** Each button of a digit, of the point and of an operator types its own
    label: pressed in any order after "C", these buttons make the display
    show their labels in that order, and no dialog comes up. *)
Theorem buttons_type_their_labels (labels : list string) (w : window) :
  Forall (fun label => In label expression_keys) labels ->
  run (press "C" :: map press labels) w =
    (Returned tt, Window (spelled labels) (alerts w)).
Proof.
  intros H.
  assert (E : map press labels = map _append labels).
  { induction H as [| l ls Hl _ IH]; [reflexivity |].
    cbn [map]. now rewrite IH, (press_expression_key l Hl). }
  rewrite E. change (press "C") with _clear.
  cbn [run]. change (snd (_clear w)) with (Window "" (alerts w)).
  apply (run_appends labels "").
Qed.

Lemma buttons_type_their_labels_witness :
  run (press "C" :: map press ["1"; "2"; "."; "5"; "*"; "4"]) (showing "7") =
    (Returned tt, Window "12.5*4" []).
Proof.
  apply (buttons_type_their_labels ["1"; "2"; "."; "5"; "*"; "4"] (showing "7")).
  repeat (apply Forall_cons;
    [cbn [In expression_keys]; repeat (first [left; reflexivity | right]) |]).
  apply Forall_nil.
Defined.

End Buttons.

(* ================================================================== *)
(** * Signs and results that are no numbers *)
(* ================================================================== *)

Module Signs.
Import Float FloatFacts Text TextFacts Ast Calculator Spec EvalFacts ReadBack.
Import Doubles ParserFacts Failures.

Local Open Scope string_scope.
Local Open Scope Z_scope.

(** The sign in front of a number. *)
Definition sign_text (negative : bool) : string :=
  if negative then "-" else "".

Lemma format_sign (s : bool) (k : Z) :
  0 < k ->
  _format_number (Finite s k) =
    sign_text s ++ _format_number (Finite false k).
Proof.
  intros Hk. pose proof one_unit_pos as Hu. destruct s; [| reflexivity].
  unfold _format_number. cbn [is_integer].
  destruct (k mod one_unit =? 0) eqn:Hint.
  - apply Z.eqb_eq in Hint. cbn [to_int signed].
    assert (Hq : 0 < k / one_unit).
    { pose proof (Z.div_mod k one_unit). nia. }
    unfold str_int.
    assert (E1 : (- (k / one_unit) <? 0) = true) by (apply Z.ltb_lt; lia).
    assert (E2 : (k / one_unit <? 0) = false) by (apply Z.ltb_ge; lia).
    rewrite E1, E2, Z.opp_involutive. reflexivity.
  - rewrite str_float_negative. reflexivity.
Qed.

(** On a display that evaluates to a finite double other than zero, "=" and
    "+/-" write the same digits, and exactly one of them writes a minus
    sign in front: "+/-" when the value is positive, "=" when it is
    negative. *)
Theorem negate_toggles_minus_sign (w : window) (s : bool) (k : Z) :
  display_var w <> "" ->
  _safe_evaluate (display_var w) w = (Returned (Finite s k), w) ->
  k <> 0 ->
  _calculate w =
    (Returned tt,
     Window (sign_text s ++ _format_number (Finite false k)) (alerts w)) /\
  _negate w =
    (Returned tt,
     Window (sign_text (negb s) ++ _format_number (Finite false k)) (alerts w)).
Proof.
  intros Hne Hv Hk.
  pose proof (safe_evaluate_wf _ _ _ _ Hv) as [[Hk0 _] _].
  assert (Hpos : 0 < k) by lia.
  rewrite (calculate_cases w Hne), (negate_cases w Hne), Hv.
  cbn [Float.neg].
  rewrite (format_sign s k Hpos), (format_sign (negb s) k Hpos).
  split; reflexivity.
Qed.

Lemma negate_toggles_minus_sign_witness :
  _calculate (showing "1-3.5") =
    (Returned tt,
     Window (sign_text true ++
             _format_number (Finite false (5 * 2 ^ 1073))) []) /\
  _negate (showing "1-3.5") =
    (Returned tt,
     Window (sign_text (negb true) ++
             _format_number (Finite false (5 * 2 ^ 1073))) []).
Proof.
  apply (negate_toggles_minus_sign (showing "1-3.5") true
           (5 * 2 ^ 1073)).
  - discriminate.
  - vm_compute. reflexivity.
  - discriminate.
Defined.

(** When the display evaluates to an infinity or to a NaN, "=" writes
    ["inf"], ["-inf"] or ["nan"], which is no expression of the evaluator:
    pressing "=" again puts up the dialog "Invalid expression" and keeps
    that text. *)
Theorem nonfinite_result_is_a_dead_end (w : window) (v : float) :
  display_var w <> "" ->
  _safe_evaluate (display_var w) w = (Returned v, w) ->
  is_finite v = false ->
  In (_format_number v) ["inf"; "-inf"; "nan"] /\
  (_ <- _calculate ;; _calculate) w =
    (Returned tt,
     Window (_format_number v) (("Error", "Invalid expression") :: alerts w)).
Proof.
  intros Hne Hv Hfin. unfold bind.
  rewrite (calculate_cases w Hne), Hv.
  destruct v as [s k | [] |]; try discriminate Hfin;
    (split; [cbn; tauto | vm_compute; reflexivity]).
Qed.

Lemma nonfinite_result_is_a_dead_end_witness :
  In (_format_number (Inf true)) ["inf"; "-inf"; "nan"] /\
  (_ <- _calculate ;; _calculate) (showing "-1e308*10") =
    (Returned tt,
     Window (_format_number (Inf true)) [("Error", "Invalid expression")]).
Proof.
  apply (nonfinite_result_is_a_dead_end (showing "-1e308*10") (Inf true)).
  - discriminate.
  - vm_compute. reflexivity.
  - reflexivity.
Defined.

End Signs.
